(** * Traffic service: route optimisation core

    A shallow embedding of the route optimisation service
    ([RouteOptimizationService]), of the routing client with its local
    nearest-neighbour fallback ([GoogleMapsService]) and of the socket gateway
    ([RouteOptimizationGateway]), together with the properties of the
    specification that concern them.

    Conventions of the embedding.
    - A JavaScript [number] is a real number and arithmetic is exact in
      [GeoMath], [GoogleMapsService] and [Metrics], so that neither rounding
      error nor [NaN] is represented there.  The module [Doubles] repeats the
      fallback and the metrics calculator with the distance that the engine
      computes, which can be [NaN], and follows [NaN] through them; at exact
      arithmetic it agrees with the former.  [Infinity] occurs in the source
      only as the initial value of a running minimum and is the [None] of an
      [option R].
    - A [Date] is its time value in milliseconds.
    - An exception is the [inl] of a sum, an [await]ed call is a call.
    - The data base, the message bus and the socket server are external:
      their state and the trace of calls made to them are explicit, and whether
      a given call fails is read from an [Outcomes] record. *)

From Stdlib Require Import Reals Lra Lia ZArith Ascii String.
From stdpp Require Import gmap strings list.

(** ** JavaScript built-ins used by the source *)

Module Js.

Local Open Scope R_scope.

(** [Math.round]: the nearest integer, halves towards plus infinity. *)
Definition Math_round (x : R) : R := IZR (Zfloor (x + / 2)).

(** [Math.max] of two numbers. *)
Definition Math_max (x y : R) : R := Rmax x y.

(** [Math.sqrt] on the non-negative numbers. *)
Definition Math_sqrt (x : R) : R := sqrt x.

(** [Math.atan2 (y, x)]: the angle of the point [(x, y)]. *)
Definition Math_atan2 (y x : R) : R :=
  if Rlt_dec 0 x then atan (y / x)
  else if Rlt_dec x 0 then
    (if Rle_dec 0 y then atan (y / x) + PI else atan (y / x) - PI)
  else if Rlt_dec 0 y then PI / 2
  else if Rlt_dec y 0 then - (PI / 2)
  else 0.

(** [distance < shortestDistance], where the right-hand side starts as
    [Infinity]. *)
Definition lt_inf (d : R) (shortest : option R) : bool :=
  match shortest with
  | None => true
  | Some s => if Rlt_dec d s then true else false
  end.

(** [for (let i = lo; i < hi; i++) s = body i s]. *)
Definition for_range {S : Type} (lo hi : nat) (body : nat -> S -> S) (s : S) : S :=
  fold_left (fun acc i => body i acc) (seq lo (hi - lo)) s.

(** A truthy string: defined and not empty. *)
Definition truthy (s : option string) : bool :=
  match s with
  | Some t => negb (String.eqb t "")
  | None => false
  end.

(** [a || b] on possibly undefined strings. *)
Definition or_else (a b : option string) : option string :=
  if truthy a then a else b.

End Js.

Import Js.

(** ** Data model *)

Record Stop := mkStop {
  latitude : R;
  longitude : R;
  address : string
}.

Record Waypoint := mkWaypoint {
  wp_latitude : R;
  wp_longitude : R;
  wp_address : string;
  estimatedArrival : R
}.

Record OptimizedRoute := mkOptimizedRoute {
  totalDistance : R;
  totalDuration : R;
  waypoints : list Waypoint;
  polyline : string
}.

Record Preferences := mkPreferences {
  avoidTolls : bool;
  avoidHighways : bool;
  optimizeFor : string
}.

(** The stop a waypoint was built from. *)
Definition stop_of (w : Waypoint) : Stop :=
  mkStop (wp_latitude w) (wp_longitude w) (wp_address w).

(** The waypoint literal [{latitude, longitude, address, estimatedArrival}]. *)
Definition waypoint_at (s : Stop) (eta : R) : Waypoint :=
  mkWaypoint (latitude s) (longitude s) (address s) eta.

(** ** Great-circle distance, shared by both services *)

Module GeoMath.

Local Open Scope R_scope.

Definition toRadians (degrees : R) : R := degrees * (PI / 180).

Definition calculateHaversineDistance (lat1 lon1 lat2 lon2 : R) : R :=
  let R := 6371000 in
  let dLat := toRadians (lat2 - lat1) in
  let dLon := toRadians (lon2 - lon1) in
  let a :=
    sin (dLat / 2) * sin (dLat / 2) +
    cos (toRadians lat1) * cos (toRadians lat2) *
    sin (dLon / 2) * sin (dLon / 2) in
  let c := 2 * Math_atan2 (Math_sqrt a) (Math_sqrt (1 - a)) in
  R * c.

(** The distance between two stops, as every call site computes it. *)
Definition stop_distance (s t : Stop) : R :=
  calculateHaversineDistance (latitude s) (longitude s) (latitude t) (longitude t).

End GeoMath.

Import GeoMath.

(** ** Errors and the provider's answer *)

Inductive Error :=
  | TypeError                                (* a property of [undefined] is read *)
  | RangeError                               (* [toISOString] of an invalid date *)
  | GoogleMapsApiError (status : string)     (* [Google Maps API error: <status>] *)
  | AxiosError (msg : string)                (* the HTTP call is rejected *)
  | PrismaError (msg : string)               (* a data base call is rejected *)
  | NotFoundException (msg : string)
  | UnauthorizedException (msg : string)
  | JsonWebTokenError (msg : string)
  | ValidationError (msg : string)           (* thrown by the validation pipe *)
  | PlainError (msg : string).               (* [new Error(msg)] *)

Record Leg := mkLeg {
  leg_distance : R;     (* [distance.value] *)
  leg_duration : R      (* [duration.value] *)
}.

Record ProviderRoute := mkProviderRoute {
  legs : list Leg;
  overview_polyline : string
}.

Record GoogleMapsRouteResponse := mkResponse {
  routes : list ProviderRoute;
  status : string
}.

(** ** GoogleMapsService: the sequencer, its fallback and the provider *)

Module GoogleMapsService.

Local Open Scope R_scope.

(** *** optimizeStopOrder *)

(** The inner [for] loop: the index of the first stop of [remainingStops]
    at minimal distance from [currentStop], with that distance. *)
Definition scan_body (currentStop : Stop) (remainingStops : list Stop)
    (i : nat) (st : nat * option R) : nat * option R :=
  let '(nearestStopIndex, shortestDistance) := st in
  match remainingStops !! i with
  | Some candidate =>
      let distance := stop_distance currentStop candidate in
      if lt_inf distance shortestDistance
      then (i, Some distance)
      else (nearestStopIndex, shortestDistance)
  | None => st
  end.

Definition nearest_scan (currentStop : Stop) (remainingStops : list Stop)
    : nat * option R :=
  for_range 0 (length remainingStops) (scan_body currentStop remainingStops)
    (0%nat, None).

(** The [while (remainingStops.length > 0)] loop.  [splice] removes the
    chosen element; [None] stands for a loop that is cut off by [fuel] or
    that reads an index out of range. *)
Fixpoint nearest_neighbor_loop (fuel : nat) (currentStop : Stop)
    (remainingStops optimizedStops : list Stop) : option (list Stop) :=
  match remainingStops with
  | [] => Some optimizedStops
  | _ :: _ =>
      match fuel with
      | O => None
      | S fuel' =>
          let nearestStopIndex := fst (nearest_scan currentStop remainingStops) in
          match remainingStops !! nearestStopIndex with
          | Some next =>
              nearest_neighbor_loop fuel' next
                (delete nearestStopIndex remainingStops)
                (optimizedStops ++ [next])
          | None => None
          end
      end
  end.

Definition optimizeStopOrder (stops : list Stop) : option (list Stop) :=
  if bool_decide (length stops <= 2)%nat then Some stops
  else
    match stops with
    | currentStop :: remainingStops =>
        nearest_neighbor_loop (length remainingStops) currentStop
          remainingStops [currentStop]
    | [] => None
    end.

(** *** getMockOptimizedRoute *)

Record MockState := mkMockState {
  ms_totalDistance : R;
  ms_totalDuration : R;
  ms_waypoints : list Waypoint
}.

(** One iteration of the loop over [optimizedStops].  The inner test on
    the dwell time repeats the outer test, as in the source. *)
Definition mock_body (currentTime : R) (optimizedStops : list Stop)
    (i : nat) (st : MockState) : MockState :=
  match optimizedStops !! i with
  | None => st
  | Some stop =>
      let st1 :=
        if bool_decide (i < length optimizedStops - 1)%nat then
          match optimizedStops !! (i + 1)%nat with
          | Some nextStop =>
              let distance := stop_distance stop nextStop in
              let totalDistance := ms_totalDistance st + distance in
              let travelTimeMinutes := Math_round ((distance / 1000) * 2) in
              let totalDuration := ms_totalDuration st + travelTimeMinutes in
              let totalDuration :=
                if bool_decide (i < length optimizedStops - 1)%nat
                then totalDuration + 5 else totalDuration in
              mkMockState totalDistance totalDuration (ms_waypoints st)
          | None => st
          end
        else st in
      let estimatedArrival := currentTime + ms_totalDuration st1 * 60000 in
      mkMockState (ms_totalDistance st1) (ms_totalDuration st1)
        (ms_waypoints st1 ++ [waypoint_at stop estimatedArrival])
  end.

Definition getMockOptimizedRoute (now : R) (stops : list Stop)
    : option OptimizedRoute :=
  if bool_decide (length stops < 2)%nat then
    Some (mkOptimizedRoute 0 0 (map (fun stop => waypoint_at stop now) stops) "")
  else
    match optimizeStopOrder stops with
    | None => None
    | Some optimizedStops =>
        let st :=
          for_range 0 (length optimizedStops) (mock_body now optimizedStops)
            (mkMockState 0 0 []) in
        Some (mkOptimizedRoute (Math_round (ms_totalDistance st))
                (ms_totalDuration st * 60) (ms_waypoints st) "")
    end.

(** *** optimizeRoute *)

(** [(route.legs[i]?.duration.value || 0)]. *)
Definition leg_duration_or_0 (route : ProviderRoute) (i : nat) : R :=
  match legs route !! i with
  | Some leg => leg_duration leg
  | None => 0
  end.

(** The arrival time of the stop at [index]: the durations of the legs
    before it are added to the current time. *)
Definition provider_eta (now : R) (route : ProviderRoute) (index : nat) : R :=
  for_range 0 index
    (fun i estimatedArrival => estimatedArrival + leg_duration_or_0 route i * 1000)
    now.

(** The provider-backed branch of [optimizeRoute]; its [catch] logs and
    rethrows, so errors pass through unchanged. *)
Definition optimizeRouteWithProvider (now : R)
    (response : Error + GoogleMapsRouteResponse) (stops : list Stop)
    : Error + OptimizedRoute :=
  match stops !! 0%nat, last stops with
  | Some _, Some _ =>
      match response with
      | inl e => inl e
      | inr data =>
          if negb (String.eqb (status data) "OK")
          then inl (GoogleMapsApiError (status data))
          else
            match routes data !! 0%nat with
            | None => inl TypeError
            | Some route =>
                let totalDistance :=
                  fold_left (fun sum leg => sum + leg_distance leg) (legs route) 0 / 1000 in
                let totalDuration :=
                  fold_left (fun sum leg => sum + leg_duration leg) (legs route) 0 in
                let waypointsWithArrival :=
                  imap (fun index stop => waypoint_at stop (provider_eta now route index))
                    stops in
                inr (mkOptimizedRoute totalDistance totalDuration
                       waypointsWithArrival (overview_polyline route))
            end
      end
  | _, _ => inl TypeError
  end.

(** [GoogleMapsService.optimizeRoute]: the fallback is used exactly when no
    API key is configured. *)
Definition optimizeRoute (apiKey : string) (now : R)
    (response : Error + GoogleMapsRouteResponse) (stops : list Stop)
    : Error + OptimizedRoute :=
  if String.eqb apiKey "" then
    match getMockOptimizedRoute now stops with
    | Some route => inr route
    | None => inl TypeError
    end
  else optimizeRouteWithProvider now response stops.

End GoogleMapsService.

(** ** RouteOptimizationService: the metrics calculator *)

Record Efficiency := mkEfficiency {
  timeImprovement : R;
  distanceImprovement : R;
  fuelEfficiency : R
}.

Record OptimizationMetrics := mkMetrics {
  timeSaved : R;
  distanceSaved : R;
  fuelSaved : R;
  co2Saved : R;
  costSaved : R;
  optimizationEfficiency : Efficiency
}.

Module Metrics.

Local Open Scope R_scope.

(** One iteration of the loop of [calculateOriginalRouteMetrics]; the
    state is [(totalDistance, totalDuration)]. *)
Definition original_body (stops : list Stop) (i : nat) (st : R * R) : R * R :=
  let '(totalDistance, totalDuration) := st in
  match stops !! i, stops !! (i + 1)%nat with
  | Some currentStop, Some nextStop =>
      let distance := stop_distance currentStop nextStop in
      let totalDistance := totalDistance + distance in
      let travelTimeMinutes := Math_round ((distance / 1000) * 2) in
      let totalDuration := totalDuration + travelTimeMinutes in
      let totalDuration :=
        if bool_decide (i < length stops - 2)%nat
        then totalDuration + 5 else totalDuration in
      (totalDistance, totalDuration)
  | _, _ => st
  end.

(** [calculateOriginalRouteMetrics]: [(totalDistance, totalDuration)]. *)
Definition calculateOriginalRouteMetrics (stops : list Stop) : R * R :=
  if bool_decide (length stops < 2)%nat then (0, 0)
  else
    let '(totalDistance, totalDuration) :=
      for_range 0 (length stops - 1) (original_body stops) (0, 0) in
    (Math_round totalDistance, totalDuration * 60).

Definition calculateOptimizationMetrics (optimizedRoute : OptimizedRoute)
    (originalStops : list Stop) : OptimizationMetrics :=
  let originalRouteMetrics := calculateOriginalRouteMetrics originalStops in
  let original_totalDistance := fst originalRouteMetrics in
  let original_totalDuration := snd originalRouteMetrics in
  let timeSavedSeconds :=
    Math_round (original_totalDuration - totalDuration optimizedRoute) in
  let distanceSavedMeters := original_totalDistance - totalDistance optimizedRoute in
  let distanceSavedKm := distanceSavedMeters / 1000 in
  let totalDistanceKm := totalDistance optimizedRoute / 1000 in
  let avgFuelConsumption := if Rlt_dec totalDistanceKm 50 then 10 else 7 in
  let fuelSavedLiters := (distanceSavedKm * avgFuelConsumption) / 100 in
  let co2SavedKg := fuelSavedLiters * (23 / 10) in
  let fuelCostPerLiter := 3 / 2 in
  let driverCostPerHour := 25 in
  let fuelCostSaved := fuelSavedLiters * fuelCostPerLiter in
  let driverTimeSavedHours := timeSavedSeconds / 3600 in
  let driverCostSaved := driverTimeSavedHours * driverCostPerHour in
  let totalCostSaved := fuelCostSaved + driverCostSaved in
  let timeImprovementPercent :=
    if Rlt_dec 0 original_totalDuration
    then ((original_totalDuration - totalDuration optimizedRoute)
          / original_totalDuration) * 100
    else 0 in
  let distanceImprovementPercent :=
    if Rlt_dec 0 original_totalDistance
    then ((original_totalDistance - totalDistance optimizedRoute)
          / original_totalDistance) * 100
    else 0 in
  mkMetrics
    (Math_max 0 timeSavedSeconds)
    (Math_max 0 (Math_round (distanceSavedKm * 1000) / 1000))
    (Math_max 0 (Math_round (fuelSavedLiters * 1000) / 1000))
    (Math_max 0 (Math_round (co2SavedKg * 1000) / 1000))
    (Math_max 0 (Math_round (totalCostSaved * 100) / 100))
    (mkEfficiency
       (Math_max 0 (Math_round timeImprovementPercent))
       (Math_max 0 (Math_round distanceImprovementPercent))
       (Math_max 0 (Math_round distanceImprovementPercent))).

End Metrics.

(** ** The fallback and the metrics in the arithmetic of the engine

    The engine computes in double precision.  [Math.sin], [Math.cos],
    [Math.sqrt] and [Math.atan2] are approximations that the implementation
    chooses and every operation rounds, so that the argument of a square
    root in [calculateHaversineDistance] can leave the interval from 0 to 1
    and the distance be [NaN].  Here the value that the engine computes for
    [calculateHaversineDistance] is a parameter, and [NaN] is followed
    through the code as the language defines it: it is contagious in
    arithmetic, every comparison with it is false, and the [toISOString] of
    a date made from it throws a [RangeError].  Sums and products of numbers
    are exact. *)

(** A number as the engine holds it. *)
Inductive JsNumber :=
  | Num (x : R)
  | NaN.

Record Engine := mkEngine {
  (** [calculateHaversineDistance (lat1, lon1, lat2, lon2)] as computed. *)
  haversine : R -> R -> R -> R -> JsNumber
}.

Record OptimizedRouteN := mkOptimizedRouteN {
  totalDistanceN : JsNumber;
  totalDurationN : JsNumber;
  waypointsN : list Waypoint;
  polylineN : string
}.

Record EfficiencyN := mkEfficiencyN {
  timeImprovementN : JsNumber;
  distanceImprovementN : JsNumber;
  fuelEfficiencyN : JsNumber
}.

Record OptimizationMetricsN := mkMetricsN {
  timeSavedN : JsNumber;
  distanceSavedN : JsNumber;
  fuelSavedN : JsNumber;
  co2SavedN : JsNumber;
  costSavedN : JsNumber;
  optimizationEfficiencyN : EfficiencyN
}.

Module Doubles.

Local Open Scope R_scope.

(** *** Numbers *)

Definition lift1 (f : R -> R) (a : JsNumber) : JsNumber :=
  match a with
  | Num x => Num (f x)
  | NaN => NaN
  end.

Definition lift2 (f : R -> R -> R) (a b : JsNumber) : JsNumber :=
  match a, b with
  | Num x, Num y => Num (f x y)
  | _, _ => NaN
  end.

Definition add : JsNumber -> JsNumber -> JsNumber := lift2 Rplus.
Definition sub : JsNumber -> JsNumber -> JsNumber := lift2 Rminus.
Definition mul : JsNumber -> JsNumber -> JsNumber := lift2 Rmult.

(** [a / b]; the divisors of the source are constants or are tested to be
    positive. *)
Definition div : JsNumber -> JsNumber -> JsNumber := lift2 Rdiv.

(** [a < b]. *)
Definition lt (a b : JsNumber) : bool :=
  match a, b with
  | Num x, Num y => if Rlt_dec x y then true else false
  | _, _ => false
  end.

(** [Math.round (NaN)] and [Math.max (0, NaN)] are [NaN]. *)
Definition Math_round : JsNumber -> JsNumber := lift1 Js.Math_round.
Definition Math_max : JsNumber -> JsNumber -> JsNumber := lift2 Js.Math_max.

(** [new Date (t).toISOString ()] throws a [RangeError] on an invalid date,
    which is what [new Date (NaN)] is.  The time values of the source are
    the clock plus the minutes of a route; they are taken to lie within the
    range of [Date], 8.64e15 ms on both sides of the epoch. *)
Definition toISOString (t : JsNumber) : Error + R :=
  match t with
  | Num x => inr x
  | NaN => inl RangeError
  end.

Definition stop_distance (e : Engine) (s t : Stop) : JsNumber :=
  haversine e (latitude s) (longitude s) (latitude t) (longitude t).

(** *** optimizeStopOrder *)

Definition scan_body (e : Engine) (currentStop : Stop) (remainingStops : list Stop)
    (i : nat) (st : nat * option R) : nat * option R :=
  let '(nearestStopIndex, shortestDistance) := st in
  match remainingStops !! i with
  | Some candidate =>
      match stop_distance e currentStop candidate with
      | Num distance =>
          if lt_inf distance shortestDistance
          then (i, Some distance)
          else (nearestStopIndex, shortestDistance)
      | NaN => (nearestStopIndex, shortestDistance)
      end
  | None => st
  end.

Definition nearest_scan (e : Engine) (currentStop : Stop) (remainingStops : list Stop)
    : nat * option R :=
  for_range 0 (length remainingStops) (scan_body e currentStop remainingStops)
    (0%nat, None).

Fixpoint nearest_neighbor_loop (e : Engine) (fuel : nat) (currentStop : Stop)
    (remainingStops optimizedStops : list Stop) : option (list Stop) :=
  match remainingStops with
  | [] => Some optimizedStops
  | _ :: _ =>
      match fuel with
      | O => None
      | S fuel' =>
          let nearestStopIndex := fst (nearest_scan e currentStop remainingStops) in
          match remainingStops !! nearestStopIndex with
          | Some next =>
              nearest_neighbor_loop e fuel' next
                (delete nearestStopIndex remainingStops)
                (optimizedStops ++ [next])
          | None => None
          end
      end
  end.

Definition optimizeStopOrder (e : Engine) (stops : list Stop) : option (list Stop) :=
  if bool_decide (length stops <= 2)%nat then Some stops
  else
    match stops with
    | currentStop :: remainingStops =>
        nearest_neighbor_loop e (length remainingStops) currentStop
          remainingStops [currentStop]
    | [] => None
    end.

(** *** getMockOptimizedRoute *)

Record MockState := mkMockState {
  ms_totalDistance : JsNumber;
  ms_totalDuration : JsNumber;
  ms_waypoints : list Waypoint
}.

(** One iteration of the loop over [optimizedStops]; an iteration that
    throws ends the loop. *)
Definition mock_body (e : Engine) (currentTime : R) (optimizedStops : list Stop)
    (i : nat) (st : Error + MockState) : Error + MockState :=
  match st with
  | inl error => inl error
  | inr st =>
      match optimizedStops !! i with
      | None => inr st
      | Some stop =>
          let st1 :=
            if bool_decide (i < length optimizedStops - 1)%nat then
              match optimizedStops !! (i + 1)%nat with
              | Some nextStop =>
                  let distance := stop_distance e stop nextStop in
                  let totalDistance := add (ms_totalDistance st) distance in
                  let travelTimeMinutes :=
                    Math_round (mul (div distance (Num 1000)) (Num 2)) in
                  let totalDuration := add (ms_totalDuration st) travelTimeMinutes in
                  let totalDuration :=
                    if bool_decide (i < length optimizedStops - 1)%nat
                    then add totalDuration (Num 5) else totalDuration in
                  mkMockState totalDistance totalDuration (ms_waypoints st)
              | None => st
              end
            else st in
          match toISOString (add (Num currentTime)
                               (mul (ms_totalDuration st1) (Num 60000))) with
          | inl error => inl error
          | inr estimatedArrival =>
              inr (mkMockState (ms_totalDistance st1) (ms_totalDuration st1)
                     (ms_waypoints st1 ++ [waypoint_at stop estimatedArrival]))
          end
      end
  end.

(** [None] stands for a sequencer that is cut off, as in [GoogleMapsService]. *)
Definition getMockOptimizedRoute (e : Engine) (now : R) (stops : list Stop)
    : option (Error + OptimizedRouteN) :=
  if bool_decide (length stops < 2)%nat then
    Some (inr (mkOptimizedRouteN (Num 0) (Num 0)
                 (map (fun stop => waypoint_at stop now) stops) ""))
  else
    match optimizeStopOrder e stops with
    | None => None
    | Some optimizedStops =>
        match for_range 0 (length optimizedStops) (mock_body e now optimizedStops)
                (inr (mkMockState (Num 0) (Num 0) [])) with
        | inl error => Some (inl error)
        | inr st =>
            Some (inr (mkOptimizedRouteN (Math_round (ms_totalDistance st))
                         (mul (ms_totalDuration st) (Num 60)) (ms_waypoints st) ""))
        end
    end.

(** *** The metrics calculator *)

Definition original_body (e : Engine) (stops : list Stop) (i : nat)
    (st : JsNumber * JsNumber) : JsNumber * JsNumber :=
  let '(totalDistance, totalDuration) := st in
  match stops !! i, stops !! (i + 1)%nat with
  | Some currentStop, Some nextStop =>
      let distance := stop_distance e currentStop nextStop in
      let totalDistance := add totalDistance distance in
      let travelTimeMinutes := Math_round (mul (div distance (Num 1000)) (Num 2)) in
      let totalDuration := add totalDuration travelTimeMinutes in
      let totalDuration :=
        if bool_decide (i < length stops - 2)%nat
        then add totalDuration (Num 5) else totalDuration in
      (totalDistance, totalDuration)
  | _, _ => st
  end.

Definition calculateOriginalRouteMetrics (e : Engine) (stops : list Stop)
    : JsNumber * JsNumber :=
  if bool_decide (length stops < 2)%nat then (Num 0, Num 0)
  else
    let '(totalDistance, totalDuration) :=
      for_range 0 (length stops - 1) (original_body e stops) (Num 0, Num 0) in
    (Math_round totalDistance, mul totalDuration (Num 60)).

Definition calculateOptimizationMetrics (e : Engine) (optimizedRoute : OptimizedRouteN)
    (originalStops : list Stop) : OptimizationMetricsN :=
  let originalRouteMetrics := calculateOriginalRouteMetrics e originalStops in
  let original_totalDistance := fst originalRouteMetrics in
  let original_totalDuration := snd originalRouteMetrics in
  let timeSavedSeconds :=
    Math_round (sub original_totalDuration (totalDurationN optimizedRoute)) in
  let distanceSavedMeters :=
    sub original_totalDistance (totalDistanceN optimizedRoute) in
  let distanceSavedKm := div distanceSavedMeters (Num 1000) in
  let totalDistanceKm := div (totalDistanceN optimizedRoute) (Num 1000) in
  let avgFuelConsumption := if lt totalDistanceKm (Num 50) then Num 10 else Num 7 in
  let fuelSavedLiters := div (mul distanceSavedKm avgFuelConsumption) (Num 100) in
  let co2SavedKg := mul fuelSavedLiters (Num (23 / 10)) in
  let fuelCostPerLiter := Num (3 / 2) in
  let driverCostPerHour := Num 25 in
  let fuelCostSaved := mul fuelSavedLiters fuelCostPerLiter in
  let driverTimeSavedHours := div timeSavedSeconds (Num 3600) in
  let driverCostSaved := mul driverTimeSavedHours driverCostPerHour in
  let totalCostSaved := add fuelCostSaved driverCostSaved in
  let timeImprovementPercent :=
    if lt (Num 0) original_totalDuration
    then mul (div (sub original_totalDuration (totalDurationN optimizedRoute))
                original_totalDuration) (Num 100)
    else Num 0 in
  let distanceImprovementPercent :=
    if lt (Num 0) original_totalDistance
    then mul (div (sub original_totalDistance (totalDistanceN optimizedRoute))
                original_totalDistance) (Num 100)
    else Num 0 in
  mkMetricsN
    (Math_max (Num 0) timeSavedSeconds)
    (Math_max (Num 0) (div (Math_round (mul distanceSavedKm (Num 1000))) (Num 1000)))
    (Math_max (Num 0) (div (Math_round (mul fuelSavedLiters (Num 1000))) (Num 1000)))
    (Math_max (Num 0) (div (Math_round (mul co2SavedKg (Num 1000))) (Num 1000)))
    (Math_max (Num 0) (div (Math_round (mul totalCostSaved (Num 100))) (Num 100)))
    (mkEfficiencyN
       (Math_max (Num 0) (Math_round timeImprovementPercent))
       (Math_max (Num 0) (Math_round distanceImprovementPercent))
       (Math_max (Num 0) (Math_round distanceImprovementPercent))).

End Doubles.

(** ** The persistent store, the bus and the socket rooms *)

Inductive RouteOptimizationStatus := PENDING | PROCESSING | COMPLETED | FAILED.

Record OptimizeRouteDto := mkDto {
  dto_vehicleId : string;
  dto_stops : list Stop;
  dto_preferences : Preferences
}.

Record RouteUpdateDto := mkUpdateDto {
  upd_reason : string;
  upd_currentLocation : R * R
}.

Record RequestRecord := mkRequest {
  rq_vehicleId : string;
  rq_userId : string;
  rq_stops : list Stop;
  rq_preferences : Preferences;
  rq_status : RouteOptimizationStatus;
  rq_completedAt : option R
}.

Record RouteRecord := mkRoute {
  rt_id : string;
  rt_requestId : string;
  rt_vehicleId : string;
  rt_totalDistance : R;
  rt_totalDuration : R;
  rt_waypoints : list Waypoint;
  rt_optimizationMetrics : OptimizationMetrics;
  rt_polyline : string
}.

Record RouteUpdateRecord := mkRouteUpdate {
  ru_routeId : string;
  ru_vehicleId : string;
  ru_updateReason : string;
  ru_newWaypoints : list Waypoint
}.

(** What has left the service: rows written, events published, room pushes.
    A call that is rejected leaves no entry. *)
Inductive Effect :=
  | RequestCreated (id : string) (st : RouteOptimizationStatus)
  | RequestUpdated (id : string) (st : RouteOptimizationStatus)
  | RouteCreated (requestId : string)
  | RouteUpdateCreated (routeId : string)
  | Published (topic eventType : string)
  | Broadcast (room event : string).

Record World := mkWorld {
  requests : gmap string RequestRecord;
  optimizedRoutes : list RouteRecord;
  routeUpdates : list RouteUpdateRecord;
  effects : list Effect
}.

(** Which of the external calls of one operation are rejected. *)
Record Outcomes := mkOutcomes {
  request_create_fault : option Error;
  provider_response : Error + GoogleMapsRouteResponse;
  route_create_fault : option Error;
  new_route_id : string;
  update_completed_fault : option Error;
  update_failed_fault : option Error;
  route_update_create_fault : option Error;
  publish_rejected : bool
}.

(** ** A state and exception monad for the asynchronous methods *)

Module Async.

Definition M (A : Type) : Type := World -> (Error + A) * World.

Definition ret {A} (a : A) : M A := fun w => (inr a, w).

Definition throw {A} (e : Error) : M A := fun w => (inl e, w).

Definition bind {A B} (m : M A) (k : A -> M B) : M B :=
  fun w =>
    match m w with
    | (inl e, w') => (inl e, w')
    | (inr a, w') => k a w'
    end.

(** [try { body } catch (error) { handler error }]. *)
Definition try_catch {A} (body : M A) (handler : Error -> M A) : M A :=
  fun w =>
    match body w with
    | (inl e, w') => handler e w'
    | (inr a, w') => (inr a, w')
    end.

Definition lift {A} (r : Error + A) : M A := fun w => (r, w).

(** A write to the tables of the store. *)
Definition write (f : World -> World) : M unit := fun w => (inr tt, f w).

Definition record (e : Effect) : M unit :=
  fun w => (inr tt,
            mkWorld (requests w) (optimizedRoutes w) (routeUpdates w)
              (effects w ++ [e])).

(** A call that the environment may reject. *)
Definition guard (fault : option Error) : M unit :=
  match fault with
  | Some e => throw e
  | None => ret tt
  end.

End Async.

Import Async.

#[global] Instance M_ret : MRet M := @ret.
#[global] Instance M_bind : MBind M := fun A B k m => bind m k.

(** ** Prisma calls *)

Module Prisma.

(** [routeOptimizationRequest.create]: the primary key must be new. *)
Definition request_create (fault : option Error) (id : string)
    (r : RequestRecord) : M unit :=
  fun w =>
    match requests w !! id with
    | Some _ => (inl (PrismaError "unique constraint"), w)
    | None =>
        (guard fault ;;
         write (fun w => mkWorld (<[id := r]> (requests w)) (optimizedRoutes w)
                           (routeUpdates w) (effects w)) ;;
         record (RequestCreated id (rq_status r))) w
    end.

(** [routeOptimizationRequest.update ({where: {id}, data: {status,
    completedAt}})]: the row must exist. *)
Definition request_update (fault : option Error) (id : string)
    (st : RouteOptimizationStatus) (completedAt : R) : M unit :=
  fun w =>
    match requests w !! id with
    | None => (inl (PrismaError "record to update not found"), w)
    | Some r =>
        (guard fault ;;
         write (fun w =>
                  mkWorld
                    (<[id := mkRequest (rq_vehicleId r) (rq_userId r) (rq_stops r)
                               (rq_preferences r) st (Some completedAt)]>
                       (requests w))
                    (optimizedRoutes w) (routeUpdates w) (effects w)) ;;
         record (RequestUpdated id st)) w
    end.

(** [optimizedRoute.create]: the request it belongs to must exist. *)
Definition route_create (fault : option Error) (r : RouteRecord) : M unit :=
  fun w =>
    match requests w !! rt_requestId r with
    | None => (inl (PrismaError "foreign key constraint"), w)
    | Some _ =>
        (guard fault ;;
         write (fun w => mkWorld (requests w) (optimizedRoutes w ++ [r])
                           (routeUpdates w) (effects w)) ;;
         record (RouteCreated (rt_requestId r))) w
    end.

(** [optimizedRoute.findFirst ({where: {id, vehicleId}})]. *)
Definition route_findFirst (routeId vehicleId : string) (w : World)
    : option RouteRecord :=
  find (fun r => String.eqb (rt_id r) routeId && String.eqb (rt_vehicleId r) vehicleId)
    (optimizedRoutes w).

(** [routeUpdate.create]. *)
Definition routeUpdate_create (fault : option Error) (u : RouteUpdateRecord)
    : M unit :=
  guard fault ;;
  write (fun w => mkWorld (requests w) (optimizedRoutes w) (routeUpdates w ++ [u])
                    (effects w)) ;;
  record (RouteUpdateCreated (ru_routeId u)).

End Prisma.

(** ** RouteOptimizationService: the request life cycle *)

Record OptimizedRouteResponse := mkRouteResponse {
  resp_requestId : string;
  resp_totalDistance : R;
  resp_totalDuration : R;
  resp_waypoints : list Waypoint;
  resp_optimizationMetrics : OptimizationMetrics
}.

Record UpdateResponse := mkUpdateResponse {
  ur_routeId : string;
  ur_vehicleId : string;
  ur_updateReason : string;
  ur_message : string
}.

Module RouteOptimizationService.

Import Prisma Metrics.

(** The three [publish...Event] methods: each calls
    [kafkaService.publishEvent (topic, event)], catches the rejection of the
    bus itself, and is not awaited by its caller. *)
Definition publishEvent (o : Outcomes) (topic eventType : string) : M unit :=
  if publish_rejected o then ret tt
  else record (Published topic eventType).

(** The gateway's [broadcast...] methods: [server.to (room).emit (event)]. *)
Definition broadcast (id event : string) : M unit :=
  record (Broadcast ("route:" +:+ id) event).

Definition optimizeRoute (o : Outcomes) (apiKey : string) (now : R)
    (requestId : string) (optimizeRouteDto : OptimizeRouteDto) (userId : string)
    : M OptimizedRouteResponse :=
  try_catch
    (Prisma.request_create (request_create_fault o) requestId
       (mkRequest (dto_vehicleId optimizeRouteDto) userId
          (dto_stops optimizeRouteDto) (dto_preferences optimizeRouteDto)
          PROCESSING None) ;;
     publishEvent o "route-optimization-events" "ROUTE_OPTIMIZATION_REQUESTED" ;;
     broadcast requestId "route_optimization_requested" ;;
     optimizedRoute ←
       lift (GoogleMapsService.optimizeRoute apiKey now (provider_response o)
               (dto_stops optimizeRouteDto));
     let optimizationMetrics :=
       calculateOptimizationMetrics optimizedRoute (dto_stops optimizeRouteDto) in
     Prisma.route_create (route_create_fault o)
       (mkRoute (new_route_id o) requestId (dto_vehicleId optimizeRouteDto)
          (totalDistance optimizedRoute) (totalDuration optimizedRoute)
          (waypoints optimizedRoute) optimizationMetrics
          (polyline optimizedRoute)) ;;
     Prisma.request_update (update_completed_fault o) requestId
       COMPLETED now ;;
     publishEvent o "route-optimization-events" "ROUTE_OPTIMIZED" ;;
     broadcast requestId "route_optimized" ;;
     ret (mkRouteResponse requestId (totalDistance optimizedRoute)
            (totalDuration optimizedRoute) (waypoints optimizedRoute)
            optimizationMetrics))
    (fun error =>
       Prisma.request_update (update_failed_fault o) requestId FAILED now ;;
       broadcast requestId "route_optimization_failed" ;;
       throw error).

Definition updateRoute (o : Outcomes) (routeId : string)
    (updateDto : RouteUpdateDto) (vehicleId : string) : M UpdateResponse :=
  fun w =>
    match route_findFirst routeId vehicleId w with
    | None =>
        (inl (NotFoundException
                ("Route " +:+ routeId +:+ " not found for vehicle " +:+ vehicleId)),
         w)
    | Some route =>
        try_catch
          (Prisma.routeUpdate_create (route_update_create_fault o)
             (mkRouteUpdate routeId vehicleId (upd_reason updateDto)
                (rt_waypoints route)) ;;
           publishEvent o "route-update-events" "ROUTE_UPDATE_REQUESTED" ;;
           broadcast routeId "route_update_requested" ;;
           ret (mkUpdateResponse routeId vehicleId (upd_reason updateDto)
                  "Route update recorded successfully"))
          (fun error => throw error) w
    end.

End RouteOptimizationService.

(** ** RouteOptimizationController: the HTTP entry point of a submission *)

Module RouteOptimizationController.

(** Modelled from the spec: [optimizeRouteSchema] belongs to the shared
    library [@yatms/common], which is not among the sources.  The
    specification calls an empty stop list invalid input; the required
    fields and the shape of a stop are those of the type [OptimizeRouteDto]. *)
Definition optimizeRouteSchema (body : OptimizeRouteDto) : bool :=
  negb (Nat.eqb (length (dto_stops body)) 0).

(** Modelled from the spec: the pipe [createZodValidationPipe], of the same
    library, rejects a body that the schema does not accept with a
    [ValidationError] before the handler runs.  The handler is the one of
    the source. *)
Definition optimizeRoute (o : Outcomes) (apiKey : string) (now : R)
    (requestId : string) (body : OptimizeRouteDto) (req_user : option string)
    : M OptimizedRouteResponse :=
  if negb (optimizeRouteSchema body) then throw (ValidationError "Validation failed")
  else
    if truthy req_user then
      match req_user with
      | Some userId =>
          RouteOptimizationService.optimizeRoute o apiKey now requestId body userId
      | None => throw (PlainError "User ID not found in request")
      end
    else throw (PlainError "User ID not found in request").

End RouteOptimizationController.

(** ** String methods used by the gateway *)

Module JsString.

Local Open Scope string_scope.

(** [s.split (sep)] for a separator of one character. *)
Fixpoint split_on (sep : ascii) (s : string) : list string :=
  match s with
  | EmptyString => [EmptyString]
  | String c rest =>
      if Ascii.eqb c sep then EmptyString :: split_on sep rest
      else
        match split_on sep rest with
        | piece :: pieces => String c piece :: pieces
        | [] => [String c EmptyString]
        end
  end.

(** The white space and line terminators that [trim] removes, among the
    code units 0 to 255 of a header: TAB, LF, VT, FF, CR, space and the
    no-break space U+00A0. *)
Definition is_whitespace (c : ascii) : bool :=
  let n := nat_of_ascii c in
  Nat.eqb n 32 || (Nat.leb 9 n && Nat.leb n 13) || Nat.eqb n 160.

Fixpoint trimStart (s : string) : string :=
  match s with
  | EmptyString => EmptyString
  | String c rest => if is_whitespace c then trimStart rest else s
  end.

Fixpoint trimEnd (s : string) : string :=
  match s with
  | EmptyString => EmptyString
  | String c rest =>
      let rest' := trimEnd rest in
      if is_whitespace c && String.eqb rest' EmptyString
      then EmptyString else String c rest'
  end.

Definition trim (s : string) : string := trimEnd (trimStart s).

Definition startsWith (s p : string) : bool := String.prefix p s.

(** [s.replace (pat, rep)] for a string pattern: the first occurrence. *)
Fixpoint replace_first (pat rep s : string) : string :=
  if String.prefix pat s
  then rep ++ String.substring (String.length pat)
                (String.length s - String.length pat) s
  else
    match s with
    | EmptyString => EmptyString
    | String c rest => String c (replace_first pat rep rest)
    end.

End JsString.

(** ** RouteOptimizationGateway *)

Record CustomJWTPayload := mkPayload {
  userId : string;
  email : string;
  roles : list string
}.

Record Handshake := mkHandshake {
  hs_cookie : option string;          (* [handshake.headers.cookie] *)
  hs_auth_token : option string;      (* [handshake.auth?.token] *)
  hs_authorization : option string    (* [handshake.headers?.authorization] *)
}.

Record Socket := mkSocket {
  socket_id : string;
  handshake : Handshake
}.

Inductive SocketAction :=
  | Disconnected (clientId : string)
  | Joined (clientId room : string)
  | Emitted (clientId event : string).

Record Gateway := mkGateway {
  connectedClients : gmap string CustomJWTPayload;
  actions : list SocketAction
}.

Record GatewayConfig := mkGatewayConfig {
  publicKey : string;
  issuer : string;
  (** [jwt.verify (token, publicKey, {algorithms: ['RS256'], issuer})] *)
  jwt_verify : string -> string -> string -> Error + CustomJWTPayload
}.

Module RouteOptimizationGateway.

Import JsString.
Local Open Scope string_scope.

(** The token of the [access_token] cookie, when the header has one. *)
Definition cookie_token (cookies : option string) : option string :=
  if truthy cookies then
    match cookies with
    | Some cookies =>
        let cookiePairs := split_on ";" cookies in
        match find (fun cookie => startsWith (trim cookie) "access_token=")
                cookiePairs with
        | Some accessTokenCookie => split_on "=" accessTokenCookie !! 1%nat
        | None => None
        end
    | None => None
    end
  else None.

(** Cookie first, then the [auth] object, then the [Authorization] header. *)
Definition extract_token (h : Handshake) : option string :=
  let token := cookie_token (hs_cookie h) in
  if negb (truthy token) then
    or_else (hs_auth_token h)
      (replace_first "Bearer " "" <$> hs_authorization h)
  else token.

Definition act (a : SocketAction) (g : Gateway) : Gateway :=
  mkGateway (connectedClients g) (actions g ++ [a]).

(** The body of the [try] block after a token has been found. *)
Definition verify_token (cfg : GatewayConfig) (token : string)
    : Error + CustomJWTPayload :=
  if String.eqb (publicKey cfg) ""
  then inl (UnauthorizedException "JWT configuration error")
  else jwt_verify cfg token (publicKey cfg) (issuer cfg).

Definition handleConnection (cfg : GatewayConfig) (client : Socket)
    (g : Gateway) : Gateway :=
  let token := extract_token (handshake client) in
  match token with
  | Some tok =>
      if negb (truthy token) then act (Disconnected (socket_id client)) g
      else
        match verify_token cfg tok with
        | inl error => act (Disconnected (socket_id client)) g
        | inr payload =>
            let g := mkGateway (<[socket_id client := payload]> (connectedClients g))
                       (actions g) in
            let g := act (Joined (socket_id client) ("user:" ++ userId payload)) g in
            act (Emitted (socket_id client) "connected") g
        end
  | None => act (Disconnected (socket_id client)) g
  end.

Definition handleDisconnect (client : Socket) (g : Gateway) : Gateway :=
  mkGateway (delete (socket_id client) (connectedClients g)) (actions g).

End RouteOptimizationGateway.

(** ** RouteOptimizationService: the read methods *)

(** A route with the [updates] that [include] adds to it. *)
Record RouteWithUpdates := mkRouteWithUpdates {
  rw_route : RouteRecord;
  rw_updates : list RouteUpdateRecord
}.

(** A request with its [optimizedRoutes]. *)
Record RequestWithRoutes := mkRequestWithRoutes {
  rr_request : RequestRecord;
  rr_optimizedRoutes : list RouteWithUpdates
}.

(** A route with its [request] and its latest [updates]. *)
Record TrackedRoute := mkTrackedRoute {
  tr_route : RouteRecord;
  tr_request : option RequestRecord;
  tr_updates : list RouteUpdateRecord
}.

Record RouteTracking := mkRouteTracking {
  trk_vehicleId : string;
  trk_activeRoutes : list TrackedRoute;
  trk_totalRoutes : nat
}.

Module ServiceReads.

(** The tables of the store keep their rows in the order of creation, which
    is the order of [createdAt]: [orderBy: {createdAt: 'desc'}] is the
    reversed table.  A query that the store rejects raises its error. *)

(** The update rows of a route, oldest first. *)
Definition updates_of (routeId : string) (w : World) : list RouteUpdateRecord :=
  List.filter (fun u => String.eqb (ru_routeId u) routeId) (routeUpdates w).

(** [getRouteStatus]: [findUnique] with the routes of the request and all
    their updates. *)
Definition getRouteStatus (fault : option Error) (requestId : string)
    : M RequestWithRoutes :=
  guard fault ;;
  ((fun w =>
    match requests w !! requestId with
    | None =>
        (inl (NotFoundException
                ("Route optimization request " +:+ requestId +:+ " not found")), w)
    | Some request =>
        (inr (mkRequestWithRoutes request
                (map (fun r => mkRouteWithUpdates r (updates_of (rt_id r) w))
                   (List.filter (fun r => String.eqb (rt_requestId r) requestId)
                      (optimizedRoutes w)))), w)
    end) : M RequestWithRoutes).

(** [getRouteTracking]: the five newest routes of the vehicle, each with
    its request and its ten newest updates. *)
Definition getRouteTracking (fault : option Error) (vehicleId : string)
    : M RouteTracking :=
  guard fault ;;
  ((fun w =>
    let activeRoutes :=
      map (fun r => mkTrackedRoute r (requests w !! rt_requestId r)
                      (take 10 (reverse (updates_of (rt_id r) w))))
        (take 5 (reverse (List.filter
                            (fun r => String.eqb (rt_vehicleId r) vehicleId)
                            (optimizedRoutes w)))) in
    (inr (mkRouteTracking vehicleId activeRoutes (length activeRoutes)), w))
   : M RouteTracking).

End ServiceReads.

(** ** RouteOptimizationGateway: the size of the registry *)

Module GatewayReads.

(** [getConnectedClientsCount]: [connectedClients.size]. *)
Definition getConnectedClientsCount (g : Gateway) : nat :=
  size (connectedClients g).

End GatewayReads.

Import ServiceReads GatewayReads.

(** * Specification-side definitions

    What the specification says in its own words, the closed forms of the
    loops, the observations made on a run and the invariants of the loops. *)

Import GoogleMapsService Metrics Prisma RouteOptimizationService.
Import JsString RouteOptimizationGateway.

(** ** Closed forms of the two duration estimates *)

Module Closed.

Local Open Scope R_scope.

(** The distance of the leg that leaves the stop at index [i]. *)
Definition leg_distance_at (stops : list Stop) (i : nat) : R :=
  match stops !! i, stops !! (i + 1)%nat with
  | Some s, Some t => stop_distance s t
  | _, _ => 0
  end.

(** Its travel time in minutes. *)
Definition leg_minutes_at (stops : list Stop) (i : nat) : R :=
  Math_round ((leg_distance_at stops i / 1000) * 2).

Fixpoint sum_upto (f : nat -> R) (k : nat) : R :=
  match k with
  | O => 0
  | S k' => sum_upto f k' + f k'
  end.

(** Minutes on the fallback's clock once the iteration for the stop before
    index [j] has run: the legs leaving the stops before [j], with five
    minutes for each of them. *)
Definition mock_minutes (stops : list Stop) (j : nat) : R :=
  let m := Nat.min j (length stops - 1) in
  sum_upto (leg_minutes_at stops) m + 5 * INR m.

(** Minutes of the baseline over its first [k] legs. *)
Definition original_minutes (stops : list Stop) (k : nat) : R :=
  sum_upto (leg_minutes_at stops) k + 5 * INR (Nat.min k (length stops - 2)).

End Closed.

Import Closed.

(** ** The sequencer as the specification words it *)

Module Spec.

Local Open Scope R_scope.

(** Among the unvisited stops, [x] has minimal distance to [current];
    the stops before it in input order are strictly farther, so that of
    several stops at the minimal distance the first is taken.  What is left
    keeps its order. *)
Inductive nearest_unvisited (current : Stop) : list Stop -> Stop -> list Stop -> Prop :=
  | nearest_intro before x after :
      (forall y, y ∈ before -> stop_distance current x < stop_distance current y) ->
      (forall y, y ∈ after -> stop_distance current x <= stop_distance current y) ->
      nearest_unvisited current (before ++ x :: after) x (before ++ after).

(** Repeat the selection from the stop just visited until no stop is
    left. *)
Inductive greedy_order : Stop -> list Stop -> list Stop -> Prop :=
  | greedy_done current : greedy_order current [] []
  | greedy_visit current unvisited next unvisited' order :
      nearest_unvisited current unvisited next unvisited' ->
      greedy_order next unvisited' order ->
      greedy_order current unvisited (next :: order).

(** Start at the first input stop. *)
Definition greedy_nearest_neighbor (stops order : list Stop) : Prop :=
  match stops with
  | first :: rest => exists tail, order = first :: tail /\ greedy_order first rest tail
  | [] => order = []
  end.

(** Step 4 of the fallback as the specification words it: the travel
    minutes of every leg and five minutes for every interior stop, in
    seconds. *)
Definition step4_duration_seconds (order : list Stop) : R :=
  (sum_upto (leg_minutes_at order) (length order - 1)
   + 5 * INR (length order - 2)) * 60.

End Spec.

Import Spec.

(** ** Loop invariants *)

Module Invariants.

Local Open Scope R_scope.

(** The scan has seen the first [k] stops: it holds the first of them at
    minimal distance. *)
Definition scan_inv (cur : Stop) (rem : list Stop) (k : nat) (st : nat * option R) : Prop :=
  match k with
  | O => st = (0%nat, None)
  | S _ =>
      exists x, rem !! fst st = Some x /\ snd st = Some (stop_distance cur x) /\
        (fst st < k)%nat /\
        (forall j y, rem !! j = Some y -> (j < fst st)%nat ->
                     stop_distance cur x < stop_distance cur y) /\
        (forall j y, rem !! j = Some y -> (fst st < j < k)%nat ->
                     stop_distance cur x <= stop_distance cur y)
  end.

(** The loop of the fallback after [k] iterations. *)
Definition mock_inv (now : R) (stops : list Stop) (k : nat) (st : MockState) : Prop :=
  ms_totalDistance st = sum_upto (leg_distance_at stops) (Nat.min k (length stops - 1)) /\
  ms_totalDuration st = mock_minutes stops k /\
  ms_waypoints st =
    imap (fun i s => waypoint_at s (now + mock_minutes stops (S i) * 60000)) (take k stops).

(** The loop of the baseline after [k] iterations. *)
Definition original_inv (stops : list Stop) (k : nat) (st : R * R) : Prop :=
  fst st = sum_upto (leg_distance_at stops) k /\
  snd st = original_minutes stops k.

End Invariants.

Import Invariants.

(** ** The sequencer and the legs of a route in the arithmetic of the engine *)

Module DoublesSpec.

Local Open Scope R_scope.

(** The engine computes no negative distance: a square root is not
    negative, nor is the arc tangent of two numbers that are not negative. *)
Definition sound (e : Engine) : Prop :=
  forall lat1 lon1 lat2 lon2 d, haversine e lat1 lon1 lat2 lon2 = Num d -> 0 <= d.

(** [d] is [NaN], or [x] is less than [d]: strictly, or not. *)
Definition nearer (strictly : bool) (x : R) (d : JsNumber) : Prop :=
  match d with
  | Num y => if strictly then x < y else x <= y
  | NaN => True
  end.

(** The selection of the specification on the distances that the engine
    computes: the first stop at minimal distance among the stops whose
    distance is a number; when no distance is a number, the first stop. *)
Inductive nearest_unvisited (e : Engine) (current : Stop)
    : list Stop -> Stop -> list Stop -> Prop :=
  | nearest_number before next after x :
      Doubles.stop_distance e current next = Num x ->
      (forall y, y ∈ before -> nearer true x (Doubles.stop_distance e current y)) ->
      (forall y, y ∈ after -> nearer false x (Doubles.stop_distance e current y)) ->
      nearest_unvisited e current (before ++ next :: after) next (before ++ after)
  | nearest_no_number next after :
      (forall y, y ∈ next :: after -> Doubles.stop_distance e current y = NaN) ->
      nearest_unvisited e current (next :: after) next after.

Inductive greedy_order (e : Engine) : Stop -> list Stop -> list Stop -> Prop :=
  | greedy_done current : greedy_order e current [] []
  | greedy_visit current unvisited next unvisited' order :
      nearest_unvisited e current unvisited next unvisited' ->
      greedy_order e next unvisited' order ->
      greedy_order e current unvisited (next :: order).

Definition greedy_nearest_neighbor (e : Engine) (stops order : list Stop) : Prop :=
  match stops with
  | first :: rest =>
      exists tail, order = first :: tail /\ greedy_order e first rest tail
  | [] => order = []
  end.

(** The engine of exact arithmetic, which computes the distance of
    [GeoMath]. *)
Definition exact : Engine :=
  mkEngine (fun lat1 lon1 lat2 lon2 =>
              Num (calculateHaversineDistance lat1 lon1 lat2 lon2)).

(** A route whose totals are numbers. *)
Definition route_of_numbers (r : OptimizedRoute) : OptimizedRouteN :=
  mkOptimizedRouteN (Num (totalDistance r)) (Num (totalDuration r))
    (waypoints r) (polyline r).

(** Metrics whose fields are numbers. *)
Definition metrics_of_numbers (m : OptimizationMetrics) : OptimizationMetricsN :=
  mkMetricsN (Num (timeSaved m)) (Num (distanceSaved m)) (Num (fuelSaved m))
    (Num (co2Saved m)) (Num (costSaved m))
    (mkEfficiencyN (Num (timeImprovement (optimizationEfficiency m)))
       (Num (distanceImprovement (optimizationEfficiency m)))
       (Num (fuelEfficiency (optimizationEfficiency m)))).

(** The distance of the leg that leaves the stop at index [i] is [NaN]. *)
Definition NaN_leg (e : Engine) (stops : list Stop) (i : nat) : Prop :=
  exists s t, stops !! i = Some s /\ stops !! (i + 1)%nat = Some t /\
              Doubles.stop_distance e s t = NaN.

(** A number that is not negative. *)
Definition not_negative (a : JsNumber) : Prop :=
  exists x, a = Num x /\ 0 <= x.

(** The scan has seen the first [k] stops: it holds the first of them at
    minimal distance among those whose distance is a number. *)
Definition scan_inv (e : Engine) (cur : Stop) (rem : list Stop) (k : nat)
    (st : nat * option R) : Prop :=
  (st = (0%nat, None) /\
   forall j y, (j < k)%nat -> rem !! j = Some y -> Doubles.stop_distance e cur y = NaN)
  \/
  (exists x d,
     rem !! fst st = Some x /\ Doubles.stop_distance e cur x = Num d /\
     snd st = Some d /\ (fst st < k)%nat /\
     (forall j y, rem !! j = Some y -> (j < fst st)%nat ->
                  nearer true d (Doubles.stop_distance e cur y)) /\
     (forall j y, rem !! j = Some y -> (fst st < j < k)%nat ->
                  nearer false d (Doubles.stop_distance e cur y))).

(** The loop of the fallback after [k] iterations: it has thrown when a
    leg among those it has met has the distance [NaN]. *)
Definition mock_inv (e : Engine) (stops : list Stop) (k : nat)
    (st : Error + Doubles.MockState) : Prop :=
  match st with
  | inl error =>
      error = RangeError /\
      exists i, (i < Nat.min k (length stops - 1))%nat /\ NaN_leg e stops i
  | inr st =>
      (forall i, (i < Nat.min k (length stops - 1))%nat -> ~ NaN_leg e stops i) /\
      not_negative (Doubles.ms_totalDistance st) /\
      not_negative (Doubles.ms_totalDuration st) /\
      map stop_of (Doubles.ms_waypoints st) = take k stops
  end.

(** The loop of the baseline after [k] iterations. *)
Definition original_inv (e : Engine) (stops : list Stop) (k : nat)
    (st : JsNumber * JsNumber) : Prop :=
  (not_negative (fst st) /\ not_negative (snd st) /\
   forall i, (i < k)%nat -> ~ NaN_leg e stops i)
  \/
  (st = (NaN, NaN) /\ exists i, (i < k)%nat /\ NaN_leg e stops i).

End DoublesSpec.

(** ** Observations on a run of the service *)

Module Observe.

(** The status that an effect persists for the request [id]. *)
Definition status_of_effect (id : string) (e : Effect)
    : option RouteOptimizationStatus :=
  match e with
  | RequestCreated id' st | RequestUpdated id' st =>
      if String.eqb id' id then Some st else None
  | _ => None
  end.

(** The statuses persisted for [id], in order. *)
Definition status_sequence (id : string) (es : list Effect)
    : list RouteOptimizationStatus :=
  omap (status_of_effect id) es.

(** The stored routes of the request [id]. *)
Definition routes_of (id : string) (w : World) : list RouteRecord :=
  List.filter (fun r => String.eqb (rt_requestId r) id) (optimizedRoutes w).

Definition persisted_status (id : string) (w : World)
    : option RouteOptimizationStatus :=
  rq_status <$> requests w !! id.

Definition persisted_completedAt (id : string) (w : World) : option R :=
  requests w !! id ≫= rq_completedAt.

(** The rooms to which [event] has been pushed. *)
Definition pushes (event : string) (es : list Effect) : list string :=
  omap (fun e => match e with
                 | Broadcast room ev => if String.eqb ev event then Some room else None
                 | _ => None
                 end) es.

(** Nothing in [w] mentions the request [id] yet. *)
Definition fresh (id : string) (w : World) : Prop :=
  requests w !! id = None /\ routes_of id w = [] /\ status_sequence id (effects w) = [].


End Observe.

Import Observe.

(** ** Observations on the gateway *)

Module GatewaySpec.

(** No token in the [access_token] cookie, in the [auth] object of the
    handshake or in the [Authorization] header. *)
Definition presents_no_token (h : Handshake) : Prop :=
  truthy (cookie_token (hs_cookie h)) = false /\
  truthy (hs_auth_token h) = false /\
  truthy (replace_first "Bearer " "" <$> hs_authorization h) = false.

(** The token that [handleConnection] found passes [jwt.verify] with the
    configured key and issuer. *)
Definition passes_verification (cfg : GatewayConfig) (h : Handshake)
    (payload : CustomJWTPayload) : Prop :=
  exists token,
    extract_token h = Some token /\ truthy (Some token) = true /\
    verify_token cfg token = inr payload.

(** The rooms that the socket [clientId] has joined. *)
Definition rooms_joined (clientId : string) (acts : list SocketAction) : list string :=
  omap (fun a => match a with
                 | Joined c room => if String.eqb c clientId then Some room else None
                 | _ => None
                 end) acts.

End GatewaySpec.

Import GatewaySpec.

(** ** Concrete inputs *)

Module Examples.

Local Open Scope R_scope.

(** Three stops in New York; the first two are the example of the
    specification. *)
Definition stopA : Stop := mkStop (407128 / 10000) (- (740060 / 10000)) "A".
Definition stopB : Stop := mkStop (407589 / 10000) (- (739851 / 10000)) "B".
Definition stopC : Stop := mkStop (407306 / 10000) (- (739352 / 10000)) "C".

Definition empty_world : World := mkWorld ∅ [] [] [].

Definition no_preferences : Preferences := mkPreferences false false "time".

Definition dto_one_stop : OptimizeRouteDto := mkDto "vehicle-1" [stopA] no_preferences.

Definition dto_no_stops : OptimizeRouteDto := mkDto "vehicle-1" [] no_preferences.

(** The store accepts every write and the bus every event. *)
Definition all_accepted : Outcomes :=
  mkOutcomes None (inl (AxiosError "not called")) None "route-1" None None None false.


(** The provider times out; the store accepts every write. *)
Definition provider_timeout : Outcomes :=
  mkOutcomes None (inl (AxiosError "timeout")) None "route-1" None None None false.

(** The route is stored, the COMPLETED update is rejected. *)
Definition completed_update_rejected : Outcomes :=
  mkOutcomes None (inl (AxiosError "not called")) None "route-1"
    (Some (PrismaError "connection lost")) None None false.

(** A store that holds one completed request and its route, of vehicle
    [vehicle-1]. *)
Definition world_with_route : World :=
  mkWorld
    (<["req-1"%string :=
         mkRequest "vehicle-1" "user-1" [stopA] no_preferences COMPLETED (Some 0)]> ∅)
    [mkRoute "route-1" "req-1" "vehicle-1" 0 0 [waypoint_at stopA 0]
       (mkMetrics 0 0 0 0 0 (mkEfficiency 0 0 0)) ""]
    [] [].

Definition emergency_update : RouteUpdateDto := mkUpdateDto "EMERGENCY" (0, 0).

(** A verifier that knows one token. *)
Definition driver_payload : CustomJWTPayload :=
  mkPayload "u1" "u1@example.org" ["driver"%string].

Definition one_token_config : GatewayConfig :=
  mkGatewayConfig "PEM" "yatms-user-service-dev"
    (fun token _ _ =>
       if String.eqb token "good" then inr driver_payload
       else inl (JsonWebTokenError "invalid signature")).

Definition anonymous_socket : Socket := mkSocket "s1" (mkHandshake None None None).

Definition cookie_socket : Socket :=
  mkSocket "s2" (mkHandshake (Some "theme=dark; access_token=good"%string) None None).

Definition empty_gateway : Gateway := mkGateway ∅ [].

End Examples.

Import Examples.

(** ** More concrete inputs *)

Module MoreExamples.

Local Open Scope R_scope.

(** The answer of the provider for two stops: one route of one leg. *)
Definition one_leg_response : GoogleMapsRouteResponse :=
  mkResponse [mkProviderRoute [mkLeg 5800 900] "polyline"] "OK".

(** The route of the fallback for [stopA] and [stopB] at time 0. *)
Definition fallback_route_A_B : OptimizedRoute :=
  mkOptimizedRoute 5420 960
    [waypoint_at stopA (0 + 960000); waypoint_at stopB (0 + 960000)] "".

(** A submission of vehicle [vehicle-1] with the two stops of the example. *)
Definition dto_two_stops : OptimizeRouteDto :=
  mkDto "vehicle-1" [stopA; stopB] no_preferences.

(** Three stops on the equator, the second one the farthest from the
    first. *)
Definition stopE0 : Stop := mkStop 0 0 "E0".
Definition stopE3 : Stop := mkStop 0 3 "E3".
Definition stopE1 : Stop := mkStop 0 1 "E1".

(** Two stops that are nearly antipodes, and a third one. *)
Definition stopS : Stop := mkStop (- 82) (- 179) "S".
Definition stopT : Stop := mkStop 82 1 "T".
Definition stopX : Stop := mkStop 0 0 "X".

Definition at_stop (lat lon : R) (s : Stop) : bool :=
  (if Req_dec_T lat (latitude s) then true else false)
  && (if Req_dec_T lon (longitude s) then true else false).

(** An engine for which the distance between [stopS] and [stopT] is [NaN],
    as it is in double precision, where the argument of the square root is
    1.0000000000000002; every other distance is the exact one. *)
Definition NaN_between_S_and_T : Engine :=
  mkEngine (fun lat1 lon1 lat2 lon2 =>
              if (at_stop lat1 lon1 stopS && at_stop lat2 lon2 stopT)
                 || (at_stop lat1 lon1 stopT && at_stop lat2 lon2 stopS)
              then NaN
              else Num (calculateHaversineDistance lat1 lon1 lat2 lon2)).

End MoreExamples.

(** ** The [Cookie] header *)

Module CookieSpec.

Local Open Scope string_scope.

(** No character of [s] satisfies [p]. *)
Fixpoint free_of (p : ascii -> bool) (s : string) : bool :=
  match s with
  | EmptyString => true
  | String c rest => negb (p c) && free_of p rest
  end.

(** A cookie is a name and a value.  A name has no [;], no [=] and no white
    space; a value has no [;]. *)
Definition well_formed_cookie (c : string * string) : bool :=
  free_of (fun a => Ascii.eqb a ";" || Ascii.eqb a "=" || is_whitespace a) (fst c)
  && free_of (fun a => Ascii.eqb a ";") (snd c).

(** The [Cookie] header that a browser sends for a list of cookies. *)
Definition cookie_header (cookies : list (string * string)) : string :=
  String.concat "; " (map (fun c => fst c +:+ "=" +:+ snd c) cookies).

(** A cookie as it stands between two [;] of the header, after [pre]. *)
Definition cookie_piece (pre : string) (c : string * string) : string :=
  pre +:+ fst c +:+ String "=" (snd c).

(** The value of a cookie up to its first [=]. *)
Definition value_up_to_equals (c : string * string) : option string :=
  split_on "=" (snd c) !! 0%nat.

(** [s] without the first occurrence of [pat], at the index that
    [String.index] finds; [s] itself when [pat] does not occur in it. *)
Definition without_first (pat s : string) : string :=
  match String.index 0 pat s with
  | Some i =>
      String.substring 0 i s
      +:+ String.substring (i + String.length pat)
            (String.length s - (i + String.length pat)) s
  | None => s
  end.

End CookieSpec.

Import MoreExamples CookieSpec.

(** * Properties *)

(** ** Loops *)

Lemma for_range_empty {S : Type} (lo hi : nat) (body : nat -> S -> S) (s : S) :
  (hi <= lo)%nat -> for_range lo hi body s = s.
Proof.
  intros H. unfold for_range. replace (hi - lo)%nat with 0%nat by lia. reflexivity.
Qed.

Lemma for_range_snoc {S : Type} (lo hi : nat) (body : nat -> S -> S) (s : S) :
  (lo <= hi)%nat ->
  for_range lo (Datatypes.S hi) body s = body hi (for_range lo hi body s).
Proof.
  intros H. unfold for_range.
  replace (Datatypes.S hi - lo)%nat with (Datatypes.S (hi - lo)) by lia.
  rewrite seq_S, fold_left_app. simpl.
  replace (lo + (hi - lo))%nat with hi by lia. reflexivity.
Qed.

Lemma for_range_ind {S : Type} (P : nat -> S -> Prop) (lo hi : nat)
    (body : nat -> S -> S) (s : S) :
  (lo <= hi)%nat ->
  P lo s ->
  (forall i st, (lo <= i < hi)%nat -> P i st -> P (Datatypes.S i) (body i st)) ->
  P hi (for_range lo hi body s).
Proof.
  intros Hle H0 Hstep.
  induction hi as [|hi IH].
  - assert (lo = 0)%nat by lia. subst. rewrite for_range_empty by lia. exact H0.
  - destruct (decide (lo = Datatypes.S hi)) as [->|Hne].
    + rewrite for_range_empty by lia. exact H0.
    + rewrite for_range_snoc by lia. apply Hstep; [lia|].
      apply IH; [lia|]. intros i st Hi. apply Hstep. lia.
Qed.

Open Scope R_scope.

(** ** Numbers *)

Lemma Math_round_nonneg x : 0 <= x -> 0 <= Math_round x.
Proof.
  intros Hx. unfold Math_round. apply IZR_le.
  apply Zfloor_lub. simpl. lra.
Qed.

Lemma Math_round_IZR z : Math_round (IZR z) = IZR z.
Proof.
  unfold Math_round. f_equal. apply Zfloor_eq. lra.
Qed.

Lemma Math_max_0_nonneg x : 0 <= Math_max 0 x.
Proof. unfold Math_max. apply Rmax_l. Qed.

Lemma Math_atan2_nonneg y x : 0 <= y -> 0 <= x -> 0 <= Math_atan2 y x.
Proof.
  intros Hy Hx. unfold Math_atan2.
  destruct (Rlt_dec 0 x) as [Hpos|Hnpos].
  - destruct (Req_dec y 0) as [->|Hy0].
    + unfold Rdiv. rewrite Rmult_0_l, atan_0. lra.
    + left. rewrite <- atan_0. apply atan_increasing.
      apply Rdiv_lt_0_compat; lra.
  - destruct (Rlt_dec x 0); [lra|].
    destruct (Rlt_dec 0 y).
    + pose proof PI2_RGT_0. lra.
    + destruct (Rlt_dec y 0); lra.
Qed.

Lemma calculateHaversineDistance_nonneg lat1 lon1 lat2 lon2 :
  0 <= calculateHaversineDistance lat1 lon1 lat2 lon2.
Proof.
  unfold calculateHaversineDistance. cbv zeta.
  apply Rmult_le_pos; [lra|]. apply Rmult_le_pos; [lra|].
  apply Math_atan2_nonneg; apply sqrt_pos.
Qed.

Lemma stop_distance_nonneg s t : 0 <= stop_distance s t.
Proof. apply calculateHaversineDistance_nonneg. Qed.

(** The argument of the two square roots lies between 0 and 1, so
    [Math.sqrt] is never applied to a negative number. *)
Lemma haversine_a_range p q v :
  0 <= sin ((q - p) / 2) * sin ((q - p) / 2) + cos p * cos q * sin v * sin v <= 1.
Proof.
  pose proof (sin2_cos2 ((q - p) / 2)) as Hu. unfold Rsqr in Hu.
  pose proof (sin2_cos2 v) as Hv. unfold Rsqr in Hv.
  pose proof (cos_minus q p) as Hm.
  pose proof (cos_plus q p) as Hp.
  pose proof (COS_bound (q - p)) as [Hc1 Hc2].
  pose proof (COS_bound (q + p)) as [Hd1 Hd2].
  assert (H2u : cos (q - p) = 1 - 2 * (sin ((q - p) / 2) * sin ((q - p) / 2))).
  { replace (q - p) with (2 * ((q - p) / 2)) at 1 by lra. rewrite cos_2a_sin. ring. }
  set (s := sin v * sin v) in *.
  assert (Hs : 0 <= s <= 1).
  { split; [apply Rle_0_sqr|]. pose proof (Rle_0_sqr (cos v)) as Hc. unfold Rsqr in Hc. lra. }
  assert (Hcc : cos p * cos q = (cos (q - p) + cos (q + p)) / 2) by lra.
  replace (cos p * cos q * sin v * sin v) with (cos p * cos q * s) by (unfold s; ring).
  rewrite Hcc.
  set (C := cos (q - p)) in *. set (D := cos (q + p)) in *.
  assert (Hsq : sin ((q - p) / 2) * sin ((q - p) / 2) = (1 - C) / 2) by lra.
  rewrite Hsq.
  split; nra.
Qed.

Lemma calculateHaversineDistance_sqrt_domain lat1 lon1 lat2 lon2 :
  let a :=
    sin (toRadians (lat2 - lat1) / 2) * sin (toRadians (lat2 - lat1) / 2) +
    cos (toRadians lat1) * cos (toRadians lat2) *
    sin (toRadians (lon2 - lon1) / 2) * sin (toRadians (lon2 - lon1) / 2) in
  0 <= a /\ 0 <= 1 - a.
Proof.
  cbv zeta.
  replace (toRadians (lat2 - lat1)) with (toRadians lat2 - toRadians lat1)
    by (unfold toRadians; ring).
  pose proof (haversine_a_range (toRadians lat1) (toRadians lat2)
                (toRadians (lon2 - lon1) / 2)) as [H0 H1].
  split; lra.
Qed.

(** The distance is symmetric and vanishes between a point and itself. *)
Lemma calculateHaversineDistance_sym lat1 lon1 lat2 lon2 :
  calculateHaversineDistance lat1 lon1 lat2 lon2 =
  calculateHaversineDistance lat2 lon2 lat1 lon1.
Proof.
  unfold calculateHaversineDistance, toRadians. cbv zeta.
  replace ((lat1 - lat2) * (PI / 180) / 2) with (- ((lat2 - lat1) * (PI / 180) / 2)) by lra.
  replace ((lon1 - lon2) * (PI / 180) / 2) with (- ((lon2 - lon1) * (PI / 180) / 2)) by lra.
  rewrite !sin_neg.
  set (u := sin ((lat2 - lat1) * (PI / 180) / 2)).
  set (v := sin ((lon2 - lon1) * (PI / 180) / 2)).
  set (c1 := cos (lat1 * (PI / 180))). set (c2 := cos (lat2 * (PI / 180))).
  replace (- u * - u + c2 * c1 * - v * - v) with (u * u + c1 * c2 * v * v) by ring.
  reflexivity.
Qed.

Lemma calculateHaversineDistance_same lat lon :
  calculateHaversineDistance lat lon lat lon = 0.
Proof.
  unfold calculateHaversineDistance, toRadians. cbv zeta.
  replace ((lat - lat) * (PI / 180) / 2) with 0 by lra.
  replace ((lon - lon) * (PI / 180) / 2) with 0 by lra.
  rewrite sin_0.
  replace (0 * 0 + cos (lat * (PI / 180)) * cos (lat * (PI / 180)) * 0 * 0) with 0 by ring.
  unfold Math_sqrt. rewrite sqrt_0. replace (1 - 0) with 1 by lra. rewrite sqrt_1.
  unfold Math_atan2. destruct (Rlt_dec 0 1); [|lra].
  unfold Rdiv. rewrite Rmult_0_l, atan_0. ring.
Qed.

Lemma stop_of_waypoint_at s eta : stop_of (waypoint_at s eta) = s.
Proof. destruct s. reflexivity. Qed.

(** ** The scan for the nearest stop *)

Lemma scan_body_inv cur rem i st :
  (i < length rem)%nat -> scan_inv cur rem i st -> scan_inv cur rem (S i) (scan_body cur rem i st).
Proof.
  intros Hi Hinv. destruct (lookup_lt_is_Some_2 rem i Hi) as [c Hc].
  unfold scan_body. destruct st as [idx sd]. rewrite Hc.
  destruct i as [|i].
  - simpl in Hinv. injection Hinv as -> ->. simpl.
    exists c. simpl. repeat split; auto; intros; lia.
  - destruct Hinv as (x & Hx & Hsd & Hlt & Hbefore & Hafter). simpl in *. subst sd.
    simpl. destruct (Rlt_dec (stop_distance cur c) (stop_distance cur x)) as [Hless|Hge].
    + exists c. simpl. repeat split; auto; try lia.
      intros j y Hj Hji.
      destruct (decide (j < idx)%nat).
      * specialize (Hbefore j y Hj ltac:(lia)). lra.
      * destruct (decide (j = idx)) as [->|].
        -- rewrite Hx in Hj. injection Hj as <-. exact Hless.
        -- specialize (Hafter j y Hj ltac:(lia)). lra.
    + exists x. simpl. repeat split; auto; try lia.
      intros j y Hj Hji.
      destruct (decide (j = S i)) as [->|].
      * rewrite Hc in Hj. injection Hj as <-. lra.
      * apply (Hafter j y Hj). lia.
Qed.

Lemma nearest_scan_spec cur rem :
  rem <> [] ->
  exists before x after,
    rem = before ++ x :: after /\
    fst (nearest_scan cur rem) = length before /\
    (forall y, y ∈ before -> stop_distance cur x < stop_distance cur y) /\
    (forall y, y ∈ after -> stop_distance cur x <= stop_distance cur y).
Proof.
  intros Hne.
  assert (Hinv : scan_inv cur rem (length rem) (nearest_scan cur rem)).
  { unfold nearest_scan. apply for_range_ind; [lia|reflexivity|].
    intros i st Hi. apply scan_body_inv. lia. }
  destruct rem as [|r0 rem']; [congruence|].
  set (rem := r0 :: rem') in *.
  change (length rem) with (S (length rem')) in Hinv. cbn [scan_inv] in Hinv.
  destruct Hinv as (x & Hx & _ & Hlt & Hbefore & Hafter).
  set (idx := fst (nearest_scan cur rem)) in *.
  exists (take idx rem), x, (drop (S idx) rem).
  split; [symmetry; apply take_drop_middle; exact Hx|].
  split; [rewrite length_take; change (length rem) with (S (length rem')); lia|].
  split.
  - intros y Hy. apply list_elem_of_lookup in Hy as [j Hj].
    pose proof (lookup_lt_Some _ _ _ Hj) as Hjl. rewrite length_take in Hjl.
    rewrite lookup_take_lt in Hj by lia. apply (Hbefore j y Hj). lia.
  - intros y Hy. apply list_elem_of_lookup in Hy as [j Hj].
    rewrite lookup_drop in Hj.
    pose proof (lookup_lt_Some _ _ _ Hj) as Hjl. change (length rem) with (S (length rem')) in Hjl.
    apply (Hafter _ y Hj). lia.
Qed.

Lemma nearest_scan_step cur rem :
  rem <> [] ->
  exists x rem',
    rem !! fst (nearest_scan cur rem) = Some x /\
    delete (fst (nearest_scan cur rem)) rem = rem' /\
    nearest_unvisited cur rem x rem'.
Proof.
  intros Hne. destruct (nearest_scan_spec cur rem Hne) as (before & x & after & Heq & Hidx & Hb & Ha).
  exists x, (before ++ after). rewrite Hidx. subst rem.
  split; [apply list_lookup_middle; reflexivity|].
  split.
  - rewrite delete_middle. reflexivity.
  - constructor; assumption.
Qed.

(** ** The nearest-neighbour loop *)

Lemma nearest_unvisited_perm cur rem x rem' :
  nearest_unvisited cur rem x rem' -> rem ≡ₚ x :: rem'.
Proof.
  intros H. destruct H. symmetry. apply Permutation_middle.
Qed.

Lemma nearest_neighbor_loop_spec fuel cur rem opt :
  (length rem <= fuel)%nat ->
  exists order,
    nearest_neighbor_loop fuel cur rem opt = Some (opt ++ order) /\
    greedy_order cur rem order.
Proof.
  revert cur rem opt. induction fuel as [|fuel IH]; intros cur rem opt Hlen.
  - destruct rem; [|simpl in Hlen; lia]. exists []. rewrite app_nil_r. split; [reflexivity|constructor].
  - destruct rem as [|r0 rem0].
    + exists []. rewrite app_nil_r. split; [reflexivity|constructor].
    + set (rem := r0 :: rem0) in *.
      destruct (nearest_scan_step cur rem ltac:(discriminate)) as (x & rem' & Hx & Hdel & Hnear).
      assert (Hlen' : (length rem' <= fuel)%nat).
      { pose proof (Permutation_length (nearest_unvisited_perm _ _ _ _ Hnear)) as Hl.
        simpl in Hl, Hlen. lia. }
      destruct (IH x rem' (opt ++ [x]) Hlen') as (order & Hrun & Hgreedy).
      exists (x :: order). split.
      * change (nearest_neighbor_loop (S fuel) cur rem opt) with
          (match rem !! fst (nearest_scan cur rem) with
           | Some next => nearest_neighbor_loop fuel next
                            (delete (fst (nearest_scan cur rem)) rem) (opt ++ [next])
           | None => None
           end).
        rewrite Hx, Hdel, Hrun. rewrite <- app_assoc. reflexivity.
      * econstructor; eassumption.
Qed.

Lemma greedy_order_perm cur rem order :
  greedy_order cur rem order -> order ≡ₚ rem.
Proof.
  induction 1 as [|cur rem x rem' order Hn _ IH]; [reflexivity|].
  rewrite (nearest_unvisited_perm _ _ _ _ Hn). constructor. exact IH.
Qed.

Lemma optimizeStopOrder_spec stops :
  exists order,
    optimizeStopOrder stops = Some order /\
    order ≡ₚ stops /\
    ((length stops <= 2)%nat -> order = stops) /\
    ((3 <= length stops)%nat -> greedy_nearest_neighbor stops order).
Proof.
  unfold optimizeStopOrder. case_bool_decide as Hlen.
  - exists stops. repeat split; auto. intros; lia.
  - destruct stops as [|s0 rest]; [simpl in Hlen; lia|].
    destruct (nearest_neighbor_loop_spec (length rest) s0 rest [s0] ltac:(lia))
      as (order & Hrun & Hgreedy).
    exists (s0 :: order). split; [exact Hrun|]. split; [|split].
    + constructor. eapply greedy_order_perm; eassumption.
    + intros; simpl in *; lia.
    + intros _. exists order. split; [reflexivity|assumption].
Qed.

(** ** The greedy order of the specification is unique *)

(** The selection of the specification has one answer. *)
Lemma nearest_unvisited_deterministic cur rem x1 r1 x2 r2 :
  nearest_unvisited cur rem x1 r1 -> nearest_unvisited cur rem x2 r2 ->
  x1 = x2 /\ r1 = r2.
Proof.
  intros H1 H2.
  destruct H1 as [b1 x1 a1 Hb1 Ha1].
  remember (b1 ++ x1 :: a1) as rem eqn:Hrem.
  destruct H2 as [b2 x2 a2 Hb2 Ha2].
  assert (Hat1 : (b2 ++ x2 :: a2) !! length b1 = Some x1)
    by (rewrite Hrem; apply list_lookup_middle; reflexivity).
  assert (Hat2 : (b1 ++ x1 :: a1) !! length b2 = Some x2)
    by (rewrite <- Hrem; apply list_lookup_middle; reflexivity).
  destruct (lt_eq_lt_dec (length b1) (length b2)) as [[Hlt|Heq]|Hgt].
  - exfalso.
    rewrite lookup_app_l in Hat1 by exact Hlt.
    assert (Hin1 : x1 ∈ b2) by (apply list_elem_of_lookup; eauto).
    rewrite lookup_app_r in Hat2 by lia.
    destruct (length b2 - length b1)%nat as [|k] eqn:Hk; [lia|].
    cbn in Hat2.
    assert (Hin2 : x2 ∈ a1) by (apply list_elem_of_lookup; eauto).
    specialize (Hb2 x1 Hin1). specialize (Ha1 x2 Hin2). lra.
  - apply app_inj_1 in Hrem as [Hb Hrest]; [|symmetry; exact Heq].
    injection Hrest as -> ->. subst b2. split; reflexivity.
  - exfalso.
    rewrite lookup_app_l in Hat2 by exact Hgt.
    assert (Hin2 : x2 ∈ b1) by (apply list_elem_of_lookup; eauto).
    rewrite lookup_app_r in Hat1 by lia.
    destruct (length b1 - length b2)%nat as [|k] eqn:Hk; [lia|].
    cbn in Hat1.
    assert (Hin1 : x1 ∈ a2) by (apply list_elem_of_lookup; eauto).
    specialize (Hb1 x2 Hin2). specialize (Ha2 x1 Hin1). lra.
Qed.

Lemma greedy_order_deterministic cur rem o1 o2 :
  greedy_order cur rem o1 -> greedy_order cur rem o2 -> o1 = o2.
Proof.
  intros H1. revert o2. induction H1 as [|cur rem x rem' order Hn _ IH]; intros o2 H2.
  - inversion H2 as [|? ? ? ? ? Hn2]; [reflexivity|].
    inversion Hn2 as [b y a ? ? Heq]. destruct b; discriminate.
  - inversion H2 as [|? ? x2 rem2 order2 Hn2 Hg2]; subst.
    + inversion Hn as [b y a ? ? Heq]. destruct b; discriminate.
    + destruct (nearest_unvisited_deterministic _ _ _ _ _ _ Hn Hn2) as [-> ->].
      f_equal. apply IH. exact Hg2.
Qed.

(** The order of the specification is unique, so it is the order of the
    code. *)
Lemma greedy_nearest_neighbor_deterministic stops o1 o2 :
  greedy_nearest_neighbor stops o1 -> greedy_nearest_neighbor stops o2 -> o1 = o2.
Proof.
  destruct stops as [|s0 rest]; cbn; [congruence|].
  intros (t1 & -> & H1) (t2 & -> & H2). f_equal.
  eapply greedy_order_deterministic; eassumption.
Qed.

Lemma sum_upto_nonneg f k : (forall i, 0 <= f i) -> 0 <= sum_upto f k.
Proof.
  intros Hf. induction k as [|k IH]; simpl; [lra|]. specialize (Hf k). lra.
Qed.

Lemma leg_distance_at_nonneg stops i : 0 <= leg_distance_at stops i.
Proof.
  unfold leg_distance_at. destruct (stops !! i); [|lra].
  destruct (stops !! (i + 1)%nat); [apply stop_distance_nonneg|lra].
Qed.

Lemma leg_minutes_at_nonneg stops i : 0 <= leg_minutes_at stops i.
Proof.
  unfold leg_minutes_at. apply Math_round_nonneg.
  pose proof (leg_distance_at_nonneg stops i). lra.
Qed.

Lemma mock_minutes_nonneg stops j : 0 <= mock_minutes stops j.
Proof.
  unfold mock_minutes. cbv zeta.
  pose proof (sum_upto_nonneg (leg_minutes_at stops) (Nat.min j (length stops - 1))
                (leg_minutes_at_nonneg stops)).
  pose proof (pos_INR (Nat.min j (length stops - 1))). lra.
Qed.

(** ** The loop of the fallback *)

Lemma mock_body_inv now stops i st :
  (i < length stops)%nat ->
  mock_inv now stops i st -> mock_inv now stops (S i) (mock_body now stops i st).
Proof.
  intros Hi (Hd & Ht & Hw).
  destruct (lookup_lt_is_Some_2 stops i Hi) as [s Hs].
  assert (Htake : take (S i) stops = take i stops ++ [s]) by (apply take_S_r; exact Hs).
  assert (Hlen : length (take i stops) = i) by (rewrite length_take; lia).
  unfold mock_body. rewrite Hs. case_bool_decide as Hlast.
  - destruct (lookup_lt_is_Some_2 stops (i + 1) ltac:(lia)) as [t Hnext].
    rewrite Hnext. cbv zeta.
    assert (Hleg : leg_distance_at stops i = stop_distance s t).
    { unfold leg_distance_at. rewrite Hs, Hnext. reflexivity. }
    assert (Hmin : mock_minutes stops (S i) = mock_minutes stops i + leg_minutes_at stops i + 5).
    { unfold mock_minutes. cbv zeta.
      replace (Nat.min (S i) (length stops - 1)) with (S i) by lia.
      replace (Nat.min i (length stops - 1)) with i by lia.
      rewrite S_INR. simpl. lra. }
    repeat split; cbn [ms_totalDistance ms_totalDuration ms_waypoints].
    + replace (Nat.min (S i) (length stops - 1)) with (S i) by lia.
      cbn [sum_upto]. rewrite Hd, <- Hleg.
      replace (Nat.min i (length stops - 1)) with i by lia. reflexivity.
    + rewrite Ht, Hmin. unfold leg_minutes_at. rewrite Hleg. reflexivity.
    + rewrite Htake, imap_app, Hw, Hlen. cbn [imap]. rewrite Nat.add_0_r.
      do 3 f_equal. rewrite Ht, Hmin. unfold leg_minutes_at. rewrite Hleg. reflexivity.
  - assert (Hsame : Nat.min (S i) (length stops - 1) = Nat.min i (length stops - 1)) by lia.
    assert (Hmin : mock_minutes stops (S i) = mock_minutes stops i).
    { unfold mock_minutes. cbv zeta. rewrite Hsame. reflexivity. }
    repeat split; cbn [ms_totalDistance ms_totalDuration ms_waypoints].
    + rewrite Hsame. exact Hd.
    + rewrite Hmin. exact Ht.
    + rewrite Htake, imap_app, Hw, Hlen. cbn [imap]. rewrite Nat.add_0_r.
      do 3 f_equal. rewrite Ht, Hmin. reflexivity.
Qed.

Lemma mock_loop_closed now stops :
  mock_inv now stops (length stops)
    (for_range 0 (length stops) (mock_body now stops) (mkMockState 0 0 [])).
Proof.
  apply for_range_ind; [lia| |].
  - repeat split; simpl; auto.
    unfold mock_minutes. simpl. lra.
  - intros i st Hi. apply mock_body_inv. lia.
Qed.

(** The fallback on at least two stops, in closed form. *)
Lemma getMockOptimizedRoute_closed now stops order :
  (2 <= length stops)%nat ->
  optimizeStopOrder stops = Some order ->
  getMockOptimizedRoute now stops =
    Some (mkOptimizedRoute
            (Math_round (sum_upto (leg_distance_at order) (length order - 1)))
            (mock_minutes order (length order) * 60)
            (imap (fun i s => waypoint_at s (now + mock_minutes order (S i) * 60000)) order)
            "").
Proof.
  intros Hlen Hopt. unfold getMockOptimizedRoute.
  rewrite bool_decide_false by lia. rewrite Hopt.
  destruct (mock_loop_closed now order) as (Hd & Ht & Hw).
  cbv zeta. rewrite Hd, Ht, Hw.
  rewrite firstn_all. replace (Nat.min (length order) (length order - 1)) with (length order - 1)%nat by lia.
  reflexivity.
Qed.

(** ** The loop of the baseline *)

Lemma original_body_inv stops i st :
  (i < length stops - 1)%nat ->
  original_inv stops i st -> original_inv stops (S i) (original_body stops i st).
Proof.
  intros Hi (Hd & Ht). destruct st as [d t]. simpl in Hd, Ht.
  destruct (lookup_lt_is_Some_2 stops i ltac:(lia)) as [s Hs].
  destruct (lookup_lt_is_Some_2 stops (i + 1) ltac:(lia)) as [u Hu].
  assert (Hleg : leg_distance_at stops i = stop_distance s u).
  { unfold leg_distance_at. rewrite Hs, Hu. reflexivity. }
  unfold original_body. rewrite Hs, Hu. cbv zeta.
  assert (Hlm : leg_minutes_at stops i = Math_round (stop_distance s u / 1000 * 2)).
  { unfold leg_minutes_at. rewrite Hleg. reflexivity. }
  rewrite <- Hlm, <- Hleg.
  case_bool_decide as Hdwell; split; cbn [fst snd].
  - rewrite Hd. reflexivity.
  - rewrite Ht. unfold original_minutes.
    replace (Nat.min (S i) (length stops - 2)) with (S (Nat.min i (length stops - 2))) by lia.
    rewrite S_INR. cbn [sum_upto]. lra.
  - rewrite Hd. reflexivity.
  - rewrite Ht. unfold original_minutes.
    replace (Nat.min (S i) (length stops - 2)) with (Nat.min i (length stops - 2)) by lia.
    cbn [sum_upto]. lra.
Qed.

Lemma calculateOriginalRouteMetrics_closed stops :
  (2 <= length stops)%nat ->
  calculateOriginalRouteMetrics stops =
    (Math_round (sum_upto (leg_distance_at stops) (length stops - 1)),
     original_minutes stops (length stops - 1) * 60).
Proof.
  intros Hlen. unfold calculateOriginalRouteMetrics.
  rewrite bool_decide_false by lia.
  assert (Hinv : original_inv stops (length stops - 1)
            (for_range 0 (length stops - 1) (original_body stops) (0, 0))).
  { apply for_range_ind; [lia| |].
    - split; simpl; auto. unfold original_minutes. simpl. lra.
    - intros i st Hi. apply original_body_inv. lia. }
  destruct (for_range 0 (length stops - 1) (original_body stops) (0, 0)) as [d t].
  destruct Hinv as [Hd Ht]. simpl in Hd, Ht. rewrite Hd, Ht. reflexivity.
Qed.

(** The two estimates differ by one dwell time. *)
Lemma mock_minutes_original_minutes stops :
  (2 <= length stops)%nat ->
  mock_minutes stops (length stops) = original_minutes stops (length stops - 1) + 5.
Proof.
  intros Hlen. unfold mock_minutes, original_minutes. cbv zeta.
  replace (Nat.min (length stops) (length stops - 1)) with (length stops - 1)%nat by lia.
  replace (Nat.min (length stops - 1) (length stops - 2)) with (length stops - 2)%nat by lia.
  replace (length stops - 1)%nat with (S (length stops - 2)) at 2 by lia.
  rewrite S_INR. lra.
Qed.

Lemma stop_of_imap_waypoint_at (eta : nat -> R) (l : list Stop) :
  map stop_of (imap (fun i s => waypoint_at s (eta i)) l) = l.
Proof.
  revert eta. induction l as [|s l IH]; intros eta; [reflexivity|].
  cbn [imap map]. rewrite stop_of_waypoint_at. f_equal.
  apply (IH (fun i => eta (S i))).
Qed.

Lemma stop_of_map_waypoint_at (eta : R) (l : list Stop) :
  map stop_of (map (fun s => waypoint_at s eta) l) = l.
Proof.
  induction l as [|s l IH]; [reflexivity|].
  cbn [map]. rewrite stop_of_waypoint_at, IH. reflexivity.
Qed.

Lemma Math_round_nonpos x : x <= 0 -> Math_round x <= 0.
Proof.
  intros Hx. unfold Math_round.
  pose proof (Zfloor_bound (x + / 2)) as [Hlo _].
  assert (Hz : (Zfloor (x + / 2) < 1)%Z).
  { apply lt_IZR. lra. }
  apply IZR_le. lia.
Qed.

Lemma Math_max_0_nonpos x : x <= 0 -> Math_max 0 x = 0.
Proof. intros Hx. unfold Math_max. apply Rmax_left. exact Hx. Qed.

Lemma Math_round_0 : Math_round 0 = 0.
Proof. apply (Math_round_IZR 0). Qed.

(** Metrics of a route that is no better than the baseline *)
Lemma calculateOptimizationMetrics_no_gain route stops :
  totalDistance route = fst (calculateOriginalRouteMetrics stops) ->
  snd (calculateOriginalRouteMetrics stops) <= totalDuration route ->
  0 <= snd (calculateOriginalRouteMetrics stops) ->
  calculateOptimizationMetrics route stops =
    mkMetrics 0 0 0 0 0 (mkEfficiency 0 0 0).
Proof.
  intros Hd Ht Hpos. unfold calculateOptimizationMetrics. cbv zeta.
  set (od := fst (calculateOriginalRouteMetrics stops)) in *.
  set (ot := snd (calculateOriginalRouteMetrics stops)) in *.
  rewrite Hd.
  replace (od - od) with 0 by lra.
  replace (0 / 1000) with 0 by lra.
  assert (Hr : Math_round (ot - totalDuration route) <= 0) by (apply Math_round_nonpos; lra).
  assert (E1 : Math_max 0 (Math_round (ot - totalDuration route)) = 0)
    by (apply Math_max_0_nonpos; exact Hr).
  rewrite E1.
  assert (Ez : forall k, Math_max 0 (Math_round (0 * k) / k) = 0).
  { intros k. rewrite Rmult_0_l, Math_round_0. unfold Rdiv. rewrite Rmult_0_l.
    apply Math_max_0_nonpos. lra. }
  rewrite (Ez 1000).
  assert (Ef : 0 * (if Rlt_dec (od / 1000) 50 then 10 else 7) / 100 = 0) by (unfold Rdiv; ring).
  rewrite Ef. rewrite (Ez 1000).
  replace (0 * (23 / 10)) with 0 by lra. rewrite (Ez 1000).
  assert (E2 : Math_max 0 (Math_round ((0 * (3 / 2) + Math_round (ot - totalDuration route) / 3600 * 25) * 100) / 100) = 0).
  { apply Math_max_0_nonpos.
    assert (Math_round ((0 * (3 / 2) + Math_round (ot - totalDuration route) / 3600 * 25) * 100) <= 0).
    { apply Math_round_nonpos. lra. }
    lra. }
  rewrite E2.
  assert (E3 : Math_max 0 (Math_round (if Rlt_dec 0 ot then (ot - totalDuration route) / ot * 100 else 0)) = 0).
  { apply Math_max_0_nonpos, Math_round_nonpos.
    destruct (Rlt_dec 0 ot) as [Hp|]; [|lra].
    assert ((ot - totalDuration route) / ot <= 0); [|lra].
    unfold Rdiv. rewrite <- (Rmult_0_l (/ ot)).
    apply Rmult_le_compat_r; [left; apply Rinv_0_lt_compat; exact Hp|lra]. }
  rewrite E3.
  assert (E4 : Math_max 0 (Math_round (if Rlt_dec 0 od then 0 / od * 100 else 0)) = 0).
  { apply Math_max_0_nonpos, Math_round_nonpos.
    destruct (Rlt_dec 0 od); [|lra]. unfold Rdiv. rewrite !Rmult_0_l. lra. }
  rewrite E4. reflexivity.
Qed.





(** Fewer than two stops: every arrival time is the current time *)
Lemma fallback_short_route now stops :
  (length stops < 2)%nat ->
  getMockOptimizedRoute now stops =
    Some (mkOptimizedRoute 0 0 (map (fun s => waypoint_at s now) stops) "").
Proof.
  intros H. unfold getMockOptimizedRoute. rewrite bool_decide_true by exact H. reflexivity.
Qed.

(** The provider-backed branch starts its arrival times at the current time *)
Lemma provider_eta_first now route : GoogleMapsService.provider_eta now route 0 = now.
Proof. reflexivity. Qed.

(** ** Bounds on the elementary functions *)

Lemma PI_bounds : 3141592 / 1000000 < PI < 3141597 / 1000000.
Proof.
  pose proof (PI_2_3_7_ineq 2) as [Hlo Hhi].
  unfold sum_f_R0, tg_alt, PI_2_3_7_tg, Ratan_seq in Hlo, Hhi.
  cbn [Nat.mul Nat.add pow INR] in Hlo, Hhi.
  split; lra.
Qed.

Lemma sin_poly_bounds x : 0 <= x <= 1 -> x - x ^ 3 / 6 <= sin x <= x.
Proof.
  intros [H0 H1]. split.
  - destruct (pre_sin_bound x 0 H0 ltac:(lra)) as [Hlo _].
    change (2 * 0 + 1)%nat with 1%nat in Hlo.
    unfold sin_approx, sum_f_R0, sin_term in Hlo.
    cbn [Nat.mul Nat.add pow fact INR] in Hlo. lra.
  - destruct (Req_dec x 0) as [->|Hx]; [rewrite sin_0; lra|].
    left. apply sin_lt_x. lra.
Qed.

Lemma cos_poly_bounds x :
  0 <= x <= 2 ->
  1 - x ^ 2 / 2 + x ^ 4 / 24 - x ^ 6 / 720 <= cos x
  <= 1 - x ^ 2 / 2 + x ^ 4 / 24 - x ^ 6 / 720 + x ^ 8 / 40320.
Proof.
  intros [H0 H2].
  destruct (pre_cos_bound x 1 ltac:(lra) H2) as [Hlo Hhi].
  change (2 * 1 + 1)%nat with 3%nat in Hlo.
  change (2 * (1 + 1))%nat with 4%nat in Hhi.
  unfold cos_approx, sum_f_R0, cos_term in Hlo, Hhi.
  assert (F0 : INR (fact (2 * 0)) = 1) by (rewrite INR_IZR_INZ; reflexivity).
  assert (F1 : INR (fact (2 * 1)) = 2) by (rewrite INR_IZR_INZ; reflexivity).
  assert (F2 : INR (fact (2 * 2)) = 24) by (rewrite INR_IZR_INZ; reflexivity).
  assert (F3 : INR (fact (2 * 3)) = 720) by (rewrite INR_IZR_INZ; reflexivity).
  assert (F4 : INR (fact (2 * 4)) = 40320) by (rewrite INR_IZR_INZ; reflexivity).
  rewrite F0, F1, F2, F3 in Hlo. rewrite F0, F1, F2, F3, F4 in Hhi.
  cbn [Nat.mul Nat.add pow] in Hlo, Hhi.
  cbn [pow]. split; lra.
Qed.

Lemma Rmult_interval xl x xu yl y yu :
  0 <= xl <= x -> x <= xu -> 0 <= yl <= y -> y <= yu ->
  xl * yl <= x * y <= xu * yu.
Proof.
  intros [Hxl Hx] Hxu [Hyl Hy] Hyu. split.
  - apply Rmult_le_compat; lra.
  - apply Rmult_le_compat; lra.
Qed.

(** Between 0 and 1 the angle of the haversine formula is an arc sine. *)
Lemma Math_atan2_sqrt_asin a :
  0 < a < 1 ->
  Math_atan2 (Math_sqrt a) (Math_sqrt (1 - a)) = asin (sqrt a).
Proof.
  intros [Ha0 Ha1]. unfold Math_atan2, Math_sqrt.
  assert (Hr : 0 < sqrt (1 - a)) by (apply sqrt_lt_R0; lra).
  destruct (Rlt_dec 0 (sqrt (1 - a))) as [_|Hn]; [|contradiction].
  assert (Hq : 0 < sqrt a < 1).
  { split; [apply sqrt_lt_R0; lra|].
    rewrite <- sqrt_1. apply sqrt_lt_1_alt. lra. }
  rewrite asin_atan by lra.
  rewrite Rsqr_sqrt by lra. reflexivity.
Qed.

Lemma asin_bounds q ql U :
  0 <= ql <= q -> q <= U - U ^ 3 / 6 -> 0 <= U <= 1 -> q <= 1 ->
  ql <= asin q <= U.
Proof.
  intros [Hql Hq] HqU [HU0 HU1] Hq1.
  pose proof (asin_bound q) as [Hlo Hhi].
  pose proof PI_bounds as [Hpl Hpu].
  assert (Hsin : sin (asin q) = q) by (apply sin_asin; lra).
  split.
  - apply sin_incr_0; try lra.
    rewrite Hsin. destruct (sin_poly_bounds ql ltac:(lra)). lra.
  - apply sin_incr_0; try lra.
    rewrite Hsin. destruct (sin_poly_bounds U ltac:(lra)). lra.
Qed.

Lemma Math_round_eq (z : Z) x : IZR z - / 2 <= x < IZR z + / 2 -> Math_round x = IZR z.
Proof.
  intros [Hlo Hhi]. unfold Math_round. f_equal. apply Zfloor_eq. lra.
Qed.

(** ** The distance of the example *)

Lemma stop_distance_A_B : 54201 / 10 < stop_distance stopA stopB < 54202 / 10.
Proof.
  pose proof PI_bounds as [Hpl Hpu].
  unfold stop_distance, calculateHaversineDistance, toRadians.
  cbn [latitude longitude stopA stopB]. cbv zeta.
  set (x1 := (407589 / 10000 - 407128 / 10000) * (PI / 180) / 2).
  set (x2 := (- (739851 / 10000) - - (740060 / 10000)) * (PI / 180) / 2).
  set (f1 := 407128 / 10000 * (PI / 180)).
  set (f2 := 407589 / 10000 * (PI / 180)).
  assert (Hx1 : (5028728861111 / 12500000000000000) <= x1 <= (40229894916667 / 100000000000000000)) by (unfold x1; lra).
  assert (Hx2 : (2279835861111 / 12500000000000000) <= x2 <= (18238715916667 / 100000000000000000)) by (unfold x2; lra).
  assert (Hf1 : (14211445197511 / 20000000000000) <= f1 <= (71057339078667 / 100000000000000)) by (unfold f1; lra).
  assert (Hf2 : (71137685649333 / 100000000000000) <= f2 <= (142275597737 / 200000000000)) by (unfold f2; lra).
  assert (Hs1 : (40229829803723 / 100000000000000000) <= sin x1 <= (40229894916667 / 100000000000000000)).
  { destruct (sin_poly_bounds x1 ltac:(lra)) as [Hlo Hhi]. split; [|lra].
    assert (x1 ^ 3 <= (40229894916667 / 100000000000000000) ^ 3) by (apply pow_incr; lra). lra. }
  assert (Hs2 : (18238686787769 / 100000000000000000) <= sin x2 <= (18238715916667 / 100000000000000000)).
  { destruct (sin_poly_bounds x2 ltac:(lra)) as [Hlo Hhi]. split; [|lra].
    assert (x2 ^ 3 <= (18238715916667 / 100000000000000000) ^ 3) by (apply pow_incr; lra). lra. }
  assert (Hc1 : (37899319646359 / 50000000000000) <= cos f1 <= (15159774850643 / 20000000000000)).
  { split.
    - apply Rle_trans with (cos (71057339078667 / 100000000000000)); [|apply cos_decr_1; lra].
      destruct (cos_poly_bounds (71057339078667 / 100000000000000) ltac:(lra)) as [Hlo _]. lra.
    - apply Rle_trans with (cos (14211445197511 / 20000000000000)); [apply cos_decr_1; lra|].
      destruct (cos_poly_bounds (14211445197511 / 20000000000000) ltac:(lra)) as [_ Hhi]. lra. }
  assert (Hc2 : (18936532980213 / 25000000000000) <= cos f2 <= (75746368499897 / 100000000000000)).
  { split.
    - apply Rle_trans with (cos (142275597737 / 200000000000)); [|apply cos_decr_1; lra].
      destruct (cos_poly_bounds (142275597737 / 200000000000) ltac:(lra)) as [Hlo _]. lra.
    - apply Rle_trans with (cos (71137685649333 / 100000000000000)); [apply cos_decr_1; lra|].
      destruct (cos_poly_bounds (71137685649333 / 100000000000000) ltac:(lra)) as [_ Hhi]. lra. }
  assert (Ht1 : (3236878412073 / 20000000000000000000) <= sin x1 * sin x1 <= (16184444450061 / 100000000000000000000)).
  { pose proof (Rmult_interval (40229829803723 / 100000000000000000) (sin x1) (40229894916667 / 100000000000000000) (40229829803723 / 100000000000000000) (sin x1) (40229894916667 / 100000000000000000)
                  ltac:(lra) ltac:(lra) ltac:(lra) ltac:(lra)). lra. }
  assert (Hcc : (7176817164109 / 12500000000000) <= cos f1 * cos f2 <= (28707447305307 / 50000000000000)).
  { pose proof (Rmult_interval (37899319646359 / 50000000000000) (cos f1) (15159774850643 / 20000000000000) (18936532980213 / 25000000000000) (cos f2) (75746368499897 / 100000000000000)
                  ltac:(lra) ltac:(lra) ltac:(lra) ltac:(lra)). lra. }
  assert (Hccs : (10471657631141 / 100000000000000000) <= cos f1 * cos f2 * sin x2 <= (2617934880471 / 25000000000000000)).
  { pose proof (Rmult_interval (7176817164109 / 12500000000000) (cos f1 * cos f2) (28707447305307 / 50000000000000) (18238686787769 / 100000000000000000) (sin x2) (18238715916667 / 100000000000000000)
                  ltac:(lra) ltac:(lra) ltac:(lra) ltac:(lra)). lra. }
  assert (Ht2 : (19098928368313 / 1000000000000000000000) <= cos f1 * cos f2 * sin x2 * sin x2 <= (9549554114649 / 500000000000000000000)).
  { pose proof (Rmult_interval (10471657631141 / 100000000000000000) (cos f1 * cos f2 * sin x2) (2617934880471 / 25000000000000000)
                  (18238686787769 / 100000000000000000) (sin x2) (18238715916667 / 100000000000000000)
                  ltac:(lra) ltac:(lra) ltac:(lra) ltac:(lra)). lra. }
  set (a := sin x1 * sin x1 + cos f1 * cos f2 * sin x2 * sin x2) in *.
  assert (Ha : (4523571224299 / 25000000000000000000) <= a <= (18094355272991 / 100000000000000000000)) by (unfold a; lra).
  rewrite Math_atan2_sqrt_asin by lra.
  assert (Hq : (21268688780221 / 50000000000000000) <= sqrt a <= (42537460282663 / 100000000000000000)).
  { split.
    - rewrite <- (sqrt_square (21268688780221 / 50000000000000000)) by lra. apply sqrt_le_1_alt. lra.
    - rewrite <- (sqrt_square (42537460282663 / 100000000000000000)) by lra. apply sqrt_le_1_alt. lra. }
  pose proof (asin_bounds (sqrt a) (21268688780221 / 50000000000000000) (10634375705031 / 25000000000000000)
                ltac:(lra) ltac:(lra) ltac:(lra) ltac:(lra)) as Hth.
  lra.
Qed.

Lemma optimizeStopOrder_A_B : optimizeStopOrder [stopA; stopB] = Some [stopA; stopB].
Proof. reflexivity. Qed.

Lemma leg_minutes_A_B : leg_minutes_at [stopA; stopB] 0 = 11.
Proof.
  unfold leg_minutes_at, leg_distance_at. cbn [lookup list_lookup Nat.add].
  pose proof stop_distance_A_B as [Hlo Hhi].
  apply (Math_round_eq 11). lra.
Qed.

Lemma getMockOptimizedRoute_A_B now :
  getMockOptimizedRoute now [stopA; stopB] =
    Some (mkOptimizedRoute 5420 960
            [waypoint_at stopA (now + 960000); waypoint_at stopB (now + 960000)] "").
Proof.
  rewrite (getMockOptimizedRoute_closed now [stopA; stopB] [stopA; stopB]) by (simpl; lia || reflexivity).
  assert (Hd : sum_upto (leg_distance_at [stopA; stopB]) (length [stopA; stopB] - 1)
               = stop_distance stopA stopB).
  { cbn [length Nat.sub sum_upto]. unfold leg_distance_at.
    cbn [lookup list_lookup Nat.add]. lra. }
  assert (Hm : forall j, (1 <= j)%nat -> mock_minutes [stopA; stopB] j = 16).
  { intros j Hj. unfold mock_minutes. cbv zeta.
    replace (Nat.min j (length [stopA; stopB] - 1)) with 1%nat by (simpl; lia).
    cbn [sum_upto]. rewrite leg_minutes_A_B. simpl INR. lra. }
  rewrite Hd. cbn [imap]. unfold compose. rewrite !Hm by (simpl; lia).
  pose proof stop_distance_A_B as [Hlo Hhi].
  rewrite (Math_round_eq 5420) by lra.
  replace (16 * 60) with 960 by lra.
  replace (16 * 60000) with 960000 by lra.
  reflexivity.
Qed.

(** C9 as stated fails: for the two stops of the example the fallback does
    not return a total distance within 50 m of 5750. *)
Lemma example_distance_not_near_5750 :
  ~ (exists route,
       getMockOptimizedRoute 0 [stopA; stopB] = Some route /\
       map stop_of (waypoints route) = [stopA; stopB] /\
       Rabs (totalDistance route - 5750) <= 50 /\
       totalDuration route = step4_duration_seconds [stopA; stopB]).
Proof.
  intros (route & Hroute & _ & Hdist & _).
  rewrite getMockOptimizedRoute_A_B in Hroute. injection Hroute as <-.
  cbn [totalDistance] in Hdist.
  unfold Rabs in Hdist. destruct (Rcase_abs (5420 - 5750)); lra.
Qed.

(** C9, amended.  For the stops A = (40.7128, -74.0060) and
    B = (40.7589, -73.9851) the fallback returns the order [A, B] unchanged
    and a total distance of 5420 metres, which is within 50 m of 5420. *)
Theorem example_route_order_and_distance (now : R) :
  exists route,
    getMockOptimizedRoute now [stopA; stopB] = Some route /\
    map stop_of (waypoints route) = [stopA; stopB] /\
    totalDistance route = 5420 /\
    Rabs (totalDistance route - 5420) <= 50.
Proof.
  eexists. split; [apply getMockOptimizedRoute_A_B|].
  cbn [waypoints totalDistance map]. rewrite !stop_of_waypoint_at.
  repeat split. replace (5420 - 5420) with 0 by lra. rewrite Rabs_R0. lra.
Qed.

(** The duration of the example: the fallback and the formula of step 4 *)
Lemma example_durations (now : R) :
  (totalDuration <$> getMockOptimizedRoute now [stopA; stopB]) = Some 960 /\
  step4_duration_seconds [stopA; stopB] = 660 /\
  snd (calculateOriginalRouteMetrics [stopA; stopB]) = 660.
Proof.
  split; [rewrite getMockOptimizedRoute_A_B; reflexivity|].
  assert (H : step4_duration_seconds [stopA; stopB] = 660).
  { unfold step4_duration_seconds. cbn [length Nat.sub sum_upto].
    rewrite leg_minutes_A_B. simpl INR. lra. }
  split; [exact H|].
  rewrite calculateOriginalRouteMetrics_closed by (simpl; lia).
  cbn [snd]. unfold original_minutes. cbn [length Nat.sub sum_upto Nat.min].
  rewrite leg_minutes_A_B. simpl INR. lra.
Qed.

(** ** The metrics calculator *)

Lemma Math_max_0_round_integer x : exists z : Z, Math_max 0 (Math_round x) = IZR z.
Proof.
  unfold Math_max, Math_round, Rmax.
  destruct (Rle_dec 0 (IZR (Zfloor (x + / 2)))); [eexists; reflexivity|exists 0%Z; reflexivity].
Qed.

Lemma Math_round_nearest x : x - / 2 < Math_round x <= x + / 2.
Proof.
  unfold Math_round. pose proof (Zfloor_bound (x + / 2)). lra.
Qed.

(** ** The sequencer in the arithmetic of the engine *)

Lemma nearer_trans_lt x d a : x < d -> DoublesSpec.nearer false d a -> DoublesSpec.nearer true x a.
Proof. destruct a; cbn; [lra|auto]. Qed.

Lemma nearer_trans_lt' x d a : x < d -> DoublesSpec.nearer true d a -> DoublesSpec.nearer true x a.
Proof. destruct a; cbn; [lra|auto]. Qed.

Lemma Doubles_scan_body_inv e cur rem i st :
  (i < length rem)%nat ->
  DoublesSpec.scan_inv e cur rem i st ->
  DoublesSpec.scan_inv e cur rem (S i) (Doubles.scan_body e cur rem i st).
Proof.
  intros Hi Hinv. destruct (lookup_lt_is_Some_2 rem i Hi) as [c Hc].
  unfold Doubles.scan_body. destruct st as [idx sd]. rewrite Hc.
  destruct (Doubles.stop_distance e cur c) as [dc|] eqn:Hdc.
  - destruct Hinv as [[Hst Hnan]|(x & d & Hx & Hdx & Hsd & Hlt & Hbefore & Hafter)].
    + injection Hst as -> ->. cbn [lt_inf]. right. exists c, dc. cbn [fst snd].
      split; [exact Hc|]. split; [exact Hdc|]. split; [reflexivity|]. split; [lia|].
      split.
      * intros j y Hj Hji. rewrite (Hnan j y Hji Hj). exact I.
      * intros j y Hj Hji. lia.
    + cbn [fst snd] in *. subst sd. cbn [lt_inf].
      destruct (Rlt_dec dc d) as [Hless|Hge].
      * right. exists c, dc. cbn [fst snd].
        split; [exact Hc|]. split; [exact Hdc|]. split; [reflexivity|]. split; [lia|].
        split.
        -- intros j y Hj Hji.
           destruct (decide (j < idx)%nat) as [Hjl|Hjg].
           ++ apply (nearer_trans_lt' dc d); [exact Hless|]. apply (Hbefore j y Hj Hjl).
           ++ destruct (decide (j = idx)) as [->|Hne].
              ** rewrite Hx in Hj. injection Hj as <-. rewrite Hdx. exact Hless.
              ** apply (nearer_trans_lt dc d); [exact Hless|].
                 apply (Hafter j y Hj). lia.
        -- intros j y Hj Hji. lia.
      * right. exists x, d. cbn [fst snd].
        split; [exact Hx|]. split; [exact Hdx|]. split; [reflexivity|]. split; [lia|].
        split; [exact Hbefore|].
        intros j y Hj Hji.
        destruct (decide (j = i)) as [->|Hne].
        -- rewrite Hc in Hj. injection Hj as <-. rewrite Hdc. cbn. lra.
        -- apply (Hafter j y Hj). lia.
  - destruct Hinv as [[Hst Hnan]|(x & d & Hx & Hdx & Hsd & Hlt & Hbefore & Hafter)].
    + left. split; [exact Hst|]. intros j y Hji Hj.
      destruct (decide (j = i)) as [->|Hne].
      * rewrite Hc in Hj. injection Hj as <-. exact Hdc.
      * apply (Hnan j y); [lia|exact Hj].
    + right. exists x, d. cbn [fst snd] in *.
      split; [exact Hx|]. split; [exact Hdx|]. split; [exact Hsd|]. split; [lia|].
      split; [exact Hbefore|].
      intros j y Hj Hji.
      destruct (decide (j = i)) as [->|Hne].
      * rewrite Hc in Hj. injection Hj as <-. rewrite Hdc. exact I.
      * apply (Hafter j y Hj). lia.
Qed.

Lemma Doubles_nearest_scan_step e cur rem :
  rem <> [] ->
  exists x rem',
    rem !! fst (Doubles.nearest_scan e cur rem) = Some x /\
    delete (fst (Doubles.nearest_scan e cur rem)) rem = rem' /\
    DoublesSpec.nearest_unvisited e cur rem x rem'.
Proof.
  intros Hne.
  assert (Hinv : DoublesSpec.scan_inv e cur rem (length rem) (Doubles.nearest_scan e cur rem)).
  { unfold Doubles.nearest_scan. apply for_range_ind; [lia| |].
    - left. split; [reflexivity|]. intros; lia.
    - intros i st Hi. apply Doubles_scan_body_inv. lia. }
  destruct Hinv as [[Hst Hnan]|(x & d & Hx & Hdx & _ & Hlt & Hbefore & Hafter)].
  - rewrite Hst. cbn [fst]. destruct rem as [|r0 rem']; [congruence|].
    exists r0, rem'. split; [reflexivity|]. split; [reflexivity|].
    apply DoublesSpec.nearest_no_number. intros y Hy.
    apply list_elem_of_lookup in Hy as [j Hj].
    apply (Hnan j y); [apply (lookup_lt_Some _ _ _ Hj)|exact Hj].
  - set (idx := fst (Doubles.nearest_scan e cur rem)) in *.
    exists x, (take idx rem ++ drop (S idx) rem).
    split; [exact Hx|].
    pose proof (take_drop_middle rem idx x Hx) as Hmid.
    split.
    + rewrite <- Hmid at 1.
      replace idx with (length (take idx rem)) at 1 by (rewrite length_take; lia).
      rewrite delete_middle. reflexivity.
    + rewrite <- Hmid at 1. apply (DoublesSpec.nearest_number e cur _ x _ d Hdx).
      * intros y Hy. apply list_elem_of_lookup in Hy as [j Hj].
        pose proof (lookup_lt_Some _ _ _ Hj) as Hjl. rewrite length_take in Hjl.
        rewrite lookup_take_lt in Hj by lia. apply (Hbefore j y Hj). lia.
      * intros y Hy. apply list_elem_of_lookup in Hy as [j Hj].
        rewrite lookup_drop in Hj.
        pose proof (lookup_lt_Some _ _ _ Hj) as Hjl.
        apply (Hafter _ y Hj). lia.
Qed.

Lemma Doubles_nearest_unvisited_perm e cur rem x rem' :
  DoublesSpec.nearest_unvisited e cur rem x rem' -> rem ≡ₚ x :: rem'.
Proof.
  intros H. destruct H; [symmetry; apply Permutation_middle|reflexivity].
Qed.

Lemma Doubles_nearest_neighbor_loop_spec e fuel cur rem opt :
  (length rem <= fuel)%nat ->
  exists order,
    Doubles.nearest_neighbor_loop e fuel cur rem opt = Some (opt ++ order) /\
    DoublesSpec.greedy_order e cur rem order.
Proof.
  revert cur rem opt. induction fuel as [|fuel IH]; intros cur rem opt Hlen.
  - destruct rem; [|simpl in Hlen; lia].
    exists []. rewrite app_nil_r. split; [reflexivity|constructor].
  - destruct rem as [|r0 rem0].
    + exists []. rewrite app_nil_r. split; [reflexivity|constructor].
    + set (rem := r0 :: rem0) in *.
      destruct (Doubles_nearest_scan_step e cur rem ltac:(discriminate))
        as (x & rem' & Hx & Hdel & Hnear).
      assert (Hlen' : (length rem' <= fuel)%nat).
      { pose proof (Permutation_length (Doubles_nearest_unvisited_perm _ _ _ _ _ Hnear)) as Hl.
        simpl in Hl, Hlen. lia. }
      destruct (IH x rem' (opt ++ [x]) Hlen') as (order & Hrun & Hgreedy).
      exists (x :: order). split.
      * change (Doubles.nearest_neighbor_loop e (S fuel) cur rem opt) with
          (match rem !! fst (Doubles.nearest_scan e cur rem) with
           | Some next => Doubles.nearest_neighbor_loop e fuel next
                            (delete (fst (Doubles.nearest_scan e cur rem)) rem)
                            (opt ++ [next])
           | None => None
           end).
        rewrite Hx, Hdel, Hrun. rewrite <- app_assoc. reflexivity.
      * econstructor; eassumption.
Qed.

Lemma Doubles_greedy_order_perm e cur rem order :
  DoublesSpec.greedy_order e cur rem order -> order ≡ₚ rem.
Proof.
  induction 1 as [|cur rem x rem' order Hn _ IH]; [reflexivity|].
  rewrite (Doubles_nearest_unvisited_perm _ _ _ _ _ Hn). constructor. exact IH.
Qed.

Lemma Doubles_optimizeStopOrder_spec e stops :
  exists order,
    Doubles.optimizeStopOrder e stops = Some order /\
    order ≡ₚ stops /\
    ((length stops <= 2)%nat -> order = stops) /\
    ((3 <= length stops)%nat -> DoublesSpec.greedy_nearest_neighbor e stops order).
Proof.
  unfold Doubles.optimizeStopOrder. case_bool_decide as Hlen.
  - exists stops. repeat split; auto. intros; lia.
  - destruct stops as [|s0 rest]; [simpl in Hlen; lia|].
    destruct (Doubles_nearest_neighbor_loop_spec e (length rest) s0 rest [s0] ltac:(lia))
      as (order & Hrun & Hgreedy).
    exists (s0 :: order). split; [exact Hrun|]. split; [|split].
    + constructor. eapply Doubles_greedy_order_perm; eassumption.
    + intros; simpl in *; lia.
    + intros _. exists order. split; [reflexivity|assumption].
Qed.

(** ** The fallback in the arithmetic of the engine *)

Lemma Doubles_stop_distance_sound e s t d :
  DoublesSpec.sound e -> Doubles.stop_distance e s t = Num d -> 0 <= d.
Proof. intros Hs. apply Hs. Qed.

Lemma Doubles_travel_minutes_nonneg d :
  0 <= d -> 0 <= Math_round (d / 1000 * 2).
Proof. intros Hd. apply Math_round_nonneg. lra. Qed.

Ltac eval_num :=
  cbn [Doubles.toISOString Doubles.add Doubles.sub Doubles.mul Doubles.div
       Doubles.lift1 Doubles.lift2 Doubles.Math_round Doubles.Math_max Doubles.lt
       Doubles.ms_totalDistance Doubles.ms_totalDuration Doubles.ms_waypoints
       DoublesSpec.mock_inv fst snd].

Lemma Doubles_mock_body_inv e now stops i st :
  DoublesSpec.sound e -> (i < length stops)%nat ->
  DoublesSpec.mock_inv e stops i st ->
  DoublesSpec.mock_inv e stops (S i) (Doubles.mock_body e now stops i st).
Proof.
  intros Hsound Hi Hinv. unfold Doubles.mock_body.
  destruct st as [error|st].
  - destruct Hinv as (-> & j & Hj & Hleg). split; [reflexivity|].
    exists j. split; [lia|exact Hleg].
  - destruct Hinv as (Hnum & (D & HD & HD0) & (T & HT & HT0) & Hwps).
    destruct (lookup_lt_is_Some_2 stops i Hi) as [stop Hstop]. rewrite Hstop.
    assert (Htake : take (S i) stops = take i stops ++ [stop])
      by (apply take_S_r; exact Hstop).
    case_bool_decide as Hlast.
    + assert (Hn : (i + 1 < length stops)%nat) by lia.
      destruct (lookup_lt_is_Some_2 stops (i + 1)%nat Hn) as [nextStop Hnext].
      rewrite Hnext. cbn [Doubles.ms_totalDistance Doubles.ms_totalDuration
                            Doubles.ms_waypoints].
      destruct (Doubles.stop_distance e stop nextStop) as [d|] eqn:Hd.
      * pose proof (Doubles_stop_distance_sound e stop nextStop d Hsound Hd) as Hd0.
        rewrite HD, HT. eval_num. split; [|split; [|split]].
        -- intros j Hj (s & t & Hs & Ht & Hnan).
           destruct (decide (j = i)) as [->|Hne].
           ++ rewrite Hstop in Hs. injection Hs as <-.
              rewrite Hnext in Ht. injection Ht as <-. congruence.
           ++ apply (Hnum j); [lia|]. exists s, t. auto.
        -- eexists. split; [reflexivity|]. lra.
        -- eexists. split; [reflexivity|].
           pose proof (Doubles_travel_minutes_nonneg d Hd0). lra.
        -- rewrite map_app, Hwps, Htake. cbn [map]. rewrite stop_of_waypoint_at.
           reflexivity.
      * rewrite HD, HT. eval_num. split; [reflexivity|].
        exists i. split; [lia|]. exists stop, nextStop. auto.
    + rewrite HT. eval_num. split; [|split; [|split]].
      * intros j Hj. apply Hnum. lia.
      * exists D. auto.
      * exists T. auto.
      * rewrite map_app, Hwps, Htake. cbn [map]. rewrite stop_of_waypoint_at.
        reflexivity.
Qed.

Lemma Doubles_mock_loop e now stops :
  DoublesSpec.sound e ->
  DoublesSpec.mock_inv e stops (length stops)
    (for_range 0 (length stops) (Doubles.mock_body e now stops)
       (inr (Doubles.mkMockState (Num 0) (Num 0) []))).
Proof.
  intros Hsound. apply for_range_ind; [lia| |].
  - cbn. split; [intros; lia|]. split; [exists 0; split; [reflexivity|lra]|].
    split; [exists 0; split; [reflexivity|lra]|]. rewrite take_0. reflexivity.
  - intros i st Hi. apply Doubles_mock_body_inv; [exact Hsound|lia].
Qed.

(** What the fallback does with every list of stops: it throws when a leg
    of its order has the distance [NaN], and returns a route otherwise. *)
Lemma Doubles_getMockOptimizedRoute_outcome e now stops :
  DoublesSpec.sound e ->
  exists order,
    Doubles.optimizeStopOrder e stops = Some order /\
    order ≡ₚ stops /\
    ((length stops <= 2)%nat -> order = stops) /\
    ((3 <= length stops)%nat -> DoublesSpec.greedy_nearest_neighbor e stops order) /\
    ((exists i, DoublesSpec.NaN_leg e order i) ->
     Doubles.getMockOptimizedRoute e now stops = Some (inl RangeError)) /\
    ((forall i, ~ DoublesSpec.NaN_leg e order i) ->
     exists route,
       Doubles.getMockOptimizedRoute e now stops = Some (inr route) /\
       map stop_of (waypointsN route) = order /\
       DoublesSpec.not_negative (totalDistanceN route) /\
       DoublesSpec.not_negative (totalDurationN route) /\
       polylineN route = ""%string).
Proof.
  intros Hsound.
  destruct (Doubles_optimizeStopOrder_spec e stops) as (order & Hopt & Hperm & Hshort & Hgreedy).
  exists order. split; [exact Hopt|]. split; [exact Hperm|].
  split; [exact Hshort|]. split; [exact Hgreedy|].
  unfold Doubles.getMockOptimizedRoute. case_bool_decide as Hlen.
  - rewrite (Hshort ltac:(lia)) in *. split.
    + intros (i & s & t & Hs & Ht & _). exfalso.
      apply lookup_lt_Some in Hs, Ht. lia.
    + intros _. eexists. split; [reflexivity|].
      cbn [waypointsN totalDistanceN totalDurationN polylineN].
      rewrite stop_of_map_waypoint_at.
      split; [reflexivity|]. split; [exists 0; split; [reflexivity|lra]|].
      split; [exists 0; split; [reflexivity|lra]|reflexivity].
  - rewrite Hopt. pose proof (Doubles_mock_loop e now order Hsound) as Hinv.
    destruct (for_range 0 (length order) (Doubles.mock_body e now order)
                (inr (Doubles.mkMockState (Num 0) (Num 0) []))) as [error|st].
    + destruct Hinv as (-> & j & Hj & Hleg). split; [reflexivity|].
      intros Hnone. exfalso. exact (Hnone j Hleg).
    + destruct Hinv as (Hnum & (D & HD & HD0) & (T & HT & HT0) & Hwps).
      split.
      * intros (i & Hleg). exfalso. apply (Hnum i); [|exact Hleg].
        destruct Hleg as (s & t & Hs & Ht & _). apply lookup_lt_Some in Ht. lia.
      * intros _. eexists. split; [reflexivity|].
        cbn [waypointsN totalDistanceN totalDurationN polylineN].
        rewrite Hwps, firstn_all, HD, HT. cbn.
        split; [reflexivity|].
        split; [eexists; split; [reflexivity|apply Math_round_nonneg; exact HD0]|].
        split; [eexists; split; [reflexivity|lra]|reflexivity].
Qed.

(** C2.  In the arithmetic of the engine the fallback does not return a
    route for every list of stops.  The sequencer returns an order for every
    list: a permutation of the stops, of the same length, the list itself
    when it has at most two stops and otherwise the greedy nearest-neighbour
    order on the distances that the engine computes (first of the stops at
    minimal distance; a stop whose distance is [NaN] is never nearer).  When
    the distance of some leg of that order is [NaN], the fallback throws a
    [RangeError] instead of returning a route; when the distance of every leg
    is a number, it returns a route whose waypoints are the stops in that
    order and whose total distance and total duration are numbers that are
    not negative. *)
Theorem fallback_route_or_RangeError (e : Engine) (now : R) (stops : list Stop) :
  DoublesSpec.sound e ->
  exists order,
    Doubles.optimizeStopOrder e stops = Some order /\
    order ≡ₚ stops /\ length order = length stops /\
    ((length stops <= 2)%nat -> order = stops) /\
    ((3 <= length stops)%nat -> DoublesSpec.greedy_nearest_neighbor e stops order) /\
    ((exists i, DoublesSpec.NaN_leg e order i) ->
     Doubles.getMockOptimizedRoute e now stops = Some (inl RangeError)) /\
    ((forall i, ~ DoublesSpec.NaN_leg e order i) ->
     exists route,
       Doubles.getMockOptimizedRoute e now stops = Some (inr route) /\
       map stop_of (waypointsN route) = order /\
       length (waypointsN route) = length stops /\
       DoublesSpec.not_negative (totalDistanceN route) /\
       DoublesSpec.not_negative (totalDurationN route)).
Proof.
  intros Hsound.
  destruct (Doubles_getMockOptimizedRoute_outcome e now stops Hsound)
    as (order & Hopt & Hperm & Hshort & Hgreedy & Hthrow & Hroute).
  exists order. split; [exact Hopt|]. split; [exact Hperm|].
  split; [apply Permutation_length; exact Hperm|].
  split; [exact Hshort|]. split; [exact Hgreedy|]. split; [exact Hthrow|].
  intros Hnone. destruct (Hroute Hnone) as (route & Hrun & Hwps & HD & HT & _).
  exists route. split; [exact Hrun|]. split; [exact Hwps|].
  split; [|split; assumption].
  rewrite <- (length_map stop_of), Hwps. apply Permutation_length. exact Hperm.
Qed.

(** The engine of the example. *)
Lemma at_stop_true s : at_stop (latitude s) (longitude s) s = true.
Proof.
  unfold at_stop. destruct (Req_dec_T (latitude s) (latitude s)); [|contradiction].
  destruct (Req_dec_T (longitude s) (longitude s)); [reflexivity|contradiction].
Qed.

Lemma at_stop_false_latitude lat lon s : lat <> latitude s -> at_stop lat lon s = false.
Proof.
  intros Hne. unfold at_stop. destruct (Req_dec_T lat (latitude s)); [contradiction|reflexivity].
Qed.

Lemma NaN_between_S_and_T_sound : DoublesSpec.sound NaN_between_S_and_T.
Proof.
  intros lat1 lon1 lat2 lon2 d. cbn [haversine NaN_between_S_and_T].
  destruct (_ || _); [discriminate|].
  intros Hd. injection Hd as <-. apply calculateHaversineDistance_nonneg.
Qed.

Lemma distance_S_T : Doubles.stop_distance NaN_between_S_and_T stopS stopT = NaN.
Proof.
  unfold Doubles.stop_distance. cbn [haversine NaN_between_S_and_T].
  rewrite (at_stop_true stopS), (at_stop_true stopT). reflexivity.
Qed.

Lemma distance_S_X :
  Doubles.stop_distance NaN_between_S_and_T stopS stopX = Num (stop_distance stopS stopX).
Proof.
  unfold Doubles.stop_distance. cbn [haversine NaN_between_S_and_T].
  rewrite (at_stop_false_latitude (latitude stopX) _ stopT) by (cbn; lra).
  rewrite (at_stop_false_latitude (latitude stopX) _ stopS) by (cbn; lra).
  rewrite !andb_false_r. reflexivity.
Qed.

Lemma distance_X_T :
  Doubles.stop_distance NaN_between_S_and_T stopX stopT = Num (stop_distance stopX stopT).
Proof.
  unfold Doubles.stop_distance. cbn [haversine NaN_between_S_and_T].
  rewrite (at_stop_false_latitude (latitude stopX) _ stopT) by (cbn; lra).
  rewrite (at_stop_false_latitude (latitude stopX) _ stopS) by (cbn; lra).
  reflexivity.
Qed.

Lemma fallback_route_or_RangeError_witness :
  DoublesSpec.sound NaN_between_S_and_T /\
  Doubles.getMockOptimizedRoute NaN_between_S_and_T 0 [stopS; stopT]
    = Some (inl RangeError).
Proof.
  split; [exact NaN_between_S_and_T_sound|].
  destruct (fallback_route_or_RangeError NaN_between_S_and_T 0 [stopS; stopT]
              NaN_between_S_and_T_sound)
    as (order & _ & _ & _ & Hshort & _ & Hthrow & _).
  apply Hthrow. rewrite (Hshort ltac:(cbn; lia)).
  exists 0%nat, stopS, stopT. repeat split. exact distance_S_T.
Defined.

(** ** The metrics in the arithmetic of the engine *)

Lemma Doubles_original_body_inv e stops i st :
  DoublesSpec.sound e -> (i < length stops - 1)%nat ->
  DoublesSpec.original_inv e stops i st ->
  DoublesSpec.original_inv e stops (S i) (Doubles.original_body e stops i st).
Proof.
  intros Hsound Hi Hinv. unfold Doubles.original_body. destruct st as [D T].
  assert (Hi0 : (i < length stops)%nat) by lia.
  assert (Hi1 : (i + 1 < length stops)%nat) by lia.
  destruct (lookup_lt_is_Some_2 stops i Hi0) as [s Hs].
  destruct (lookup_lt_is_Some_2 stops (i + 1)%nat Hi1) as [t Ht].
  rewrite Hs, Ht.
  destruct Hinv as [((D' & HD & HD0) & (T' & HT & HT0) & Hnum)|(Hst & j & Hj & Hleg)].
  - cbn [fst snd] in HD, HT. subst D T.
    destruct (Doubles.stop_distance e s t) as [d|] eqn:Hd.
    + pose proof (Doubles_stop_distance_sound e s t d Hsound Hd) as Hd0.
      pose proof (Doubles_travel_minutes_nonneg d Hd0) as Hm.
      left. case_bool_decide; eval_num.
      all: split; [eexists; split; [reflexivity|lra]|].
      all: split; [eexists; split; [reflexivity|lra]|].
      all: intros j Hj (s' & t' & Hs' & Ht' & Hnan).
      all: destruct (decide (j = i)) as [->|Hne];
        [rewrite Hs in Hs'; injection Hs' as <-; rewrite Ht in Ht'; injection Ht' as <-;
         congruence
        |apply (Hnum j); [lia|exists s', t'; auto]].
    + right. case_bool_decide; eval_num.
      all: split; [reflexivity|]; exists i; split; [lia|]; exists s, t; auto.
  - injection Hst as -> ->. right.
    split; [case_bool_decide; reflexivity|]. exists j. split; [lia|exact Hleg].
Qed.

(** The baseline: two numbers that are not negative, or twice [NaN] when
    the distance of a leg of the list is [NaN]. *)
Lemma Doubles_calculateOriginalRouteMetrics_outcome e stops :
  DoublesSpec.sound e ->
  ((forall i, ~ DoublesSpec.NaN_leg e stops i) ->
   DoublesSpec.not_negative (fst (Doubles.calculateOriginalRouteMetrics e stops)) /\
   DoublesSpec.not_negative (snd (Doubles.calculateOriginalRouteMetrics e stops))) /\
  ((exists i, DoublesSpec.NaN_leg e stops i) ->
   Doubles.calculateOriginalRouteMetrics e stops = (NaN, NaN)).
Proof.
  intros Hsound. unfold Doubles.calculateOriginalRouteMetrics.
  case_bool_decide as Hlen.
  - split.
    + intros _. cbn [fst snd]. split; exists 0; split; try reflexivity; lra.
    + intros (i & s & t & Hs & Ht & _). exfalso.
      apply lookup_lt_Some in Hs, Ht. lia.
  - assert (Hinv : DoublesSpec.original_inv e stops (length stops - 1)
                     (for_range 0 (length stops - 1) (Doubles.original_body e stops)
                        (Num 0, Num 0))).
    { apply for_range_ind; [lia| |].
      - left. cbn [fst snd]. split; [exists 0; split; [reflexivity|lra]|].
        split; [exists 0; split; [reflexivity|lra]|]. intros; lia.
      - intros i st Hi. apply Doubles_original_body_inv; [exact Hsound|lia]. }
    destruct (for_range 0 (length stops - 1) (Doubles.original_body e stops) (Num 0, Num 0))
      as [D T].
    destruct Hinv as [((D' & HD & HD0) & (T' & HT & HT0) & Hnum)|(Hst & j & Hj & Hleg)].
    + cbn [fst snd] in HD, HT. subst D T. eval_num. split.
      * intros _. split; eexists; (split; [reflexivity|]);
          [apply Math_round_nonneg; exact HD0|lra].
      * intros (i & Hleg). exfalso. apply (Hnum i); [|exact Hleg].
        destruct Hleg as (s & t & Hs & Ht & _). apply lookup_lt_Some in Ht. lia.
    + injection Hst as -> ->. split; [|reflexivity].
      intros Hnone. exfalso. exact (Hnone j Hleg).
Qed.

Lemma not_negative_max x : DoublesSpec.not_negative (Num (Math_max 0 x)).
Proof. exists (Math_max 0 x). split; [reflexivity|apply Math_max_0_nonneg]. Qed.

Lemma integer_max_round x : exists z, Num (Math_max 0 (Math_round x)) = Num (IZR z).
Proof. destruct (Math_max_0_round_integer x) as [z Hz]. exists z. rewrite Hz. reflexivity. Qed.

(** C5.  In the arithmetic of the engine the metrics calculator clamps
    numbers only.  For a route whose totals are numbers: when the distance
    of every leg of the original list is a number, the five savings and the
    three improvement percentages are numbers that are not negative, the
    percentages are integers, and a percentage is 0 when its baseline is 0;
    when the distance of some leg of the original list is [NaN], the five
    savings are [NaN], which [Math.max (0, ...)] lets through, and the three
    percentages are 0. *)
Theorem metrics_not_negative_or_NaN (e : Engine) (optimizedRoute : OptimizedRouteN)
    (originalStops : list Stop) (routeDistance routeDuration : R) :
  DoublesSpec.sound e ->
  totalDistanceN optimizedRoute = Num routeDistance ->
  totalDurationN optimizedRoute = Num routeDuration ->
  let m := Doubles.calculateOptimizationMetrics e optimizedRoute originalStops in
  let eff := optimizationEfficiencyN m in
  let baseline := Doubles.calculateOriginalRouteMetrics e originalStops in
  ((forall i, ~ DoublesSpec.NaN_leg e originalStops i) ->
   (DoublesSpec.not_negative (timeSavedN m) /\
    DoublesSpec.not_negative (distanceSavedN m) /\
    DoublesSpec.not_negative (fuelSavedN m) /\
    DoublesSpec.not_negative (co2SavedN m) /\
    DoublesSpec.not_negative (costSavedN m)) /\
   (DoublesSpec.not_negative (timeImprovementN eff) /\
    DoublesSpec.not_negative (distanceImprovementN eff) /\
    DoublesSpec.not_negative (fuelEfficiencyN eff)) /\
   ((exists z, timeImprovementN eff = Num (IZR z)) /\
    (exists z, distanceImprovementN eff = Num (IZR z)) /\
    fuelEfficiencyN eff = distanceImprovementN eff) /\
   (snd baseline = Num 0 -> timeImprovementN eff = Num 0) /\
   (fst baseline = Num 0 -> distanceImprovementN eff = Num 0)) /\
  ((exists i, DoublesSpec.NaN_leg e originalStops i) ->
   timeSavedN m = NaN /\ distanceSavedN m = NaN /\ fuelSavedN m = NaN /\
   co2SavedN m = NaN /\ costSavedN m = NaN /\
   timeImprovementN eff = Num 0 /\ distanceImprovementN eff = Num 0 /\
   fuelEfficiencyN eff = Num 0).
Proof.
  intros Hsound HrD HrT. cbv zeta.
  destruct (Doubles_calculateOriginalRouteMetrics_outcome e originalStops Hsound)
    as [Hnum Hnan].
  unfold Doubles.calculateOptimizationMetrics. cbv zeta. rewrite HrD, HrT.
  split.
  - intros Hnone. destruct (Hnum Hnone) as [(bd & Hbd & Hbd0) (bt & Hbt & Hbt0)].
    destruct (Doubles.calculateOriginalRouteMetrics e originalStops) as [bD bT].
    cbn [fst snd] in Hbd, Hbt. subst bD bT.
    cbn [fst snd timeSavedN distanceSavedN fuelSavedN co2SavedN costSavedN
         optimizationEfficiencyN timeImprovementN distanceImprovementN fuelEfficiencyN].
    eval_num.
    destruct (Rlt_dec (routeDistance / 1000) 50); eval_num.
    all: destruct (Rlt_dec 0 bt) as [Hpt|Hzt]; eval_num.
    all: destruct (Rlt_dec 0 bd) as [Hpd|Hzd]; eval_num.
    all: split; [repeat split; apply not_negative_max|].
    all: split; [repeat split; apply not_negative_max|].
    all: split;
      [split; [apply integer_max_round|split; [apply integer_max_round|reflexivity]]|].
    all: split; intros Hz; injection Hz as ->; try lra.
    all: rewrite Math_round_0, Math_max_0_nonpos by lra; reflexivity.
  - intros Hleg. rewrite (Hnan Hleg).
    cbn [fst snd timeSavedN distanceSavedN fuelSavedN co2SavedN costSavedN
         optimizationEfficiencyN timeImprovementN distanceImprovementN fuelEfficiencyN].
    eval_num. destruct (Rlt_dec (routeDistance / 1000) 50); eval_num.
    all: rewrite Math_round_0, Math_max_0_nonpos by lra; repeat split.
Qed.

Lemma Doubles_optimizeStopOrder_S_T_X :
  Doubles.optimizeStopOrder NaN_between_S_and_T [stopS; stopT; stopX]
    = Some [stopS; stopX; stopT].
Proof.
  unfold Doubles.optimizeStopOrder. rewrite bool_decide_false by (cbn; lia).
  cbn [length Doubles.nearest_neighbor_loop].
  unfold Doubles.nearest_scan, for_range.
  cbn [length Nat.sub seq fold_left Doubles.scan_body lookup list_lookup Nat.add].
  rewrite distance_S_T. cbn [Doubles.scan_body lookup list_lookup].
  rewrite distance_S_X. cbn [lt_inf fst lookup list_lookup delete list_delete app].
  cbn [length Nat.sub seq fold_left Doubles.scan_body lookup list_lookup Nat.add].
  rewrite distance_X_T. cbn [lt_inf fst lookup list_lookup delete list_delete app].
  reflexivity.
Qed.

Lemma no_NaN_leg_S_X_T i : ~ DoublesSpec.NaN_leg NaN_between_S_and_T [stopS; stopX; stopT] i.
Proof.
  intros (s & t & Hs & Ht & Hnan).
  destruct i as [|[|i]]; cbn in Hs, Ht.
  - injection Hs as <-. injection Ht as <-. rewrite distance_S_X in Hnan. discriminate.
  - injection Hs as <-. injection Ht as <-. rewrite distance_X_T in Hnan. discriminate.
  - destruct i; discriminate.
Qed.

Lemma metrics_not_negative_or_NaN_witness :
  exists route,
    Doubles.getMockOptimizedRoute NaN_between_S_and_T 0 [stopS; stopT; stopX]
      = Some (inr route) /\
    map stop_of (waypointsN route) = [stopS; stopX; stopT] /\
    timeSavedN (Doubles.calculateOptimizationMetrics NaN_between_S_and_T route
                  [stopS; stopT; stopX]) = NaN /\
    costSavedN (Doubles.calculateOptimizationMetrics NaN_between_S_and_T route
                  [stopS; stopT; stopX]) = NaN.
Proof.
  destruct (Doubles_getMockOptimizedRoute_outcome NaN_between_S_and_T 0
              [stopS; stopT; stopX] NaN_between_S_and_T_sound)
    as (order & Hopt & _ & _ & _ & _ & Hroute).
  rewrite Doubles_optimizeStopOrder_S_T_X in Hopt. injection Hopt as <-.
  destruct (Hroute no_NaN_leg_S_X_T) as (route & Hrun & Hwps & (D & HD & _) & (T & HT & _) & _).
  exists route. split; [exact Hrun|]. split; [exact Hwps|].
  destruct (metrics_not_negative_or_NaN NaN_between_S_and_T route [stopS; stopT; stopX]
              D T NaN_between_S_and_T_sound HD HT) as [_ Hnan].
  destruct Hnan as (Ht & _ & _ & _ & Hc & _).
  - exists 0%nat, stopS, stopT. repeat split. exact distance_S_T.
  - split; [exact Ht|exact Hc].
Defined.

(** ** Exact arithmetic is one of the engines

    With the engine of exact arithmetic the methods of this section are
    those of [GoogleMapsService] and [Metrics]. *)

Lemma for_range_rel {S S' : Type} (Rel : S -> S' -> Prop) lo hi
    (body : nat -> S -> S) (body' : nat -> S' -> S') s s' :
  Rel s s' ->
  (forall i st st', Rel st st' -> Rel (body i st) (body' i st')) ->
  Rel (for_range lo hi body s) (for_range lo hi body' s').
Proof.
  intros H0 Hstep. unfold for_range.
  generalize (seq lo (hi - lo)). intros l. revert s s' H0.
  induction l as [|i l IH]; intros s s' H0; [exact H0|].
  cbn [fold_left]. apply IH. apply Hstep. exact H0.
Qed.

Lemma Doubles_nearest_scan_exact cur rem :
  Doubles.nearest_scan DoublesSpec.exact cur rem = nearest_scan cur rem.
Proof.
  unfold Doubles.nearest_scan, nearest_scan.
  apply (for_range_rel eq); [reflexivity|].
  intros i st st' <-. destruct st as [idx sd].
  unfold Doubles.scan_body, scan_body. destruct (rem !! i); reflexivity.
Qed.

Lemma Doubles_nearest_neighbor_loop_exact fuel cur rem opt :
  Doubles.nearest_neighbor_loop DoublesSpec.exact fuel cur rem opt
  = nearest_neighbor_loop fuel cur rem opt.
Proof.
  revert cur rem opt. induction fuel as [|fuel IH]; intros cur rem opt;
    destruct rem as [|r0 rem0]; try reflexivity.
  cbn [Doubles.nearest_neighbor_loop nearest_neighbor_loop].
  rewrite Doubles_nearest_scan_exact.
  destruct (_ !! _); [apply IH|reflexivity].
Qed.

Lemma Doubles_optimizeStopOrder_exact stops :
  Doubles.optimizeStopOrder DoublesSpec.exact stops = optimizeStopOrder stops.
Proof.
  unfold Doubles.optimizeStopOrder, optimizeStopOrder.
  case_bool_decide; [reflexivity|].
  destruct stops; [reflexivity|]. apply Doubles_nearest_neighbor_loop_exact.
Qed.

Lemma Doubles_getMockOptimizedRoute_exact now stops :
  Doubles.getMockOptimizedRoute DoublesSpec.exact now stops
  = (fun r => inr (DoublesSpec.route_of_numbers r)) <$> getMockOptimizedRoute now stops.
Proof.
  unfold Doubles.getMockOptimizedRoute, getMockOptimizedRoute.
  case_bool_decide; [reflexivity|].
  rewrite Doubles_optimizeStopOrder_exact.
  destruct (optimizeStopOrder stops) as [order|]; [|reflexivity].
  cbn [fmap option_fmap option_map].
  pose proof (for_range_rel
                (fun (st : Error + Doubles.MockState) (st' : MockState) =>
                   st = inr (Doubles.mkMockState (Num (ms_totalDistance st'))
                               (Num (ms_totalDuration st')) (ms_waypoints st')))
                0 (length order) (Doubles.mock_body DoublesSpec.exact now order)
                (mock_body now order)
                (inr (Doubles.mkMockState (Num 0) (Num 0) [])) (mkMockState 0 0 [])
                eq_refl) as Hrel.
  rewrite Hrel; [reflexivity|].
  intros i st st' ->. unfold Doubles.mock_body, mock_body.
  destruct (order !! i) as [stop|]; [|reflexivity].
  case_bool_decide; [|reflexivity].
  destruct (order !! (i + 1)%nat) as [nextStop|]; reflexivity.
Qed.

Lemma Doubles_calculateOriginalRouteMetrics_exact stops :
  Doubles.calculateOriginalRouteMetrics DoublesSpec.exact stops
  = (Num (fst (calculateOriginalRouteMetrics stops)),
     Num (snd (calculateOriginalRouteMetrics stops))).
Proof.
  unfold Doubles.calculateOriginalRouteMetrics, calculateOriginalRouteMetrics.
  case_bool_decide; [reflexivity|].
  pose proof (for_range_rel
                (fun (st : JsNumber * JsNumber) (st' : R * R) =>
                   st = (Num (fst st'), Num (snd st')))
                0 (length stops - 1) (Doubles.original_body DoublesSpec.exact stops)
                (original_body stops) (Num 0, Num 0) (0, 0) eq_refl) as Hrel.
  rewrite Hrel.
  - destruct (for_range 0 (length stops - 1) (original_body stops) (0, 0)). reflexivity.
  - intros i st st' ->. destruct st' as [D T].
    unfold Doubles.original_body, original_body. cbn [fst snd].
    destruct (stops !! i); [|reflexivity].
    destruct (stops !! (i + 1)%nat); [|reflexivity].
    case_bool_decide; reflexivity.
Qed.

Lemma Doubles_calculateOptimizationMetrics_exact route stops :
  Doubles.calculateOptimizationMetrics DoublesSpec.exact
    (DoublesSpec.route_of_numbers route) stops
  = DoublesSpec.metrics_of_numbers (calculateOptimizationMetrics route stops).
Proof.
  unfold Doubles.calculateOptimizationMetrics, calculateOptimizationMetrics.
  cbv zeta. rewrite Doubles_calculateOriginalRouteMetrics_exact.
  unfold DoublesSpec.metrics_of_numbers, DoublesSpec.route_of_numbers.
  cbn [fst snd totalDistanceN totalDurationN timeSaved distanceSaved fuelSaved co2Saved
       costSaved optimizationEfficiency timeImprovement distanceImprovement
       fuelEfficiency].
  eval_num.
  destruct (Rlt_dec (totalDistance route / 1000) 50);
    destruct (Rlt_dec 0 (snd (calculateOriginalRouteMetrics stops)));
    destruct (Rlt_dec 0 (fst (calculateOriginalRouteMetrics stops)));
    reflexivity.
Qed.

Close Scope R_scope.

(** ** The request life cycle *)

Lemma status_sequence_app id es1 es2 :
  status_sequence id (es1 ++ es2) = status_sequence id es1 ++ status_sequence id es2.
Proof. unfold status_sequence. apply omap_app. Qed.

Lemma routes_of_app id w r :
  List.filter (fun r => String.eqb (rt_requestId r) id) (optimizedRoutes w ++ [r]) =
  routes_of id w ++ (if String.eqb (rt_requestId r) id then [r] else []).
Proof. unfold routes_of. rewrite List.filter_app. reflexivity. Qed.

(** Symbolic execution of a method in the monad. *)
Ltac run_async :=
  unfold optimizeRoute, request_create, request_update, route_create, publishEvent,
    broadcast;
  unfold try_catch, mbind, M_bind, bind, guard, throw, mret, M_ret, ret, write, record,
    lift;
  cbn [requests optimizedRoutes routeUpdates effects rq_status rt_requestId].

(** Case analysis on the outcomes that the run consults. *)
Ltac crunch :=
  repeat first
    [ progress cbv beta iota
    | progress cbn [requests optimizedRoutes routeUpdates effects rq_status rt_requestId
                    rq_vehicleId rq_userId rq_stops rq_preferences rq_completedAt snd fst]
    | rewrite lookup_insert_eq
    | rewrite insert_insert_eq
    | match goal with
      | |- context [match ?f ?o with _ => _ end] =>
          match type of o with Outcomes => destruct (f o) eqn:? end
      | |- context [if publish_rejected ?o then _ else _] =>
          destruct (publish_rejected o) eqn:?
      | |- context [match GoogleMapsService.optimizeRoute ?a ?b ?c ?d with _ => _ end] =>
          destruct (GoogleMapsService.optimizeRoute a b c d) eqn:?
      end ].

(** Evaluation of the observations on the final world. *)
Ltac tidy Hreq Hroutes Hseq :=
  unfold persisted_status, persisted_completedAt, routes_of in Hroutes |- *;
  cbn [requests optimizedRoutes routeUpdates effects snd fst];
  rewrite ?lookup_insert_eq, ?Hreq;
  rewrite ?status_sequence_app, ?List.filter_app, ?Hroutes, ?Hseq;
  unfold status_sequence;
  cbn [omap list_omap status_of_effect app rt_requestId rq_status rq_completedAt
       fmap option_fmap option_map mbind option_bind List.filter];
  rewrite ?String.eqb_refl;
  cbn [app length].

(** C1, amended.  For a submission with a new request id the statuses
    persisted for the request are [], [PROCESSING], [PROCESSING, COMPLETED]
    or [PROCESSING, FAILED], the stored status is the last of them, and a
    request stored as COMPLETED owns exactly one route.  When the store
    rejects none of the writes of the submission the sequence is exactly
    [PROCESSING, COMPLETED] or [PROCESSING, FAILED], a route exists for the
    request if and only if its status is COMPLETED, and a FAILED request has
    none. *)
Theorem lifecycle_status_traces (o : Outcomes) (apiKey : string) (now : R)
    (id : string) (dto : OptimizeRouteDto) (user : string) (w : World) :
  fresh id w ->
  let w' := snd (optimizeRoute o apiKey now id dto user w) in
  let trace := status_sequence id (effects w') in
  (trace = [] \/ trace = [PROCESSING] \/ trace = [PROCESSING; COMPLETED]
   \/ trace = [PROCESSING; FAILED]) /\
  persisted_status id w' = last trace /\
  (persisted_status id w' = Some COMPLETED -> length (routes_of id w') = 1%nat) /\
  (request_create_fault o = None -> route_create_fault o = None ->
   update_completed_fault o = None -> update_failed_fault o = None ->
   (trace = [PROCESSING; COMPLETED] \/ trace = [PROCESSING; FAILED]) /\
   (length (routes_of id w') = 1%nat <-> persisted_status id w' = Some COMPLETED) /\
   (persisted_status id w' = Some FAILED -> routes_of id w' = [])).
Proof.
  intros (Hreq & Hroutes & Hseq). cbv zeta.
  run_async. rewrite Hreq. crunch; rewrite ?Hreq; crunch.
  all: tidy Hreq Hroutes Hseq.
  all: repeat split; intros; try congruence; try discriminate; auto 6.
  all: try (exfalso; simpl in *; congruence).
Qed.

Lemma pushes_app event es1 es2 :
  pushes event (es1 ++ es2) = pushes event es1 ++ pushes event es2.
Proof. unfold pushes. apply omap_app. Qed.


Lemma fresh_empty_world id : fresh id empty_world.
Proof. repeat split. Qed.




Lemma optimizeRoute_completed_update_rejected o apiKey now id dto user w route e :
  fresh id w ->
  request_create_fault o = None ->
  GoogleMapsService.optimizeRoute apiKey now (provider_response o) (dto_stops dto)
    = inr route ->
  route_create_fault o = None ->
  update_completed_fault o = Some e ->
  update_failed_fault o = None ->
  let r := optimizeRoute o apiKey now id dto user w in
  fst r = inl e /\
  status_sequence id (effects (snd r)) = [PROCESSING; FAILED] /\
  persisted_status id (snd r) = Some FAILED /\
  length (routes_of id (snd r)) = 1%nat.
Proof.
  intros (Hreq & Hroutes & Hseq) H1 H2 H3 H4 H5. cbv zeta.
  run_async. rewrite Hreq, H1, H2, H3.
  crunch; rewrite ?H4; crunch; rewrite ?H5; crunch.
  all: tidy Hreq Hroutes Hseq.
  all: repeat split; congruence.
Qed.

Lemma optimizeRoute_success_path o apiKey now id dto user w route :
  fresh id w ->
  request_create_fault o = None ->
  GoogleMapsService.optimizeRoute apiKey now (provider_response o) (dto_stops dto)
    = inr route ->
  route_create_fault o = None ->
  update_completed_fault o = None ->
  let r := optimizeRoute o apiKey now id dto user w in
  fst r = inr (mkRouteResponse id (totalDistance route) (totalDuration route)
                 (waypoints route) (calculateOptimizationMetrics route (dto_stops dto))) /\
  status_sequence id (effects (snd r)) = [PROCESSING; COMPLETED] /\
  persisted_status id (snd r) = Some COMPLETED /\
  length (routes_of id (snd r)) = 1%nat /\
  pushes "route_optimization_requested" (effects (snd r)) =
    pushes "route_optimization_requested" (effects w) ++ ["route:" +:+ id].
Proof.
  intros (Hreq & Hroutes & Hseq) H1 H2 H3 H4. cbv zeta.
  run_async. rewrite Hreq, H1, H2, H3.
  crunch; rewrite ?H4; crunch.
  all: tidy Hreq Hroutes Hseq; rewrite ?pushes_app; cbn [pushes omap list_omap];
      rewrite ?app_nil_r.
  all: repeat split; congruence.
Qed.

Lemma lifecycle_status_traces_witness :
  let w' := snd (optimizeRoute all_accepted "" 0 "req-1" dto_one_stop "user-1" empty_world) in
  let trace := status_sequence "req-1" (effects w') in
  (trace = [] \/ trace = [PROCESSING] \/ trace = [PROCESSING; COMPLETED]
   \/ trace = [PROCESSING; FAILED]) /\
  persisted_status "req-1" w' = last trace /\
  (persisted_status "req-1" w' = Some COMPLETED -> length (routes_of "req-1" w') = 1%nat) /\
  (request_create_fault all_accepted = None -> route_create_fault all_accepted = None ->
   update_completed_fault all_accepted = None -> update_failed_fault all_accepted = None ->
   (trace = [PROCESSING; COMPLETED] \/ trace = [PROCESSING; FAILED]) /\
   (length (routes_of "req-1" w') = 1%nat <-> persisted_status "req-1" w' = Some COMPLETED) /\
   (persisted_status "req-1" w' = Some FAILED -> routes_of "req-1" w' = [])).
Proof.
  apply (lifecycle_status_traces all_accepted "" 0 "req-1" dto_one_stop "user-1" empty_world).
  apply fresh_empty_world.
Defined.

(** C1 as stated fails: when the route is stored and the COMPLETED update
    is rejected, the request ends FAILED and owns a route. *)
Lemma failed_request_with_route :
  let r := optimizeRoute completed_update_rejected "" 0 "req-1" dto_one_stop "user-1"
             empty_world in
  fresh "req-1" empty_world /\
  status_sequence "req-1" (effects (snd r)) = [PROCESSING; FAILED] /\
  persisted_status "req-1" (snd r) = Some FAILED /\
  length (routes_of "req-1" (snd r)) = 1%nat /\
  routes_of "req-1" (snd r) <> [].
Proof.
  cbv zeta. split; [apply fresh_empty_world|].
  destruct (optimizeRoute_completed_update_rejected completed_update_rejected "" 0 "req-1"
              dto_one_stop "user-1" empty_world
              (mkOptimizedRoute 0 0 [waypoint_at stopA 0] "")
              (PrismaError "connection lost")
              (fresh_empty_world _) eq_refl eq_refl eq_refl eq_refl eq_refl)
    as (_ & H2 & H3 & H4).
  split; [exact H2|]. split; [exact H3|]. split; [exact H4|].
  intros Hnil. rewrite Hnil in H4. discriminate.
Qed.

(** The service itself does not look at the stop list: called with an
    empty one and no provider, it persists the request, pushes the
    notification and completes the request.  The check is the one of the
    pipe in front of the handler. *)
Lemma service_accepts_empty_stop_list :
  let r := optimizeRoute all_accepted "" 0 "req-1" dto_no_stops "user-1" empty_world in
  dto_stops dto_no_stops = [] /\
  (exists response, fst r = inr response) /\
  persisted_status "req-1" (snd r) = Some COMPLETED /\
  status_sequence "req-1" (effects (snd r)) = [PROCESSING; COMPLETED] /\
  pushes "route_optimization_requested" (effects (snd r)) = ["route:req-1"].
Proof.
  cbv zeta. split; [reflexivity|].
  destruct (optimizeRoute_success_path all_accepted "" 0 "req-1" dto_no_stops "user-1"
              empty_world (mkOptimizedRoute 0 0 [] "")
              (fresh_empty_world _) eq_refl eq_refl eq_refl eq_refl)
    as (H1 & H2 & H3 & _ & H5).
  split; [eexists; exact H1|]. split; [exact H3|]. split; [exact H2|exact H5].
Qed.

(** C7.  A submission with an empty stop list is rejected with a
    [ValidationError] before any persistence: whatever the user, the store,
    the bus and the provider are, the store is left as it was, so no
    request is created, and nothing is published or pushed: the statuses
    recorded for the request id and the pushes of every event are those of
    before.  (The schema is modelled from the specification.) *)
Theorem empty_stop_list_is_rejected (o : Outcomes) (apiKey : string) (now : R)
    (id : string) (body : OptimizeRouteDto) (req_user : option string) (w : World) :
  dto_stops body = [] ->
  let r := RouteOptimizationController.optimizeRoute o apiKey now id body req_user w in
  fst r = inl (ValidationError "Validation failed") /\
  snd r = w /\
  requests (snd r) !! id = requests w !! id /\
  routes_of id (snd r) = routes_of id w /\
  effects (snd r) = effects w /\
  status_sequence id (effects (snd r)) = status_sequence id (effects w) /\
  (forall event, pushes event (effects (snd r)) = pushes event (effects w)).
Proof.
  intros Hempty. cbv zeta.
  unfold RouteOptimizationController.optimizeRoute,
    RouteOptimizationController.optimizeRouteSchema.
  rewrite Hempty. cbn [length Nat.eqb negb]. unfold throw. cbn [fst snd].
  repeat split.
Qed.

Lemma empty_stop_list_is_rejected_witness :
  let r := RouteOptimizationController.optimizeRoute all_accepted "" 0 "req-1"
             dto_no_stops (Some "user-1") empty_world in
  fst r = inl (ValidationError "Validation failed") /\
  snd r = empty_world /\
  requests (snd r) !! "req-1" = None /\
  routes_of "req-1" (snd r) = [] /\
  effects (snd r) = [] /\
  status_sequence "req-1" (effects (snd r)) = [] /\
  (forall event, pushes event (effects (snd r)) = []).
Proof.
  apply (empty_stop_list_is_rejected all_accepted "" 0 "req-1" dto_no_stops
           (Some "user-1") empty_world).
  reflexivity.
Defined.

(** ** updateRoute *)

Lemma route_findFirst_None routeId vehicleId w :
  route_findFirst routeId vehicleId w = None <->
  (forall r, r ∈ optimizedRoutes w -> ~ (rt_id r = routeId /\ rt_vehicleId r = vehicleId)).
Proof.
  unfold route_findFirst. split.
  - intros Hnone r Hin [Hid Hv].
    apply list_elem_of_In in Hin.
    pose proof (find_none _ _ Hnone r Hin) as Hf. cbn beta in Hf.
    rewrite Hid, Hv, !String.eqb_refl in Hf. discriminate.
  - intros Hall. destruct (find _ _) as [r|] eqn:Hf; [|reflexivity].
    apply find_some in Hf as [Hin Hb]. apply andb_prop in Hb as [Hb1 Hb2].
    apply String.eqb_eq in Hb1, Hb2. exfalso.
    apply (Hall r); [apply list_elem_of_In; exact Hin|split; assumption].
Qed.

Lemma route_findFirst_Some routeId vehicleId w route :
  route_findFirst routeId vehicleId w = Some route ->
  route ∈ optimizedRoutes w /\ rt_id route = routeId /\ rt_vehicleId route = vehicleId.
Proof.
  unfold route_findFirst. intros Hf.
  apply find_some in Hf as [Hin Hb]. apply andb_prop in Hb as [Hb1 Hb2].
  apply String.eqb_eq in Hb1, Hb2. split; [apply list_elem_of_In; exact Hin|auto].
Qed.

(** The world after an update that the store accepts. *)
Lemma updateRoute_accepted o routeId updateDto vehicleId w route :
  route_findFirst routeId vehicleId w = Some route ->
  route_update_create_fault o = None ->
  let r := updateRoute o routeId updateDto vehicleId w in
  fst r = inr (mkUpdateResponse routeId vehicleId (upd_reason updateDto)
                 "Route update recorded successfully") /\
  requests (snd r) = requests w /\
  optimizedRoutes (snd r) = optimizedRoutes w /\
  routeUpdates (snd r) =
    routeUpdates w ++
    [mkRouteUpdate routeId vehicleId (upd_reason updateDto) (rt_waypoints route)] /\
  effects (snd r) =
    effects w ++ [RouteUpdateCreated routeId]
      ++ (if publish_rejected o then []
          else [Published "route-update-events" "ROUTE_UPDATE_REQUESTED"])
      ++ [Broadcast ("route:" +:+ routeId) "route_update_requested"].
Proof.
  intros Hfind Hfault. cbv zeta. unfold updateRoute. rewrite Hfind.
  unfold routeUpdate_create, publishEvent, broadcast.
  unfold try_catch, mbind, M_bind, bind, guard, throw, mret, M_ret, ret, write, record.
  rewrite Hfault. destruct (publish_rejected o);
    cbn [fst snd requests optimizedRoutes routeUpdates effects ru_routeId];
    rewrite <- ?app_assoc; repeat split.
Qed.

(** An update that the store rejects raises the error of the store and
    leaves no trace. *)
Lemma updateRoute_rejected o routeId updateDto vehicleId w route e :
  route_findFirst routeId vehicleId w = Some route ->
  route_update_create_fault o = Some e ->
  updateRoute o routeId updateDto vehicleId w = (inl e, w).
Proof.
  intros Hfind Hfault. unfold updateRoute. rewrite Hfind.
  unfold routeUpdate_create, publishEvent, broadcast.
  unfold try_catch, mbind, M_bind, bind, guard, throw, mret, M_ret, ret, write, record.
  rewrite Hfault. reflexivity.
Qed.

(** C8.  [updateRoute] on a route id and vehicle id that match no stored
    route raises [NotFoundException] and changes nothing: no update row, no
    event, no room push.  When a stored route matches, [findFirst] returns
    the first such route; no route and no request is changed; when the store
    accepts the new row, the call returns its response, exactly one update
    row is appended, which carries the waypoints of that route as they are,
    the event is published on the topic of the route updates unless the bus
    rejects it, and the push goes to the room of the route; when the store
    rejects the row, its error is raised and nothing is changed. *)
Theorem updateRoute_requires_matching_route (o : Outcomes) (routeId : string)
    (updateDto : RouteUpdateDto) (vehicleId : string) (w : World) :
  let r := updateRoute o routeId updateDto vehicleId w in
  ((forall route, route ∈ optimizedRoutes w ->
      ~ (rt_id route = routeId /\ rt_vehicleId route = vehicleId)) ->
   r = (inl (NotFoundException
               ("Route " +:+ routeId +:+ " not found for vehicle " +:+ vehicleId)), w)) /\
  ((exists route, route ∈ optimizedRoutes w /\
      rt_id route = routeId /\ rt_vehicleId route = vehicleId) ->
   exists route,
     route_findFirst routeId vehicleId w = Some route /\
     route ∈ optimizedRoutes w /\
     rt_id route = routeId /\ rt_vehicleId route = vehicleId /\
     optimizedRoutes (snd r) = optimizedRoutes w /\
     requests (snd r) = requests w /\
     (route_update_create_fault o = None ->
      fst r = inr (mkUpdateResponse routeId vehicleId (upd_reason updateDto)
                     "Route update recorded successfully") /\
      routeUpdates (snd r) =
        routeUpdates w ++
        [mkRouteUpdate routeId vehicleId (upd_reason updateDto) (rt_waypoints route)] /\
      effects (snd r) =
        effects w ++ [RouteUpdateCreated routeId]
          ++ (if publish_rejected o then []
              else [Published "route-update-events" "ROUTE_UPDATE_REQUESTED"])
          ++ [Broadcast ("route:" +:+ routeId) "route_update_requested"]) /\
     (forall e, route_update_create_fault o = Some e -> r = (inl e, w))).
Proof.
  cbv zeta. split.
  - intros Hnone. apply (proj2 (route_findFirst_None routeId vehicleId w)) in Hnone.
    unfold updateRoute. rewrite Hnone. reflexivity.
  - intros (route0 & Hin & Hid & Hv).
    destruct (route_findFirst routeId vehicleId w) as [route|] eqn:Hfind.
    + exists route. split; [reflexivity|].
      pose proof (route_findFirst_Some _ _ _ _ Hfind) as (Hin' & Hid' & Hv').
      split; [exact Hin'|]. split; [exact Hid'|]. split; [exact Hv'|].
      destruct (route_update_create_fault o) as [e|] eqn:Hfault.
      * rewrite (updateRoute_rejected o routeId updateDto vehicleId w route e Hfind Hfault).
        cbn [fst snd]. split; [reflexivity|]. split; [reflexivity|].
        split; [discriminate|]. intros e' He'. injection He' as <-. reflexivity.
      * destruct (updateRoute_accepted o routeId updateDto vehicleId w route Hfind Hfault)
          as (Hres & Hrq & Hrt & Hup & Heff).
        split; [exact Hrt|]. split; [exact Hrq|].
        split; [intros _; repeat split; assumption|]. discriminate.
    + pose proof (proj1 (route_findFirst_None _ _ _) Hfind) as Hnone.
      exfalso. apply (Hnone route0 Hin). auto.
Qed.

(** ** The gateway *)

Lemma rooms_joined_app c l1 l2 :
  rooms_joined c (l1 ++ l2) = rooms_joined c l1 ++ rooms_joined c l2.
Proof. unfold rooms_joined. apply omap_app. Qed.

Lemma extract_token_none h : presents_no_token h -> truthy (extract_token h) = false.
Proof.
  intros (Hc & Ha & Hh). unfold extract_token. rewrite Hc. cbn [negb].
  unfold or_else. rewrite Ha. exact Hh.
Qed.

Lemma absent_everywhere_presents_no_token h :
  hs_cookie h = None -> hs_auth_token h = None -> hs_authorization h = None ->
  presents_no_token h.
Proof.
  intros Hc Ha Hh. unfold presents_no_token. rewrite Hc, Ha, Hh. repeat split.
Qed.

Lemma handleConnection_rejected cfg client g :
  (truthy (extract_token (handshake client)) = false \/
   exists token error,
     extract_token (handshake client) = Some token /\ verify_token cfg token = inl error) ->
  handleConnection cfg client g =
    mkGateway (connectedClients g) (actions g ++ [Disconnected (socket_id client)]).
Proof.
  intros Hrej. unfold handleConnection.
  destruct (extract_token (handshake client)) as [tok|] eqn:Htok; [|reflexivity].
  destruct Hrej as [Hfalsy|(token & error & Heq & Hver)].
  - rewrite Hfalsy. reflexivity.
  - injection Heq as ->. rewrite Hver. destruct (truthy (Some token)); reflexivity.
Qed.

Lemma handleConnection_accepted cfg client g payload :
  passes_verification cfg (handshake client) payload ->
  handleConnection cfg client g =
    mkGateway (<[socket_id client := payload]> (connectedClients g))
      (actions g ++ [Joined (socket_id client) ("user:" +:+ userId payload)]
                 ++ [Emitted (socket_id client) "connected"]).
Proof.
  intros (token & Htok & Htruthy & Hver). unfold handleConnection.
  rewrite Htok, Htruthy, Hver. cbn [negb]. unfold act.
  cbn [connectedClients actions]. rewrite <- app_assoc. reflexivity.
Qed.

Lemma handleConnection_dichotomy cfg h :
  (truthy (extract_token h) = false \/
   exists token error, extract_token h = Some token /\ verify_token cfg token = inl error)
  \/ exists payload, passes_verification cfg h payload.
Proof.
  destruct (extract_token h) as [tok|] eqn:Htok.
  - destruct (truthy (Some tok)) eqn:Htr; [|left; left; reflexivity].
    destruct (verify_token cfg tok) as [e|payload] eqn:Hver.
    + left. right. exists tok, e. split; [reflexivity|exact Hver].
    + right. exists payload, tok. repeat split; assumption.
  - left. left. reflexivity.
Qed.

(** C10.  A connection that presents no token in the cookie, the handshake
    [auth] object or the [Authorization] header, or whose token fails
    verification, is disconnected, joins no room and leaves the registry of
    connected clients unchanged; a connection whose token passes verification
    is registered and joins the room of its user; and a socket absent from
    the registry is in it after [handleConnection] if and only if its token
    passes verification. *)
Theorem unauthenticated_connection_never_registered (cfg : GatewayConfig)
    (client : Socket) (g : Gateway) :
  let g' := handleConnection cfg client g in
  ((presents_no_token (handshake client) \/
    exists token error,
      extract_token (handshake client) = Some token /\
      verify_token cfg token = inl error) ->
   connectedClients g' = connectedClients g /\
   actions g' = actions g ++ [Disconnected (socket_id client)] /\
   rooms_joined (socket_id client) (actions g') = rooms_joined (socket_id client) (actions g)) /\
  (forall payload,
     passes_verification cfg (handshake client) payload ->
     connectedClients g' !! socket_id client = Some payload /\
     rooms_joined (socket_id client) (actions g') =
       rooms_joined (socket_id client) (actions g) ++ ["user:" +:+ userId payload]) /\
  (connectedClients g !! socket_id client = None ->
   (is_Some (connectedClients g' !! socket_id client) <->
    exists payload, passes_verification cfg (handshake client) payload)).
Proof.
  cbv zeta. split; [|split].
  - intros Hrej.
    assert (Hrej' : truthy (extract_token (handshake client)) = false \/
                    exists token error,
                      extract_token (handshake client) = Some token /\
                      verify_token cfg token = inl error).
    { destruct Hrej as [Hno|Hver]; [left; apply extract_token_none; exact Hno|right; exact Hver]. }
    rewrite (handleConnection_rejected cfg client g Hrej').
    cbn [connectedClients actions]. repeat split.
    rewrite rooms_joined_app. cbn. apply app_nil_r.
  - intros payload Hpass.
    rewrite (handleConnection_accepted cfg client g payload Hpass).
    cbn [connectedClients actions]. split; [apply lookup_insert_eq|].
    rewrite !rooms_joined_app. cbn [rooms_joined omap list_omap].
    rewrite String.eqb_refl. cbn [app]. reflexivity.
  - intros Hnew. split.
    + intros Hsome.
      destruct (handleConnection_dichotomy cfg (handshake client)) as [Hrej|Hpass];
        [|exact Hpass].
      rewrite (handleConnection_rejected cfg client g Hrej) in Hsome.
      cbn [connectedClients] in Hsome. rewrite Hnew in Hsome.
      destruct Hsome as [? Hx]. discriminate.
    + intros [payload Hpass].
      rewrite (handleConnection_accepted cfg client g payload Hpass).
      cbn [connectedClients]. rewrite lookup_insert_eq. eexists. reflexivity.
Qed.

(** The cookie header is cut at its semicolons and the cookie is cut at its
    first equals sign. *)
Example cookie_token_example :
  cookie_token (Some "theme=dark; access_token=good"%string) = Some "good"%string.
Proof. reflexivity. Qed.

Example replace_first_example :
  replace_first "Bearer " "" "Bearer abc" = "abc"%string.
Proof. reflexivity. Qed.

Lemma unauthenticated_connection_never_registered_witness :
  (connectedClients (handleConnection one_token_config anonymous_socket empty_gateway) = ∅ /\
   actions (handleConnection one_token_config anonymous_socket empty_gateway)
     = [Disconnected "s1"]) /\
  (connectedClients (handleConnection one_token_config cookie_socket empty_gateway)
     !! "s2" = Some driver_payload /\
   rooms_joined "s2" (actions (handleConnection one_token_config cookie_socket empty_gateway))
     = ["user:u1"%string]).
Proof.
  split.
  - destruct (unauthenticated_connection_never_registered one_token_config anonymous_socket
                empty_gateway) as [Hrejected _].
    destruct Hrejected as (Hclients & Hactions & _).
    + left. apply absent_everywhere_presents_no_token; reflexivity.
    + split; [exact Hclients|exact Hactions].
  - destruct (unauthenticated_connection_never_registered one_token_config cookie_socket
                empty_gateway) as (_ & Haccepted & _).
    apply (Haccepted driver_payload).
    exists "good"%string. repeat split.
Defined.

Lemma updateRoute_requires_matching_route_witness :
  updateRoute all_accepted "route-1" emergency_update "vehicle-2" world_with_route
  = (inl (NotFoundException "Route route-1 not found for vehicle vehicle-2"),
     world_with_route) /\
  (let r := updateRoute all_accepted "route-1" emergency_update "vehicle-1"
              world_with_route in
   fst r = inr (mkUpdateResponse "route-1" "vehicle-1" "EMERGENCY"
                  "Route update recorded successfully") /\
   optimizedRoutes (snd r) = optimizedRoutes world_with_route /\
   requests (snd r) = requests world_with_route /\
   routeUpdates (snd r) =
     [mkRouteUpdate "route-1" "vehicle-1" "EMERGENCY" [waypoint_at stopA 0]] /\
   effects (snd r) =
     [RouteUpdateCreated "route-1";
      Published "route-update-events" "ROUTE_UPDATE_REQUESTED";
      Broadcast "route:route-1" "route_update_requested"]).
Proof.
  split.
  - destruct (updateRoute_requires_matching_route all_accepted "route-1" emergency_update
                "vehicle-2" world_with_route) as [Hnone _].
    apply Hnone. intros route Hin [_ Hvehicle].
    apply list_elem_of_singleton in Hin. subst route. discriminate Hvehicle.
  - cbv zeta.
    destruct (updateRoute_requires_matching_route all_accepted "route-1" emergency_update
                "vehicle-1" world_with_route) as [_ Hsome].
    destruct Hsome as (route & Hfind & _ & _ & _ & Hrt & Hrq & Hok & _).
    { eexists. split; [apply list_elem_of_singleton; reflexivity|]. split; reflexivity. }
    injection Hfind as <-.
    destruct (Hok eq_refl) as (Hres & Hup & Heff).
    split; [exact Hres|]. split; [exact Hrt|]. split; [exact Hrq|].
    split; [exact Hup|exact Heff].
Defined.

(** * Further properties of the code *)

Open Scope R_scope.

(** ** More on the nearest-neighbour order *)

Lemma greedy_order_head_nearest cur rem x order :
  greedy_order cur rem (x :: order) ->
  forall y, y ∈ order -> stop_distance cur x <= stop_distance cur y.
Proof.
  intros H y Hy. inversion H as [|? ? ? rem' ? Hn Hg]; subst.
  apply greedy_order_perm in Hg.
  assert (Hin : y ∈ rem') by (rewrite <- Hg; exact Hy).
  destruct Hn as [before x after Hb Ha].
  apply elem_of_app in Hin as [Hin|Hin].
  - left. apply Hb. exact Hin.
  - apply Ha. exact Hin.
Qed.

(** An order is its own greedy order. *)
Lemma greedy_order_fixpoint cur rem order :
  greedy_order cur rem order -> greedy_order cur order order.
Proof.
  induction 1 as [|cur rem x rem' order Hn Hg IH]; [constructor|].
  apply (greedy_visit cur (x :: order) x order order); [|exact IH].
  apply (nearest_intro cur [] x order).
  - intros y Hy. inversion Hy.
  - apply (greedy_order_head_nearest cur rem x order).
    econstructor; eassumption.
Qed.

Lemma greedy_order_legs cur rem order :
  greedy_order cur rem order ->
  forall k j a b c,
    (cur :: order) !! k = Some a -> (cur :: order) !! S k = Some b ->
    (cur :: order) !! j = Some c -> (S k < j)%nat ->
    stop_distance a b <= stop_distance a c.
Proof.
  induction 1 as [|cur rem x rem' order Hn Hg IH]; intros k j a b c Ha Hb Hc Hkj.
  - destruct k; cbn in Hb; discriminate.
  - destruct k as [|k].
    + cbn in Ha, Hb. injection Ha as <-. injection Hb as <-.
      destruct j as [|[|j]]; [lia|lia|]. cbn in Hc.
      apply (greedy_order_head_nearest cur rem x order); [econstructor; eassumption|].
      apply list_elem_of_lookup. eauto.
    + destruct j as [|j]; [lia|]. cbn in Ha, Hb, Hc.
      apply (IH k j a b c); auto. lia.
Qed.

(** On the equator, towards the east and over less than half a turn, the
    distance is the radius times the difference of the longitudes. *)
Lemma stop_distance_equator s t :
  latitude s = 0 -> latitude t = 0 ->
  0 <= longitude t - longitude s < 180 ->
  stop_distance s t = 6371000 * ((longitude t - longitude s) * (PI / 180)).
Proof.
  intros Hs Ht [Hlo Hhi].
  unfold stop_distance, calculateHaversineDistance, toRadians. cbv zeta.
  rewrite Hs, Ht.
  set (x := (longitude t - longitude s) * (PI / 180) / 2).
  replace ((0 - 0) * (PI / 180) / 2) with 0 by lra.
  replace (0 * (PI / 180)) with 0 by lra.
  rewrite sin_0, cos_0.
  pose proof PI_RGT_0 as Hpi.
  assert (Hx : 0 <= x < PI / 2).
  { unfold x. split.
    - apply Rmult_le_pos; [|lra]. apply Rmult_le_pos; lra.
    - apply Rmult_lt_reg_r with (180 / PI * 2).
      + apply Rmult_lt_0_compat; [|lra]. apply Rdiv_lt_0_compat; lra.
      + field_simplify; lra. }
  assert (Hcos : 0 < cos x) by (apply cos_gt_0; lra).
  assert (Hsin : 0 <= sin x) by (apply sin_ge_0; lra).
  replace (0 * 0 + 1 * 1 * sin x * sin x) with (Rsqr (sin x)) by (unfold Rsqr; ring).
  replace (1 - Rsqr (sin x)) with (Rsqr (cos x))
    by (pose proof (sin2_cos2 x); lra).
  unfold Math_sqrt. rewrite !sqrt_Rsqr by lra.
  unfold Math_atan2. destruct (Rlt_dec 0 (cos x)) as [_|Hn]; [|contradiction].
  change (sin x / cos x) with (tan x). rewrite atan_tan by lra.
  unfold x. lra.
Qed.

Lemma stop_distance_E0_E1_E3 : stop_distance stopE0 stopE1 < stop_distance stopE0 stopE3.
Proof.
  rewrite !stop_distance_equator by (cbn; lra). cbn [longitude stopE0 stopE1 stopE3].
  pose proof PI_RGT_0. lra.
Qed.

(** The sequencer moves the nearer stop forward. *)
Lemma optimizeStopOrder_E0_E3_E1 :
  optimizeStopOrder [stopE0; stopE3; stopE1] = Some [stopE0; stopE1; stopE3].
Proof.
  destruct (optimizeStopOrder_spec [stopE0; stopE3; stopE1])
    as (order & Hopt & _ & _ & Hgreedy).
  rewrite Hopt. f_equal.
  apply (greedy_nearest_neighbor_deterministic [stopE0; stopE3; stopE1]);
    [apply Hgreedy; cbn; lia|].
  exists [stopE1; stopE3]. split; [reflexivity|].
  apply (greedy_visit stopE0 [stopE3; stopE1] stopE1 [stopE3]).
  - apply (nearest_intro stopE0 [stopE3] stopE1 []).
    + intros y Hy. apply list_elem_of_singleton in Hy. subst y.
      exact stop_distance_E0_E1_E3.
    + intros y Hy. apply elem_of_nil in Hy. destruct Hy.
  - apply (greedy_visit stopE1 [stopE3] stopE3 []).
    + apply (nearest_intro stopE1 [] stopE3 []);
        intros y Hy; apply elem_of_nil in Hy; destruct Hy.
    + constructor.
Qed.

(** X2.  [optimizeStopOrder] returns an order for every list of stops,
    the empty one included; the order is a permutation of the input and
    begins with the same stop as the input, and a list of at most two stops
    is returned as it is. *)
Theorem optimizeStopOrder_keeps_start (stops : list Stop) :
  exists order,
    optimizeStopOrder stops = Some order /\
    order ≡ₚ stops /\
    head order = head stops /\
    ((length stops <= 2)%nat -> order = stops).
Proof.
  destruct (optimizeStopOrder_spec stops) as (order & Hopt & Hperm & Hshort & Hgreedy).
  exists order. repeat split; auto.
  destruct (decide (length stops <= 2)%nat) as [Hle|Hgt].
  - rewrite (Hshort Hle). reflexivity.
  - specialize (Hgreedy ltac:(lia)).
    destruct stops as [|s0 rest]; [simpl in Hgt; lia|].
    destruct Hgreedy as (tail & -> & _). reflexivity.
Qed.

(** The sequencer returns a greedy order as it is. *)
Lemma optimizeStopOrder_of_greedy s0 rest tail :
  greedy_order s0 rest tail -> (3 <= length (s0 :: tail))%nat ->
  optimizeStopOrder (s0 :: tail) = Some (s0 :: tail).
Proof.
  intros Hg Hlen.
  destruct (optimizeStopOrder_spec (s0 :: tail)) as (o2 & Hopt2 & _ & _ & Hgreedy2).
  rewrite Hopt2. f_equal.
  destruct (Hgreedy2 Hlen) as (tail2 & -> & Hg2).
  f_equal. eapply greedy_order_deterministic; [exact Hg2|].
  eapply greedy_order_fixpoint. exact Hg.
Qed.

(** X3.  [optimizeStopOrder] is idempotent: the order it returns is
    returned unchanged when it is given to the sequencer again. *)
Theorem optimizeStopOrder_idempotent (stops order : list Stop) :
  optimizeStopOrder stops = Some order -> optimizeStopOrder order = Some order.
Proof.
  intros Hopt.
  destruct (optimizeStopOrder_spec stops) as (order' & Hopt' & Hperm & Hshort & Hgreedy).
  rewrite Hopt in Hopt'. injection Hopt' as <-.
  destruct (decide (length stops <= 2)%nat) as [Hle|Hgt].
  - rewrite (Hshort Hle). rewrite (Hshort Hle) in Hopt. exact Hopt.
  - specialize (Hgreedy ltac:(lia)).
    destruct stops as [|s0 rest]; [simpl in Hgt; lia|].
    destruct Hgreedy as (tail & -> & Hg).
    apply (optimizeStopOrder_of_greedy s0 rest tail Hg).
    rewrite (Permutation_length Hperm). simpl in *. lia.
Qed.

Lemma optimizeStopOrder_idempotent_witness :
  optimizeStopOrder [stopE0; stopE3; stopE1] = Some [stopE0; stopE1; stopE3] /\
  optimizeStopOrder [stopE0; stopE1; stopE3] = Some [stopE0; stopE1; stopE3].
Proof.
  split; [exact optimizeStopOrder_E0_E3_E1|].
  apply (optimizeStopOrder_idempotent [stopE0; stopE3; stopE1] [stopE0; stopE1; stopE3]).
  exact optimizeStopOrder_E0_E3_E1.
Defined.

(** X4.  In the order that [optimizeStopOrder] returns, every stop is
    followed by a stop that is at least as near to it as every stop visited
    later: the leg from position [k] to position [k + 1] is not longer than
    the distance from position [k] to any position after [k + 1]. *)
Theorem optimizeStopOrder_next_is_nearest (stops order : list Stop) :
  optimizeStopOrder stops = Some order ->
  forall k j a b c,
    order !! k = Some a -> order !! (k + 1)%nat = Some b -> order !! j = Some c ->
    (k + 1 < j)%nat ->
    stop_distance a b <= stop_distance a c.
Proof.
  intros Hopt k j a b c Ha Hb Hc Hkj.
  destruct (optimizeStopOrder_spec stops) as (order' & Hopt' & Hperm & Hshort & Hgreedy).
  rewrite Hopt in Hopt'. injection Hopt' as <-.
  pose proof (lookup_lt_Some _ _ _ Hc) as Hj.
  rewrite (Permutation_length Hperm) in Hj.
  assert (Hlen : (3 <= length stops)%nat) by lia.
  specialize (Hgreedy Hlen).
  destruct stops as [|s0 rest]; [simpl in Hlen; lia|].
  destruct Hgreedy as (tail & -> & Hg).
  replace (k + 1)%nat with (S k) in * by lia.
  eapply (greedy_order_legs s0 rest tail Hg k j); eassumption.
Qed.

Lemma optimizeStopOrder_next_is_nearest_witness :
  optimizeStopOrder [stopE0; stopE3; stopE1] = Some [stopE0; stopE1; stopE3] /\
  stop_distance stopE0 stopE1 <= stop_distance stopE0 stopE3 /\
  stop_distance stopE0 stopE1 < stop_distance stopE0 stopE3.
Proof.
  split; [exact optimizeStopOrder_E0_E3_E1|].
  split; [|exact stop_distance_E0_E1_E3].
  apply (optimizeStopOrder_next_is_nearest [stopE0; stopE3; stopE1]
           [stopE0; stopE1; stopE3] optimizeStopOrder_E0_E3_E1
           0%nat 2%nat stopE0 stopE1 stopE3); [reflexivity|reflexivity|reflexivity|lia].
Defined.

(** ** More on the fallback route *)

Lemma sum_upto_le f j k :
  (forall i, 0 <= f i) -> (j <= k)%nat -> sum_upto f j <= sum_upto f k.
Proof.
  intros Hf Hjk. induction Hjk as [|k Hjk IH]; [lra|].
  cbn [sum_upto]. specialize (Hf k). lra.
Qed.

Lemma mock_minutes_mono stops i j :
  (i <= j)%nat -> mock_minutes stops i <= mock_minutes stops j.
Proof.
  intros Hij. unfold mock_minutes. cbv zeta.
  assert (Hm : (Nat.min i (length stops - 1) <= Nat.min j (length stops - 1))%nat) by lia.
  pose proof (sum_upto_le (leg_minutes_at stops) _ _ (leg_minutes_at_nonneg stops) Hm).
  apply le_INR in Hm. lra.
Qed.

Lemma sum_upto_integer f k :
  (forall i, exists z : Z, f i = IZR z) -> exists z : Z, sum_upto f k = IZR z.
Proof.
  intros Hf. induction k as [|k [z Hz]]; [exists 0%Z; reflexivity|].
  destruct (Hf k) as [y Hy]. exists (z + y)%Z.
  cbn [sum_upto]. rewrite Hz, Hy, plus_IZR. reflexivity.
Qed.

Lemma mock_minutes_integer stops j :
  exists m : Z, mock_minutes stops j = IZR m /\
                (5 * Z.of_nat (Nat.min j (length stops - 1)) <= m)%Z.
Proof.
  unfold mock_minutes. cbv zeta.
  set (k := Nat.min j (length stops - 1)).
  destruct (sum_upto_integer (leg_minutes_at stops) k) as [z Hz].
  { intros i. unfold leg_minutes_at, Math_round. eexists. reflexivity. }
  exists (z + 5 * Z.of_nat k)%Z. split.
  - rewrite Hz, plus_IZR, mult_IZR, <- INR_IZR_INZ. reflexivity.
  - assert (H0 : 0 <= IZR z).
    { rewrite <- Hz. apply sum_upto_nonneg, leg_minutes_at_nonneg. }
    apply le_IZR in H0. lia.
Qed.

(** X5.  In the route of the fallback no arrival time is before the
    current time, the arrival times do not decrease along the route, and
    the last waypoint is reached at the current time plus the total
    duration of the route (in milliseconds). *)
Theorem fallback_arrival_times_ordered (now : R) (stops : list Stop) (route : OptimizedRoute) :
  getMockOptimizedRoute now stops = Some route ->
  (forall w, w ∈ waypoints route -> now <= estimatedArrival w) /\
  (forall i w w',
     waypoints route !! i = Some w -> waypoints route !! (i + 1)%nat = Some w' ->
     estimatedArrival w <= estimatedArrival w') /\
  (forall w, last (waypoints route) = Some w ->
     estimatedArrival w = now + totalDuration route * 1000).
Proof.
  intros Hroute.
  destruct (decide (length stops < 2)%nat) as [Hs|Hl].
  - rewrite fallback_short_route in Hroute by exact Hs. injection Hroute as <-.
    cbn [waypoints totalDuration]. split; [|split].
    + intros w Hw. apply list_elem_of_fmap in Hw as (s & -> & _). cbn. lra.
    + intros i w w' Hw Hw'.
      rewrite list_lookup_fmap in Hw, Hw'.
      destruct (stops !! i); [|discriminate]. destruct (stops !! (i + 1)%nat); [|discriminate].
      cbn in Hw, Hw'. injection Hw as <-. injection Hw' as <-. cbn. lra.
    + intros w Hw. rewrite fmap_last in Hw.
      destruct (last stops); [|discriminate]. cbn in Hw. injection Hw as <-. cbn. lra.
  - destruct (optimizeStopOrder_spec stops) as (order & Hopt & Hperm & _).
    rewrite (getMockOptimizedRoute_closed now stops order) in Hroute by (lia || exact Hopt).
    injection Hroute as <-. cbn [waypoints totalDuration].
    split; [|split].
    + intros w Hw. apply list_elem_of_lookup in Hw as [i Hi].
      rewrite list_lookup_imap in Hi.
      destruct (order !! i); [|discriminate]. cbn in Hi. injection Hi as <-. cbn.
      pose proof (mock_minutes_nonneg order (S i)). lra.
    + intros i w w' Hw Hw'. rewrite list_lookup_imap in Hw, Hw'.
      destruct (order !! i); [|discriminate]. destruct (order !! (i + 1)%nat); [|discriminate].
      cbn in Hw, Hw'. injection Hw as <-. injection Hw' as <-. cbn.
      pose proof (mock_minutes_mono order (S i) (S (i + 1)) ltac:(lia)). lra.
    + intros w Hw. rewrite last_lookup in Hw. rewrite length_imap in Hw.
      rewrite list_lookup_imap in Hw.
      destruct (order !! Nat.pred (length order)) eqn:Hlast; [|discriminate].
      cbn in Hw. injection Hw as <-. cbn.
      pose proof (Permutation_length Hperm) as Hlen.
      replace (S (Nat.pred (length order))) with (length order) by lia. lra.
Qed.

Lemma fallback_arrival_times_ordered_witness :
  (forall w, w ∈ [waypoint_at stopA (0 + 960000); waypoint_at stopB (0 + 960000)] ->
     0 <= estimatedArrival w) /\
  (forall w, last [waypoint_at stopA (0 + 960000); waypoint_at stopB (0 + 960000)] = Some w ->
     estimatedArrival w = 0 + 960 * 1000).
Proof.
  destruct (fallback_arrival_times_ordered 0 [stopA; stopB]
              fallback_route_A_B
              (getMockOptimizedRoute_A_B 0)) as (H1 & _ & H3).
  split; [exact H1|exact H3].
Defined.

(** X6.  The totals of the fallback are whole numbers: the total
    distance is a non-negative whole number of metres, the total duration is
    a whole number of minutes (in seconds), of at least five minutes for
    every stop but one, and the polyline is empty. *)
Theorem fallback_totals_whole (now : R) (stops : list Stop) (route : OptimizedRoute) :
  getMockOptimizedRoute now stops = Some route ->
  (exists metres : Z, totalDistance route = IZR metres /\ (0 <= metres)%Z) /\
  (exists minutes : Z,
     totalDuration route = 60 * IZR minutes /\
     (5 * (Z.of_nat (length stops) - 1) <= minutes)%Z /\ (0 <= minutes)%Z) /\
  polyline route = ""%string.
Proof.
  intros Hroute.
  destruct (decide (length stops < 2)%nat) as [Hs|Hl].
  - rewrite fallback_short_route in Hroute by exact Hs. injection Hroute as <-.
    cbn [totalDistance totalDuration polyline]. split; [|split; [|reflexivity]].
    + exists 0%Z. split; [reflexivity|lia].
    + exists 0%Z. split; [lra|]. split; lia.
  - destruct (optimizeStopOrder_spec stops) as (order & Hopt & Hperm & _).
    rewrite (getMockOptimizedRoute_closed now stops order) in Hroute by (lia || exact Hopt).
    injection Hroute as <-. cbn [totalDistance totalDuration polyline].
    pose proof (Permutation_length Hperm) as Hlen.
    split; [|split; [|reflexivity]].
    + eexists. split; [unfold Math_round; reflexivity|].
      apply Zfloor_lub.
      pose proof (sum_upto_nonneg (leg_distance_at order) (length order - 1)
                    (leg_distance_at_nonneg order)).
      simpl. lra.
    + destruct (mock_minutes_integer order (length order)) as (m & Hm & Hle).
      exists m. split; [rewrite Hm; lra|].
      replace (Nat.min (length order) (length order - 1)) with (length order - 1)%nat in Hle
        by lia.
      rewrite Hlen in Hle. split; lia.
Qed.

Lemma fallback_totals_whole_witness :
  (exists metres : Z, 5420 = IZR metres /\ (0 <= metres)%Z) /\
  (exists minutes : Z,
     960 = 60 * IZR minutes /\
     (5 * (Z.of_nat (length [stopA; stopB]) - 1) <= minutes)%Z /\ (0 <= minutes)%Z) /\
  ""%string = ""%string.
Proof.
  apply (fallback_totals_whole 0 [stopA; stopB]
           fallback_route_A_B
           (getMockOptimizedRoute_A_B 0)).
Defined.

(** X7.  When the stops of a fallback route are submitted again in
    the order of the route, the fallback returns the same order with the
    same total distance and duration, and the metrics of that route against
    its own stops report no saving at all. *)
Theorem fallback_resubmitted_has_no_savings (now : R) (stops : list Stop)
    (route : OptimizedRoute) :
  getMockOptimizedRoute now stops = Some route ->
  exists route',
    getMockOptimizedRoute now (map stop_of (waypoints route)) = Some route' /\
    map stop_of (waypoints route') = map stop_of (waypoints route) /\
    totalDistance route' = totalDistance route /\
    totalDuration route' = totalDuration route /\
    calculateOptimizationMetrics route' (map stop_of (waypoints route))
      = mkMetrics 0 0 0 0 0 (mkEfficiency 0 0 0).
Proof.
  intros Hroute.
  destruct (decide (length stops < 2)%nat) as [Hs|Hl].
  - rewrite fallback_short_route in Hroute by exact Hs. injection Hroute as <-.
    cbn [waypoints totalDistance totalDuration]. rewrite stop_of_map_waypoint_at.
    rewrite fallback_short_route by exact Hs.
    eexists. split; [reflexivity|]. cbn [waypoints totalDistance totalDuration].
    rewrite stop_of_map_waypoint_at. repeat split.
    apply calculateOptimizationMetrics_no_gain;
      unfold calculateOriginalRouteMetrics; rewrite bool_decide_true by exact Hs;
      cbn; lra.
  - destruct (optimizeStopOrder_spec stops) as (order & Hopt & Hperm & Hshort & Hgreedy).
    rewrite (getMockOptimizedRoute_closed now stops order) in Hroute by (lia || exact Hopt).
    injection Hroute as <-. cbn [waypoints totalDistance totalDuration].
    rewrite stop_of_imap_waypoint_at.
    pose proof (Permutation_length Hperm) as Hlen.
    assert (Hidem : optimizeStopOrder order = Some order).
    { destruct (decide (length stops <= 2)%nat) as [Hle|Hgt].
      - rewrite (Hshort Hle). rewrite (Hshort Hle) in Hopt. exact Hopt.
      - specialize (Hgreedy ltac:(lia)).
        destruct stops as [|s0 rest]; [simpl in Hgt; lia|].
        destruct Hgreedy as (tail & -> & Hg).
        apply (optimizeStopOrder_of_greedy s0 rest tail Hg). lia. }
    rewrite (getMockOptimizedRoute_closed now order order) by (lia || exact Hidem).
    eexists. split; [reflexivity|]. cbn [waypoints totalDistance totalDuration].
    rewrite stop_of_imap_waypoint_at. repeat split.
    apply calculateOptimizationMetrics_no_gain; cbn [totalDistance totalDuration];
      rewrite calculateOriginalRouteMetrics_closed by lia; cbn [fst snd].
    + reflexivity.
    + rewrite mock_minutes_original_minutes by lia. lra.
    + unfold original_minutes.
      pose proof (sum_upto_nonneg (leg_minutes_at order) (length order - 1)
                    (leg_minutes_at_nonneg order)).
      pose proof (pos_INR (Nat.min (length order - 1) (length order - 2))). lra.
Qed.

Lemma fallback_resubmitted_has_no_savings_witness :
  exists route',
    getMockOptimizedRoute 0 [stopA; stopB] = Some route' /\
    map stop_of (waypoints route') = [stopA; stopB] /\
    totalDistance route' = 5420 /\
    totalDuration route' = 960 /\
    calculateOptimizationMetrics route' [stopA; stopB]
      = mkMetrics 0 0 0 0 0 (mkEfficiency 0 0 0).
Proof.
  apply (fallback_resubmitted_has_no_savings 0 [stopA; stopB]
           fallback_route_A_B
           (getMockOptimizedRoute_A_B 0)).
Defined.

(** ** More on the baseline and the metrics *)

Lemma Math_round_le x y : x <= y -> Math_round x <= Math_round y.
Proof.
  intros Hxy. unfold Math_round. apply IZR_le, Zfloor_le. lra.
Qed.

(** X12.  For a route with non-negative totals, none of the three
    improvement percentages that [calculateOptimizationMetrics] reports
    exceeds 100. *)
Theorem improvement_percentages_at_most_100 (optimizedRoute : OptimizedRoute)
    (originalStops : list Stop) :
  0 <= totalDistance optimizedRoute -> 0 <= totalDuration optimizedRoute ->
  let e := optimizationEfficiency
             (calculateOptimizationMetrics optimizedRoute originalStops) in
  timeImprovement e <= 100 /\ distanceImprovement e <= 100 /\ fuelEfficiency e <= 100.
Proof.
  intros Hd Ht. cbv zeta. unfold calculateOptimizationMetrics. cbv zeta.
  cbn [optimizationEfficiency timeImprovement distanceImprovement fuelEfficiency].
  set (od := fst (calculateOriginalRouteMetrics originalStops)).
  set (ot := snd (calculateOriginalRouteMetrics originalStops)).
  assert (Hpct : forall base value, 0 <= value ->
            Math_max 0 (Math_round (if Rlt_dec 0 base
                                    then (base - value) / base * 100 else 0)) <= 100).
  { intros base value Hv. unfold Math_max. apply Rmax_lub; [lra|].
    apply Rle_trans with (Math_round 100); [|rewrite (Math_round_IZR 100); lra].
    apply Math_round_le.
    destruct (Rlt_dec 0 base) as [Hb|]; [|lra].
    assert ((base - value) / base <= 1); [|lra].
    apply (Rmult_le_reg_r base); [exact Hb|].
    unfold Rdiv. rewrite Rmult_assoc, Rinv_l by lra. lra. }
  repeat split; apply Hpct; assumption.
Qed.

Lemma improvement_percentages_at_most_100_witness :
  timeImprovement
    (optimizationEfficiency
       (calculateOptimizationMetrics (mkOptimizedRoute 5420 960 [] "") [stopA; stopB]))
  <= 100.
Proof.
  apply (improvement_percentages_at_most_100 (mkOptimizedRoute 5420 960 [] "")
           [stopA; stopB]); cbn; lra.
Defined.

(** X13.  When the route is neither shorter nor faster than the
    baseline over the stops in the order of the caller, every field of the
    metrics is 0. *)
Theorem no_better_route_reports_zero (optimizedRoute : OptimizedRoute)
    (originalStops : list Stop) :
  fst (calculateOriginalRouteMetrics originalStops) <= totalDistance optimizedRoute ->
  snd (calculateOriginalRouteMetrics originalStops) <= totalDuration optimizedRoute ->
  calculateOptimizationMetrics optimizedRoute originalStops =
    mkMetrics 0 0 0 0 0 (mkEfficiency 0 0 0).
Proof.
  intros Hd Ht. unfold calculateOptimizationMetrics. cbv zeta.
  set (od := fst (calculateOriginalRouteMetrics originalStops)) in *.
  set (ot := snd (calculateOriginalRouteMetrics originalStops)) in *.
  set (d := totalDistance optimizedRoute) in *.
  set (t := totalDuration optimizedRoute) in *.
  set (rate := if Rlt_dec (d / 1000) 50 then 10 else 7).
  assert (Hrate : 0 < rate) by (unfold rate; destruct (Rlt_dec (d / 1000) 50); lra).
  assert (Hclamp : forall x k, x <= 0 -> 0 < k -> Math_max 0 (Math_round (x * k) / k) = 0).
  { intros x k Hx Hk. apply Math_max_0_nonpos.
    assert (Math_round (x * k) <= 0) by (apply Math_round_nonpos; nra).
    unfold Rdiv. assert (0 < / k) by (apply Rinv_0_lt_compat; exact Hk). nra. }
  assert (Hr : Math_round (ot - t) <= 0) by (apply Math_round_nonpos; lra).
  assert (Hfuel : (od - d) / 1000 * rate / 100 <= 0) by nra.
  assert (Hpct : forall base value, base <= value ->
            Math_max 0 (Math_round (if Rlt_dec 0 base
                                    then (base - value) / base * 100 else 0)) = 0).
  { intros base value Hv. apply Math_max_0_nonpos, Math_round_nonpos.
    destruct (Rlt_dec 0 base) as [Hb|]; [|lra].
    assert ((base - value) / base <= 0); [|lra].
    unfold Rdiv. assert (0 < / base) by (apply Rinv_0_lt_compat; exact Hb). nra. }
  rewrite (Math_max_0_nonpos _ Hr).
  rewrite (Hclamp ((od - d) / 1000) 1000) by lra.
  rewrite (Hclamp ((od - d) / 1000 * rate / 100) 1000) by lra.
  rewrite (Hclamp ((od - d) / 1000 * rate / 100 * (23 / 10)) 1000) by lra.
  rewrite (Hclamp ((od - d) / 1000 * rate / 100 * (3 / 2) + Math_round (ot - t) / 3600 * 25)
             100) by lra.
  rewrite (Hpct ot t Ht), (Hpct od d Hd). reflexivity.
Qed.

Lemma no_better_route_reports_zero_witness :
  fst (calculateOriginalRouteMetrics [stopA; stopB]) = 5420 /\
  snd (calculateOriginalRouteMetrics [stopA; stopB]) = 660 /\
  calculateOptimizationMetrics (mkOptimizedRoute 5420 960 [] "") [stopA; stopB] =
    mkMetrics 0 0 0 0 0 (mkEfficiency 0 0 0).
Proof.
  assert (Hd : fst (calculateOriginalRouteMetrics [stopA; stopB]) = 5420).
  { rewrite calculateOriginalRouteMetrics_closed by (simpl; lia). cbn [fst].
    cbn [length Nat.sub sum_upto]. unfold leg_distance_at.
    cbn [lookup list_lookup Nat.add].
    apply Math_round_eq. pose proof stop_distance_A_B. lra. }
  assert (Ht : snd (calculateOriginalRouteMetrics [stopA; stopB]) = 660)
    by apply (example_durations 0).
  split; [exact Hd|]. split; [exact Ht|].
  apply (no_better_route_reports_zero (mkOptimizedRoute 5420 960 [] "") [stopA; stopB]);
    cbn [totalDistance totalDuration]; lra.
Defined.

Lemma sum_upto_ext f g k :
  (forall i, (i < k)%nat -> f i = g i) -> sum_upto f k = sum_upto g k.
Proof.
  intros Hfg. induction k as [|k IH]; [reflexivity|].
  cbn [sum_upto]. rewrite IH by (intros; apply Hfg; lia).
  rewrite Hfg by lia. reflexivity.
Qed.

(** ** The provider-backed branch *)

Lemma provider_eta_closed now route index :
  provider_eta now route index = now + sum_upto (leg_duration_or_0 route) index * 1000.
Proof.
  unfold provider_eta. induction index as [|index IH].
  - rewrite for_range_empty by lia. cbn. lra.
  - rewrite for_range_snoc by lia. rewrite IH. cbn [sum_upto]. lra.
Qed.

Lemma fold_left_sum_upto (f : Leg -> R) (l : list Leg) :
  fold_left (fun sum leg => sum + f leg) l 0 =
  sum_upto (fun i => match l !! i with Some leg => f leg | None => 0 end) (length l).
Proof.
  induction l as [|x l IH] using rev_ind; [reflexivity|].
  rewrite fold_left_app, length_app. cbn [fold_left length].
  replace (length l + 1)%nat with (S (length l)) by lia. cbn [sum_upto].
  rewrite IH. rewrite list_lookup_middle by reflexivity. f_equal.
  apply sum_upto_ext. intros i Hi. rewrite lookup_app_l by exact Hi. reflexivity.
Qed.

(** When the provider-backed branch returns a route. *)
Lemma optimizeRouteWithProvider_inr now response stops route :
  optimizeRouteWithProvider now response stops = inr route ->
  exists data first,
    response = inr data /\ status data = "OK"%string /\ routes data !! 0%nat = Some first /\
    stops <> [] /\
    route = mkOptimizedRoute
              (fold_left (fun sum leg => sum + leg_distance leg) (legs first) 0 / 1000)
              (fold_left (fun sum leg => sum + leg_duration leg) (legs first) 0)
              (imap (fun index stop => waypoint_at stop (provider_eta now first index)) stops)
              (overview_polyline first).
Proof.
  unfold optimizeRouteWithProvider. intros H.
  destruct stops as [|s0 rest]; [discriminate|].
  cbn [lookup list_lookup] in H.
  destruct (last (s0 :: rest)); [|discriminate].
  destruct response as [e|data]; [discriminate|].
  destruct (String.eqb_spec (status data) "OK") as [Hok|Hno]; [|discriminate].
  cbn [negb] in H.
  destruct (routes data !! 0%nat) as [first|] eqn:Hfirst; [|discriminate].
  injection H as <-. exists data, first. repeat split; auto.
Qed.

(** X8.  With an API key configured, a route that
    [GoogleMapsService.optimizeRoute] returns has the stops of the caller as
    its waypoints, in the order of the caller (the order that the provider
    chose is not used), and its first waypoint is reached at the current
    time. *)
Theorem provider_route_keeps_caller_order (apiKey : string) (now : R)
    (response : Error + GoogleMapsRouteResponse) (stops : list Stop) (route : OptimizedRoute) :
  apiKey <> ""%string ->
  GoogleMapsService.optimizeRoute apiKey now response stops = inr route ->
  map stop_of (waypoints route) = stops /\
  (forall first rest, waypoints route = first :: rest -> estimatedArrival first = now).
Proof.
  intros Hkey Hroute. unfold GoogleMapsService.optimizeRoute in Hroute.
  destruct (String.eqb_spec apiKey ""); [contradiction|].
  apply optimizeRouteWithProvider_inr in Hroute
    as (data & pr & _ & _ & _ & _ & ->).
  cbn [waypoints]. split; [apply stop_of_imap_waypoint_at|].
  intros first rest Hw. destruct stops as [|s0 stops']; [discriminate|].
  cbn [imap] in Hw. injection Hw as <- _. reflexivity.
Qed.

Lemma provider_route_keeps_caller_order_witness :
  exists route,
    GoogleMapsService.optimizeRoute "key" 0 (inr one_leg_response) [stopA; stopB] = inr route /\
    map stop_of (waypoints route) = [stopA; stopB].
Proof.
  eexists. split; [reflexivity|].
  apply (provider_route_keeps_caller_order "key" 0 (inr one_leg_response) [stopA; stopB]).
  - discriminate.
  - reflexivity.
Defined.

(** X9.  With an API key configured, the total duration of the route
    is the sum of the durations of the legs of the first route of the
    provider, and the waypoint at index [i] is reached at the current time
    plus the durations of the first [i] legs (a missing leg counts 0).  When
    no leg has a negative duration the arrival times do not decrease, and
    when there is one leg less than stops the last waypoint is reached at
    the current time plus the total duration. *)
Theorem provider_arrival_times (apiKey : string) (now : R)
    (data : GoogleMapsRouteResponse) (stops : list Stop) (route : OptimizedRoute) :
  apiKey <> ""%string ->
  GoogleMapsService.optimizeRoute apiKey now (inr data) stops = inr route ->
  exists first,
    routes data !! 0%nat = Some first /\
    totalDuration route = sum_upto (leg_duration_or_0 first) (length (legs first)) /\
    (forall i w, waypoints route !! i = Some w ->
       estimatedArrival w = now + sum_upto (leg_duration_or_0 first) i * 1000) /\
    ((forall leg, leg ∈ legs first -> 0 <= leg_duration leg) ->
     forall i w w',
       waypoints route !! i = Some w -> waypoints route !! (i + 1)%nat = Some w' ->
       estimatedArrival w <= estimatedArrival w') /\
    ((length (legs first) + 1 = length stops)%nat ->
     forall w, last (waypoints route) = Some w ->
       estimatedArrival w = now + totalDuration route * 1000).
Proof.
  intros Hkey Hroute. unfold GoogleMapsService.optimizeRoute in Hroute.
  destruct (String.eqb_spec apiKey ""); [contradiction|].
  apply optimizeRouteWithProvider_inr in Hroute
    as (data' & first & Hdata & _ & Hfirst & _ & ->).
  injection Hdata as <-.
  exists first. cbn [waypoints totalDuration].
  assert (Htotal : fold_left (fun sum leg => sum + leg_duration leg) (legs first) 0
                   = sum_upto (leg_duration_or_0 first) (length (legs first))).
  { rewrite (fold_left_sum_upto leg_duration). reflexivity. }
  assert (Heta : forall i w,
            imap (fun index stop => waypoint_at stop (provider_eta now first index)) stops
              !! i = Some w ->
            estimatedArrival w = now + sum_upto (leg_duration_or_0 first) i * 1000).
  { intros i w Hw. rewrite list_lookup_imap in Hw.
    destruct (stops !! i); [|discriminate]. cbn in Hw. injection Hw as <-.
    cbn [estimatedArrival waypoint_at]. apply provider_eta_closed. }
  split; [exact Hfirst|]. split; [exact Htotal|]. split; [exact Heta|]. split.
  - intros Hpos i w w' Hw Hw'.
    rewrite (Heta _ _ Hw), (Heta _ _ Hw').
    replace (i + 1)%nat with (S i) by lia. cbn [sum_upto].
    assert (0 <= leg_duration_or_0 first i); [|lra].
    unfold leg_duration_or_0. destruct (legs first !! i) as [leg|] eqn:Hleg; [|lra].
    apply Hpos. apply list_elem_of_lookup. eauto.
  - intros Hlen w Hw. rewrite last_lookup, length_imap in Hw.
    rewrite (Heta _ _ Hw), Htotal. do 3 f_equal. lia.
Qed.

Lemma provider_arrival_times_witness :
  exists route first,
    GoogleMapsService.optimizeRoute "key" 0 (inr one_leg_response) [stopA; stopB] = inr route /\
    routes one_leg_response !! 0%nat = Some first /\
    totalDuration route = sum_upto (leg_duration_or_0 first) (length (legs first)).
Proof.
  destruct (provider_arrival_times "key" 0 one_leg_response [stopA; stopB]
              (mkOptimizedRoute (fold_left (fun sum leg => sum + leg_distance leg)
                                   [mkLeg 5800 900] 0 / 1000)
                 (fold_left (fun sum leg => sum + leg_duration leg) [mkLeg 5800 900] 0)
                 (imap (fun index stop =>
                          waypoint_at stop
                            (provider_eta 0 (mkProviderRoute [mkLeg 5800 900] "polyline") index))
                    [stopA; stopB])
                 "polyline"))
    as (first & Hfirst & Htotal & _).
  - discriminate.
  - reflexivity.
  - eexists. exists first. split; [reflexivity|]. split; [exact Hfirst|exact Htotal].
Defined.

(** X10.  With an API key configured, [GoogleMapsService.optimizeRoute]
    returns a route exactly when the list of stops is not empty and the
    provider answers with status OK and at least one route.  An empty list
    of stops raises a [TypeError], an error of the transport is raised as it
    is, another status raises the error that carries the status, and an
    answer without routes raises a [TypeError]. *)
Theorem provider_branch_outcomes (apiKey : string) (now : R)
    (response : Error + GoogleMapsRouteResponse) (stops : list Stop) :
  apiKey <> ""%string ->
  ((exists route, GoogleMapsService.optimizeRoute apiKey now response stops = inr route) <->
   stops <> [] /\
   exists data, response = inr data /\ status data = "OK"%string /\ routes data <> []) /\
  (stops = [] -> GoogleMapsService.optimizeRoute apiKey now response stops = inl TypeError) /\
  (forall e, stops <> [] -> response = inl e ->
     GoogleMapsService.optimizeRoute apiKey now response stops = inl e) /\
  (forall data, stops <> [] -> response = inr data -> status data <> "OK"%string ->
     GoogleMapsService.optimizeRoute apiKey now response stops = inl (GoogleMapsApiError (status data))) /\
  (forall data, stops <> [] -> response = inr data -> status data = "OK"%string ->
     routes data = [] ->
     GoogleMapsService.optimizeRoute apiKey now response stops = inl TypeError).
Proof.
  intros Hkey. unfold GoogleMapsService.optimizeRoute.
  destruct (String.eqb_spec apiKey ""); [contradiction|].
  assert (Hne : forall (s0 : Stop) rest, exists l, last (s0 :: rest) = Some l).
  { intros s0 rest. destruct (last (s0 :: rest)) eqn:Hl; [eauto|].
    apply last_None in Hl. discriminate. }
  split; [split|].
  - intros [route Hroute].
    apply optimizeRouteWithProvider_inr in Hroute
      as (data & first & Hdata & Hok & Hfirst & Hstops & _).
    split; [exact Hstops|]. exists data. repeat split; auto.
    intros Hnil. rewrite Hnil in Hfirst. discriminate.
  - intros (Hstops & data & -> & Hok & Hroutes).
    unfold optimizeRouteWithProvider.
    destruct stops as [|s0 rest]; [contradiction|].
    destruct (Hne s0 rest) as [l Hl]. cbn [lookup list_lookup]. rewrite Hl, Hok.
    cbn. destruct (routes data) as [|first others]; [contradiction|].
    cbn. eexists. reflexivity.
  - unfold optimizeRouteWithProvider. repeat split.
    + intros ->. reflexivity.
    + intros e Hstops ->. destruct stops as [|s0 rest]; [contradiction|].
      destruct (Hne s0 rest) as [l Hl]. cbn [lookup list_lookup]. rewrite Hl. reflexivity.
    + intros data Hstops -> Hno. destruct stops as [|s0 rest]; [contradiction|].
      destruct (Hne s0 rest) as [l Hl]. cbn [lookup list_lookup]. rewrite Hl.
      destruct (String.eqb_spec (status data) "OK"); [contradiction|reflexivity].
    + intros data Hstops -> Hok Hnil. destruct stops as [|s0 rest]; [contradiction|].
      destruct (Hne s0 rest) as [l Hl]. cbn [lookup list_lookup]. rewrite Hl, Hok, Hnil.
      reflexivity.
Qed.

Lemma provider_branch_outcomes_witness :
  GoogleMapsService.optimizeRoute "key" 0 (inr one_leg_response) [] = inl TypeError /\
  GoogleMapsService.optimizeRoute "key" 0 (inr (mkResponse [] "ZERO_RESULTS")) [stopA; stopB]
  = inl (GoogleMapsApiError "ZERO_RESULTS").
Proof.
  destruct (provider_branch_outcomes "key" 0 (inr one_leg_response) [] ltac:(discriminate))
    as (_ & Hempty & _).
  destruct (provider_branch_outcomes "key" 0 (inr (mkResponse [] "ZERO_RESULTS"))
              [stopA; stopB] ltac:(discriminate)) as (_ & _ & _ & Hstatus & _).
  split; [apply Hempty; reflexivity|].
  apply (Hstatus (mkResponse [] "ZERO_RESULTS")); [discriminate|reflexivity|discriminate].
Defined.

Close Scope R_scope.

(** ** A submission and the reads that follow it *)

(** The world after a submission that meets no failure. *)
Lemma optimizeRoute_success_world o apiKey now id dto user w route :
  fresh id w ->
  request_create_fault o = None ->
  GoogleMapsService.optimizeRoute apiKey now (provider_response o) (dto_stops dto)
    = inr route ->
  route_create_fault o = None ->
  update_completed_fault o = None ->
  let r := optimizeRoute o apiKey now id dto user w in
  let stored :=
    mkRoute (new_route_id o) id (dto_vehicleId dto) (totalDistance route)
      (totalDuration route) (waypoints route)
      (calculateOptimizationMetrics route (dto_stops dto)) (polyline route) in
  requests (snd r) =
    <[id := mkRequest (dto_vehicleId dto) user (dto_stops dto) (dto_preferences dto)
              COMPLETED (Some now)]> (requests w) /\
  optimizedRoutes (snd r) = optimizedRoutes w ++ [stored] /\
  routeUpdates (snd r) = routeUpdates w /\
  effects (snd r) =
    effects w ++ [RequestCreated id PROCESSING]
      ++ (if publish_rejected o then []
          else [Published "route-optimization-events" "ROUTE_OPTIMIZATION_REQUESTED"])
      ++ [Broadcast ("route:" +:+ id) "route_optimization_requested";
          RouteCreated id; RequestUpdated id COMPLETED]
      ++ (if publish_rejected o then []
          else [Published "route-optimization-events" "ROUTE_OPTIMIZED"])
      ++ [Broadcast ("route:" +:+ id) "route_optimized"].
Proof.
  intros (Hreq & Hroutes & Hseq) H1 H2 H3 H4. cbv zeta.
  run_async. rewrite Hreq, H1, H2, H3.
  crunch; rewrite ?H4; crunch.
  all: try congruence.
  all: cbn [snd requests optimizedRoutes routeUpdates effects].
  all: repeat split; rewrite <- ?app_assoc; reflexivity.
Qed.

(** What a run of [optimizeRoute] can change, whatever happens in it. *)
Lemma optimizeRoute_frame o apiKey now id dto user w :
  let w' := snd (optimizeRoute o apiKey now id dto user w) in
  (forall id', id' <> id -> requests w' !! id' = requests w !! id') /\
  (exists new, optimizedRoutes w' = optimizedRoutes w ++ new /\
     (length new <= 1)%nat /\
     Forall (fun r => rt_requestId r = id /\ rt_vehicleId r = dto_vehicleId dto) new) /\
  routeUpdates w' = routeUpdates w /\
  (exists more, effects w' = effects w ++ more).
Proof.
  cbv zeta. run_async.
  destruct (requests w !! id) as [r0|] eqn:Hreq; crunch.
  all: rewrite ?Hreq; crunch.
  all: cbn [snd requests optimizedRoutes routeUpdates effects].
  all: split; [intros id' Hne; rewrite ?lookup_insert_ne by congruence; reflexivity|].
  all: split; [first [exists []; rewrite app_nil_r; split; [reflexivity|split; [cbn; lia|constructor]]
                     |eexists [_]; split; [reflexivity|split; [cbn; lia|repeat constructor]]]|].
  all: split; [reflexivity|].
  all: rewrite <- ?app_assoc; eexists; try reflexivity.
  all: rewrite app_nil_r; reflexivity.
Qed.

Lemma getRouteStatus_served requestId w :
  getRouteStatus None requestId w =
    match requests w !! requestId with
    | None =>
        (inl (NotFoundException
                ("Route optimization request " +:+ requestId +:+ " not found")), w)
    | Some request =>
        (inr (mkRequestWithRoutes request
                (map (fun r => mkRouteWithUpdates r (updates_of (rt_id r) w))
                   (List.filter (fun r => String.eqb (rt_requestId r) requestId)
                      (optimizedRoutes w)))), w)
    end.
Proof. reflexivity. Qed.

Lemma getRouteTracking_served vehicleId w :
  getRouteTracking None vehicleId w =
    (let activeRoutes :=
       map (fun r => mkTrackedRoute r (requests w !! rt_requestId r)
                       (take 10 (reverse (updates_of (rt_id r) w))))
         (take 5 (reverse (List.filter
                             (fun r => String.eqb (rt_vehicleId r) vehicleId)
                             (optimizedRoutes w)))) in
     (inr (mkRouteTracking vehicleId activeRoutes (length activeRoutes)), w)).
Proof. reflexivity. Qed.

(** X16.  After a submission with a new request id that meets no
    failure, the response carries the totals, the waypoints and the metrics
    of the route, and [getRouteStatus] on the request id returns the request
    as COMPLETED, with its completion time, together with exactly one route:
    the one of the response, with the vehicle of the submission. *)
Theorem status_after_successful_submission (o : Outcomes) (apiKey : string) (now : R)
    (id : string) (dto : OptimizeRouteDto) (user : string) (w : World)
    (route : OptimizedRoute) :
  fresh id w ->
  request_create_fault o = None ->
  GoogleMapsService.optimizeRoute apiKey now (provider_response o) (dto_stops dto)
    = inr route ->
  route_create_fault o = None ->
  update_completed_fault o = None ->
  let r := optimizeRoute o apiKey now id dto user w in
  fst r = inr (mkRouteResponse id (totalDistance route) (totalDuration route)
                 (waypoints route) (calculateOptimizationMetrics route (dto_stops dto))) /\
  getRouteStatus None id (snd r) =
    (inr (mkRequestWithRoutes
            (mkRequest (dto_vehicleId dto) user (dto_stops dto) (dto_preferences dto)
               COMPLETED (Some now))
            [mkRouteWithUpdates
               (mkRoute (new_route_id o) id (dto_vehicleId dto) (totalDistance route)
                  (totalDuration route) (waypoints route)
                  (calculateOptimizationMetrics route (dto_stops dto)) (polyline route))
               (updates_of (new_route_id o) w)]),
     snd r).
Proof.
  intros Hfresh H1 H2 H3 H4. cbv zeta.
  split; [exact (proj1 (optimizeRoute_success_path o apiKey now id dto user w route
                          Hfresh H1 H2 H3 H4))|].
  destruct (optimizeRoute_success_world o apiKey now id dto user w route Hfresh H1 H2 H3 H4)
    as (Hrq & Hrt & Hup & _).
  destruct Hfresh as (_ & Hroutes & _). unfold routes_of in Hroutes.
  rewrite getRouteStatus_served. rewrite Hrq, lookup_insert_eq, Hrt.
  rewrite List.filter_app, Hroutes. cbn [List.filter rt_requestId app].
  rewrite String.eqb_refl. cbn [map rt_id]. unfold updates_of. rewrite Hup. reflexivity.
Qed.

Lemma status_after_successful_submission_witness :
  let r := optimizeRoute all_accepted "" 0 "req-1" dto_two_stops "user-1" empty_world in
  fst r = inr (mkRouteResponse "req-1" 5420 960 (waypoints fallback_route_A_B)
                 (calculateOptimizationMetrics fallback_route_A_B [stopA; stopB])) /\
  getRouteStatus None "req-1" (snd r) =
    (inr (mkRequestWithRoutes
            (mkRequest "vehicle-1" "user-1" [stopA; stopB] no_preferences COMPLETED
               (Some 0%R))
            [mkRouteWithUpdates
               (mkRoute "route-1" "req-1" "vehicle-1" 5420 960
                  (waypoints fallback_route_A_B)
                  (calculateOptimizationMetrics fallback_route_A_B [stopA; stopB]) "")
               []]),
     snd r).
Proof.
  apply (status_after_successful_submission all_accepted "" 0 "req-1" dto_two_stops
           "user-1" empty_world fallback_route_A_B).
  - apply fresh_empty_world.
  - reflexivity.
  - unfold GoogleMapsService.optimizeRoute. cbn [String.eqb].
    change (dto_stops dto_two_stops) with [stopA; stopB].
    rewrite (getMockOptimizedRoute_A_B 0). reflexivity.
  - reflexivity.
  - reflexivity.
Defined.

(** X17.  A run of [optimizeRoute], whether it succeeds or fails,
    leaves the answer of [getRouteStatus] for every other request id as it
    was, removes no stored route and changes the updates of no route. *)
Theorem submission_leaves_other_requests (o : Outcomes) (apiKey : string) (now : R)
    (id : string) (dto : OptimizeRouteDto) (user : string) (w : World) (other : string) :
  other <> id ->
  let w' := snd (optimizeRoute o apiKey now id dto user w) in
  fst (getRouteStatus None other w') = fst (getRouteStatus None other w) /\
  (forall routeId, updates_of routeId w' = updates_of routeId w) /\
  (forall r, r ∈ optimizedRoutes w -> r ∈ optimizedRoutes w').
Proof.
  intros Hne. cbv zeta.
  destruct (optimizeRoute_frame o apiKey now id dto user w)
    as (Hrq & (new & Hrt & _ & Hnew) & Hup & _).
  assert (Hupd : forall routeId,
             updates_of routeId (snd (optimizeRoute o apiKey now id dto user w))
             = updates_of routeId w).
  { intros routeId. unfold updates_of. rewrite Hup. reflexivity. }
  split; [|split].
  - rewrite !getRouteStatus_served. rewrite (Hrq other Hne).
    destruct (requests w !! other) as [request|]; [|reflexivity].
    cbn [fst]. rewrite Hrt, List.filter_app.
    assert (Hnone : List.filter (fun r => String.eqb (rt_requestId r) other) new = []).
    { clear Hrt. induction Hnew as [|r new' [Hr _] _ IH]; [reflexivity|].
      cbn [List.filter]. rewrite Hr.
      destruct (String.eqb_spec id other) as [->|_]; [contradiction|exact IH]. }
    rewrite Hnone, app_nil_r. f_equal. f_equal.
    apply map_ext. intros r. rewrite Hupd. reflexivity.
  - exact Hupd.
  - intros r Hin. rewrite Hrt. apply elem_of_app. left. exact Hin.
Qed.

Lemma submission_leaves_other_requests_witness :
  let w' := snd (optimizeRoute provider_timeout "key" 0 "req-2" dto_one_stop "user-2"
                   world_with_route) in
  fst (getRouteStatus None "req-1" w') = fst (getRouteStatus None "req-1" world_with_route) /\
  (forall routeId, updates_of routeId w' = updates_of routeId world_with_route) /\
  (forall r, r ∈ optimizedRoutes world_with_route -> r ∈ optimizedRoutes w').
Proof.
  apply (submission_leaves_other_requests provider_timeout "key" 0 "req-2" dto_one_stop
           "user-2" world_with_route "req-1").
  discriminate.
Defined.

(** ** Tracking *)

Lemma updates_of_spec routeId w u :
  u ∈ updates_of routeId w <-> u ∈ routeUpdates w /\ ru_routeId u = routeId.
Proof.
  unfold updates_of. rewrite !list_elem_of_In, filter_In, String.eqb_eq. reflexivity.
Qed.

Lemma elem_of_take {A} (x : A) n l : x ∈ take n l -> x ∈ l.
Proof.
  intros Hin. rewrite <- (take_drop n l). apply elem_of_app. left. exact Hin.
Qed.

(** X18.  [getRouteTracking] changes nothing in the store and raises
    the error of a rejected query as it is.  Otherwise it lists at most five
    routes, all of them stored routes of the vehicle asked for, each with
    its request and at most ten updates, all of them updates of that route;
    [totalRoutes] is the number of routes listed, the smaller of five and
    the number of routes of the vehicle. *)
Theorem tracking_lists_only_the_vehicle (vehicleId : string) (w : World) :
  (forall e, getRouteTracking (Some e) vehicleId w = (inl e, w)) /\
  exists t,
    getRouteTracking None vehicleId w = (inr t, w) /\
    trk_vehicleId t = vehicleId /\
    trk_totalRoutes t = length (trk_activeRoutes t) /\
    trk_totalRoutes t =
      Nat.min 5 (length (List.filter (fun r => String.eqb (rt_vehicleId r) vehicleId)
                           (optimizedRoutes w))) /\
    Forall (fun tr =>
              tr_route tr ∈ optimizedRoutes w /\
              rt_vehicleId (tr_route tr) = vehicleId /\
              tr_request tr = requests w !! rt_requestId (tr_route tr) /\
              (length (tr_updates tr) <= 10)%nat /\
              Forall (fun u => u ∈ routeUpdates w /\ ru_routeId u = rt_id (tr_route tr))
                (tr_updates tr))
      (trk_activeRoutes t).
Proof.
  split; [reflexivity|].
  rewrite getRouteTracking_served. cbv zeta. eexists. split; [reflexivity|].
  cbn [trk_vehicleId trk_totalRoutes trk_activeRoutes].
  split; [reflexivity|]. split; [reflexivity|].
  split.
  - rewrite length_map, length_take, length_reverse. reflexivity.
  - apply Forall_forall. intros tr Hin.
    apply list_elem_of_fmap in Hin as (r & -> & Hr).
    cbn [tr_route tr_request tr_updates].
    apply elem_of_take in Hr. rewrite elem_of_reverse in Hr.
    apply list_elem_of_In, filter_In in Hr as [Hr Hv]. apply String.eqb_eq in Hv.
    split; [apply list_elem_of_In; exact Hr|]. split; [exact Hv|]. split; [reflexivity|].
    split; [rewrite length_take; lia|].
    apply Forall_forall. intros u Hu.
    apply elem_of_take in Hu. rewrite elem_of_reverse in Hu.
    apply updates_of_spec in Hu. exact Hu.
Qed.

(** X19.  After a submission with a new request id that meets no
    failure, [getRouteTracking] for the vehicle of the submission lists the
    new route first, with its request as COMPLETED, followed by the first
    four routes that it listed before. *)
Theorem tracking_shows_new_route_first (o : Outcomes) (apiKey : string) (now : R)
    (id : string) (dto : OptimizeRouteDto) (user : string) (w : World)
    (route : OptimizedRoute) :
  fresh id w ->
  request_create_fault o = None ->
  GoogleMapsService.optimizeRoute apiKey now (provider_response o) (dto_stops dto)
    = inr route ->
  route_create_fault o = None ->
  update_completed_fault o = None ->
  let w' := snd (optimizeRoute o apiKey now id dto user w) in
  exists before after,
    getRouteTracking None (dto_vehicleId dto) w = (inr before, w) /\
    getRouteTracking None (dto_vehicleId dto) w' = (inr after, w') /\
    trk_activeRoutes after =
      mkTrackedRoute
        (mkRoute (new_route_id o) id (dto_vehicleId dto) (totalDistance route)
           (totalDuration route) (waypoints route)
           (calculateOptimizationMetrics route (dto_stops dto)) (polyline route))
        (Some (mkRequest (dto_vehicleId dto) user (dto_stops dto)
                 (dto_preferences dto) COMPLETED (Some now)))
        (take 10 (reverse (updates_of (new_route_id o) w)))
      :: take 4 (trk_activeRoutes before).
Proof.
  intros Hfresh H1 H2 H3 H4. cbv zeta.
  destruct (optimizeRoute_success_world o apiKey now id dto user w route Hfresh H1 H2 H3 H4)
    as (Hrq & Hrt & Hup & _).
  destruct Hfresh as (Hreq & Hroutes & _). unfold routes_of in Hroutes.
  rewrite !getRouteTracking_served. cbv zeta. eexists. eexists.
  split; [reflexivity|]. split; [reflexivity|].
  cbn [trk_activeRoutes].
  assert (Hupd : forall routeId,
             updates_of routeId (snd (optimizeRoute o apiKey now id dto user w))
             = updates_of routeId w).
  { intros routeId. unfold updates_of. rewrite Hup. reflexivity. }
  rewrite Hrt, List.filter_app. cbn [List.filter rt_vehicleId].
  rewrite String.eqb_refl, reverse_app, reverse_singleton.
  cbn [app take map tr_route rt_requestId rt_id].
  rewrite Hrq, lookup_insert_eq, Hupd. f_equal.
  rewrite <- !fmap_take, take_take. change (4 `min` 5)%nat with 4%nat.
  apply list_fmap_ext. intros i r Hi.
  apply list_elem_of_lookup_2, elem_of_take in Hi. rewrite elem_of_reverse in Hi.
  apply list_elem_of_In, filter_In in Hi as [Hin _].
  assert (Hne : rt_requestId r <> id).
  { intros Heq.
    assert (Hf : In r (List.filter (fun r => String.eqb (rt_requestId r) id)
                         (optimizedRoutes w))).
    { apply filter_In. split; [exact Hin|]. apply String.eqb_eq. exact Heq. }
    rewrite Hroutes in Hf. destruct Hf. }
  rewrite lookup_insert_ne by congruence. rewrite Hupd. reflexivity.
Qed.

Lemma tracking_shows_new_route_first_witness :
  let w' := snd (optimizeRoute all_accepted "" 0 "req-2" dto_two_stops "user-1"
                   world_with_route) in
  exists before after,
    getRouteTracking None "vehicle-1" world_with_route = (inr before, world_with_route) /\
    getRouteTracking None "vehicle-1" w' = (inr after, w') /\
    trk_activeRoutes after =
      mkTrackedRoute
        (mkRoute "route-1" "req-2" "vehicle-1" 5420 960 (waypoints fallback_route_A_B)
           (calculateOptimizationMetrics fallback_route_A_B [stopA; stopB]) "")
        (Some (mkRequest "vehicle-1" "user-1" [stopA; stopB] no_preferences COMPLETED
                 (Some 0%R)))
        (take 10 (reverse (updates_of "route-1" world_with_route)))
      :: take 4 (trk_activeRoutes before).
Proof.
  apply (tracking_shows_new_route_first all_accepted "" 0 "req-2" dto_two_stops "user-1"
           world_with_route fallback_route_A_B).
  - repeat split.
  - reflexivity.
  - unfold GoogleMapsService.optimizeRoute. cbn [String.eqb].
    change (dto_stops dto_two_stops) with [stopA; stopB].
    rewrite (getMockOptimizedRoute_A_B 0). reflexivity.
  - reflexivity.
  - reflexivity.
Defined.

(** ** Updates *)

(** X20.  After an update that the store accepts, the update row is
    the newest of its route and is the first of the updates that
    [getRouteTracking] shows for that route; the updates of every other
    route and the routes that are listed are as before. *)
Theorem update_is_newest_in_tracking (o : Outcomes) (routeId : string)
    (updateDto : RouteUpdateDto) (vehicleId : string) (w : World) (route : RouteRecord) :
  route_findFirst routeId vehicleId w = Some route ->
  route_update_create_fault o = None ->
  let r := updateRoute o routeId updateDto vehicleId w in
  let update :=
    mkRouteUpdate routeId vehicleId (upd_reason updateDto) (rt_waypoints route) in
  fst r = inr (mkUpdateResponse routeId vehicleId (upd_reason updateDto)
                 "Route update recorded successfully") /\
  (forall other, other <> routeId -> updates_of other (snd r) = updates_of other w) /\
  updates_of routeId (snd r) = updates_of routeId w ++ [update] /\
  exists before after,
    getRouteTracking None vehicleId w = (inr before, w) /\
    getRouteTracking None vehicleId (snd r) = (inr after, snd r) /\
    map tr_route (trk_activeRoutes after) = map tr_route (trk_activeRoutes before) /\
    Forall (fun tr => rt_id (tr_route tr) = routeId -> head (tr_updates tr) = Some update)
      (trk_activeRoutes after).
Proof.
  intros Hfind Hfault. cbv zeta.
  destruct (updateRoute_accepted o routeId updateDto vehicleId w route Hfind Hfault)
    as (Hres & Hrq & Hrt & Hup & _).
  set (r := updateRoute o routeId updateDto vehicleId w) in *.
  assert (Hsame : updates_of routeId (snd r) = updates_of routeId w ++
            [mkRouteUpdate routeId vehicleId (upd_reason updateDto) (rt_waypoints route)]).
  { unfold updates_of. rewrite Hup, List.filter_app. cbn [List.filter ru_routeId].
    rewrite String.eqb_refl. reflexivity. }
  split; [exact Hres|]. split; [|split; [exact Hsame|]].
  - intros other Hne. unfold updates_of. rewrite Hup, List.filter_app.
    cbn [List.filter ru_routeId].
    destruct (String.eqb_spec routeId other) as [->|_]; [contradiction|].
    apply app_nil_r.
  - rewrite !getRouteTracking_served. cbv zeta. eexists. eexists.
    split; [reflexivity|]. split; [reflexivity|].
    cbn [trk_activeRoutes]. rewrite Hrt. split.
    + rewrite !map_map. reflexivity.
    + apply Forall_forall. intros tr Hin.
      apply list_elem_of_fmap in Hin as (r0 & -> & _).
      cbn [tr_route tr_updates]. intros ->.
      rewrite Hsame, reverse_app, reverse_singleton. reflexivity.
Qed.

Lemma update_is_newest_in_tracking_witness :
  let r := updateRoute all_accepted "route-1" emergency_update "vehicle-1" world_with_route in
  let update := mkRouteUpdate "route-1" "vehicle-1" "EMERGENCY" [waypoint_at stopA 0] in
  fst r = inr (mkUpdateResponse "route-1" "vehicle-1" "EMERGENCY"
                 "Route update recorded successfully") /\
  (forall other, other <> "route-1"%string ->
     updates_of other (snd r) = updates_of other world_with_route) /\
  updates_of "route-1" (snd r) = updates_of "route-1" world_with_route ++ [update] /\
  exists before after,
    getRouteTracking None "vehicle-1" world_with_route = (inr before, world_with_route) /\
    getRouteTracking None "vehicle-1" (snd r) = (inr after, snd r) /\
    map tr_route (trk_activeRoutes after) = map tr_route (trk_activeRoutes before) /\
    Forall (fun tr => rt_id (tr_route tr) = "route-1"%string ->
                      head (tr_updates tr) = Some update)
      (trk_activeRoutes after).
Proof.
  apply (update_is_newest_in_tracking all_accepted "route-1" emergency_update "vehicle-1"
           world_with_route
           (mkRoute "route-1" "req-1" "vehicle-1" 0 0 [waypoint_at stopA 0]
              (mkMetrics 0 0 0 0 0 (mkEfficiency 0 0 0)) "")).
  - reflexivity.
  - reflexivity.
Defined.

Lemma find_app_None {A} (f : A -> bool) l1 l2 :
  find f l1 = None -> find f (l1 ++ l2) = find f l2.
Proof.
  induction l1 as [|a l1 IH]; [reflexivity|]. cbn [find app].
  destruct (f a); [discriminate|exact IH].
Qed.

(** X21.  A route stored by a submission, under a route id that no
    other route has, can be updated for the vehicle of the submission: the
    update row carries the waypoints of the route.  For every other vehicle
    [updateRoute] raises [NotFoundException] and changes nothing. *)
Theorem stored_route_is_updated_by_its_vehicle_only (o o2 : Outcomes) (apiKey : string)
    (now : R) (id : string) (dto : OptimizeRouteDto) (user : string) (w : World)
    (route : OptimizedRoute) (updateDto : RouteUpdateDto) :
  fresh id w ->
  (forall r, r ∈ optimizedRoutes w -> rt_id r <> new_route_id o) ->
  request_create_fault o = None ->
  GoogleMapsService.optimizeRoute apiKey now (provider_response o) (dto_stops dto)
    = inr route ->
  route_create_fault o = None ->
  update_completed_fault o = None ->
  let w' := snd (optimizeRoute o apiKey now id dto user w) in
  (route_update_create_fault o2 = None ->
   let r := updateRoute o2 (new_route_id o) updateDto (dto_vehicleId dto) w' in
   fst r = inr (mkUpdateResponse (new_route_id o) (dto_vehicleId dto)
                  (upd_reason updateDto) "Route update recorded successfully") /\
   routeUpdates (snd r) =
     routeUpdates w ++
     [mkRouteUpdate (new_route_id o) (dto_vehicleId dto) (upd_reason updateDto)
        (waypoints route)]) /\
  (forall vehicleId, vehicleId <> dto_vehicleId dto ->
   updateRoute o2 (new_route_id o) updateDto vehicleId w' =
     (inl (NotFoundException
             ("Route " +:+ new_route_id o +:+ " not found for vehicle " +:+ vehicleId)),
      w')).
Proof.
  intros Hfresh Hids H1 H2 H3 H4. cbv zeta.
  destruct (optimizeRoute_success_world o apiKey now id dto user w route Hfresh H1 H2 H3 H4)
    as (Hrq & Hrt & Hup & _).
  set (w' := snd (optimizeRoute o apiKey now id dto user w)) in *.
  assert (Hold : forall vehicleId,
             find (fun r => String.eqb (rt_id r) (new_route_id o)
                            && String.eqb (rt_vehicleId r) vehicleId)
               (optimizedRoutes w) = None).
  { intros vehicleId. apply (proj2 (route_findFirst_None (new_route_id o) vehicleId w)).
    intros r Hin [Hid _]. exact (Hids r Hin Hid). }
  split.
  - intros Hfault.
    assert (Hfind : route_findFirst (new_route_id o) (dto_vehicleId dto) w' =
              Some (mkRoute (new_route_id o) id (dto_vehicleId dto) (totalDistance route)
                      (totalDuration route) (waypoints route)
                      (calculateOptimizationMetrics route (dto_stops dto))
                      (polyline route))).
    { unfold route_findFirst. rewrite Hrt, find_app_None by apply Hold.
      cbn [find rt_id rt_vehicleId]. rewrite !String.eqb_refl. reflexivity. }
    destruct (updateRoute_accepted o2 (new_route_id o) updateDto (dto_vehicleId dto) w' _
                Hfind Hfault) as (Hres & _ & _ & Hup' & _).
    split; [exact Hres|]. rewrite Hup', Hup. reflexivity.
  - intros vehicleId Hne. unfold updateRoute.
    assert (Hfind : route_findFirst (new_route_id o) vehicleId w' = None).
    { unfold route_findFirst. rewrite Hrt, find_app_None by apply Hold.
      cbn [find rt_id rt_vehicleId]. rewrite String.eqb_refl.
      destruct (String.eqb_spec (dto_vehicleId dto) vehicleId) as [Heq|_];
        [congruence|reflexivity]. }
    rewrite Hfind. reflexivity.
Qed.

Lemma stored_route_is_updated_by_its_vehicle_only_witness :
  let w' := snd (optimizeRoute all_accepted "" 0 "req-1" dto_two_stops "user-1"
                   empty_world) in
  (route_update_create_fault all_accepted = None ->
   let r := updateRoute all_accepted "route-1" emergency_update "vehicle-1" w' in
   fst r = inr (mkUpdateResponse "route-1" "vehicle-1" "EMERGENCY"
                  "Route update recorded successfully") /\
   routeUpdates (snd r) =
     [mkRouteUpdate "route-1" "vehicle-1" "EMERGENCY" (waypoints fallback_route_A_B)]) /\
  (forall vehicleId, vehicleId <> "vehicle-1"%string ->
   updateRoute all_accepted "route-1" emergency_update vehicleId w' =
     (inl (NotFoundException ("Route route-1 not found for vehicle " +:+ vehicleId)), w')).
Proof.
  apply (stored_route_is_updated_by_its_vehicle_only all_accepted all_accepted "" 0 "req-1"
           dto_two_stops "user-1" empty_world fallback_route_A_B emergency_update).
  - apply fresh_empty_world.
  - intros r Hin. apply elem_of_nil in Hin. destruct Hin.
  - reflexivity.
  - unfold GoogleMapsService.optimizeRoute. cbn [String.eqb].
    change (dto_stops dto_two_stops) with [stopA; stopB].
    rewrite (getMockOptimizedRoute_A_B 0). reflexivity.
  - reflexivity.
  - reflexivity.
Defined.

(** ** The registry of connected clients *)

(** X22.  [handleDisconnect] after [handleConnection] leaves the
    registry without the socket, and as it was when the socket was not
    registered before.  For a socket that was not registered,
    [getConnectedClientsCount] grows by one when the token of the socket
    passes verification, and stays as it was otherwise; for a registered
    socket a new connection does not change the count, and a disconnection
    lowers it by one.  [handleDisconnect] acts on no socket. *)
Theorem registry_counts_verified_sockets (cfg : GatewayConfig) (client : Socket)
    (g : Gateway) :
  let g' := handleConnection cfg client g in
  connectedClients (handleDisconnect client g') =
    delete (socket_id client) (connectedClients g) /\
  (connectedClients g !! socket_id client = None ->
   connectedClients (handleDisconnect client g') = connectedClients g /\
   ((exists payload, passes_verification cfg (handshake client) payload) ->
    getConnectedClientsCount g' = S (getConnectedClientsCount g)) /\
   (~ (exists payload, passes_verification cfg (handshake client) payload) ->
    getConnectedClientsCount g' = getConnectedClientsCount g)) /\
  (is_Some (connectedClients g !! socket_id client) ->
   getConnectedClientsCount g' = getConnectedClientsCount g /\
   getConnectedClientsCount g = S (getConnectedClientsCount (handleDisconnect client g))) /\
  actions (handleDisconnect client g) = actions g.
Proof.
  cbv zeta. unfold getConnectedClientsCount.
  destruct (handleConnection_dichotomy cfg (handshake client)) as [Hrej|[payload Hacc]].
  - rewrite (handleConnection_rejected cfg client g Hrej).
    unfold handleDisconnect. cbn [connectedClients actions].
    split; [reflexivity|]. split; [|split; [|reflexivity]].
    + intros Hnone. split; [apply delete_id; exact Hnone|]. split; [|reflexivity].
      intros (payload & token & Htok & Htruthy & Hver). exfalso.
      destruct Hrej as [Hfalsy|(token' & error & Htok' & Hver')].
      * rewrite Htok, Htruthy in Hfalsy. discriminate.
      * congruence.
    + intros [p Hp]. split; [reflexivity|].
      rewrite <- (insert_delete_id (connectedClients g) (socket_id client) p Hp) at 1.
      rewrite map_size_insert_None by apply lookup_delete_eq. reflexivity.
  - rewrite (handleConnection_accepted cfg client g payload Hacc).
    unfold handleDisconnect. cbn [connectedClients actions].
    split; [apply delete_insert_eq|]. split; [|split; [|reflexivity]].
    + intros Hnone. split; [rewrite delete_insert_eq; apply delete_id; exact Hnone|].
      split.
      * intros _. apply map_size_insert_None. exact Hnone.
      * intros Hno. exfalso. apply Hno. exists payload. exact Hacc.
    + intros [p Hp]. split.
      * apply map_size_insert_Some. exists p. exact Hp.
      * rewrite <- (insert_delete_id (connectedClients g) (socket_id client) p Hp) at 1.
        rewrite map_size_insert_None by apply lookup_delete_eq. reflexivity.
Qed.

(** ** Strings *)

Lemma append_nil s : "" +:+ s = s.
Proof. reflexivity. Qed.

Lemma append_String c a b : String c a +:+ b = String c (a +:+ b).
Proof. reflexivity. Qed.

Lemma split_on_nonempty sep s : split_on sep s <> [].
Proof.
  destruct s as [|c rest]; cbn [split_on]; [discriminate|].
  destruct (Ascii.eqb c sep); [discriminate|].
  destruct (split_on sep rest); discriminate.
Qed.

Lemma split_on_app sep a b :
  split_on sep (a +:+ String sep b) = split_on sep a ++ split_on sep b.
Proof.
  induction a as [|c a IH]; rewrite ?append_nil, ?append_String; cbn [split_on].
  - rewrite Ascii.eqb_refl. reflexivity.
  - destruct (Ascii.eqb c sep); [rewrite IH; reflexivity|].
    rewrite IH. pose proof (split_on_nonempty sep a) as Hne.
    destruct (split_on sep a) as [|piece pieces]; [contradiction|reflexivity].
Qed.

Lemma split_on_free sep s :
  free_of (fun a => Ascii.eqb a sep) s = true -> split_on sep s = [s].
Proof.
  induction s as [|c s IH]; cbn [free_of split_on]; [reflexivity|].
  intros H. apply andb_prop in H as [Hc Hs].
  apply negb_true_iff in Hc. rewrite Hc, (IH Hs). reflexivity.
Qed.

Lemma free_of_weaken (p q : ascii -> bool) s :
  (forall a, q a = true -> p a = true) -> free_of p s = true -> free_of q s = true.
Proof.
  intros Hpq. induction s as [|c s IH]; cbn [free_of]; [reflexivity|].
  intros H. apply andb_prop in H as [Hc Hs]. rewrite (IH Hs), andb_true_r.
  apply negb_true_iff. apply negb_true_iff in Hc.
  destruct (q c) eqn:Hq; [rewrite (Hpq c Hq) in Hc; discriminate|reflexivity].
Qed.

Lemma free_of_app p a b :
  free_of p (a +:+ b) = free_of p a && free_of p b.
Proof.
  induction a as [|c a IH]; rewrite ?append_nil, ?append_String; cbn [free_of]; [reflexivity|].
  rewrite IH, andb_assoc. reflexivity.
Qed.

Lemma trimStart_free s rest :
  free_of is_whitespace s = true ->
  trimStart (s +:+ String "=" rest) = s +:+ String "=" rest.
Proof.
  destruct s as [|c s]; rewrite ?append_nil, ?append_String; cbn [trimStart free_of]; [reflexivity|].
  intros H. apply andb_prop in H as [Hc _]. apply negb_true_iff in Hc.
  rewrite Hc. reflexivity.
Qed.

Lemma prefix_trimEnd p s :
  free_of is_whitespace p = true -> String.prefix p (trimEnd s) = String.prefix p s.
Proof.
  revert p. induction s as [|c s IH]; intros p Hp; [reflexivity|].
  destruct p as [|a p]; [destruct (trimEnd (String c s)); reflexivity|].
  cbn [free_of] in Hp. apply andb_prop in Hp as [Ha Hp]. apply negb_true_iff in Ha.
  cbn [trimEnd].
  destruct (is_whitespace c && String.eqb (trimEnd s) "") eqn:Hws.
  - apply andb_prop in Hws as [Hc _]. cbn [String.prefix].
    destruct (ascii_dec a c) as [->|_]; [congruence|reflexivity].
  - cbn [String.prefix]. destruct (ascii_dec a c); [apply IH; exact Hp|reflexivity].
Qed.

Lemma prefix_name p n v :
  free_of (fun a => Ascii.eqb a "=") p = true ->
  free_of (fun a => Ascii.eqb a "=") n = true ->
  String.prefix (p +:+ "=") (n +:+ String "=" v) = String.eqb n p.
Proof.
  revert n. induction p as [|a p IH]; intros n Hp Hn.
  - destruct n as [|c n]; rewrite ?append_nil, ?append_String;
      cbn [String.prefix String.eqb].
    + destruct (ascii_dec "=" "="); [destruct v; reflexivity|contradiction].
    + cbn [free_of] in Hn. apply andb_prop in Hn as [Hc _]. apply negb_true_iff in Hc.
      destruct (ascii_dec "=" c) as [<-|_]; [discriminate|reflexivity].
  - cbn [free_of] in Hp. apply andb_prop in Hp as [Ha Hp]. apply negb_true_iff in Ha.
    destruct n as [|c n]; rewrite ?append_nil, ?append_String;
      cbn [String.prefix String.eqb].
    + destruct (ascii_dec a "=") as [->|_]; [discriminate|reflexivity].
    + cbn [free_of] in Hn. apply andb_prop in Hn as [_ Hn].
      destruct (ascii_dec a c) as [->|Hne].
      * rewrite Ascii.eqb_refl. apply IH; assumption.
      * destruct (Ascii.eqb_spec c a) as [->|_]; [contradiction|reflexivity].
Qed.

(** ** The cookie of the access token *)

Lemma well_formed_cookie_parts c :
  well_formed_cookie c = true ->
  free_of (fun a => Ascii.eqb a ";") (fst c) = true /\
  free_of (fun a => Ascii.eqb a "=") (fst c) = true /\
  free_of is_whitespace (fst c) = true /\
  free_of (fun a => Ascii.eqb a ";") (snd c) = true.
Proof.
  unfold well_formed_cookie. intros H. apply andb_prop in H as [Hn Hv].
  repeat split; try exact Hv.
  all: refine (free_of_weaken _ _ _ _ Hn); intros a Ha; cbn beta; rewrite Ha, ?orb_true_r;
    reflexivity.
Qed.

Lemma append_assoc_s a b c : (a +:+ b) +:+ c = a +:+ (b +:+ c).
Proof.
  induction a as [|x a IH]; rewrite ?append_nil, ?append_String; [reflexivity|].
  rewrite IH. reflexivity.
Qed.

Lemma cookie_piece_matches pre c :
  pre = "" \/ pre = " " ->
  well_formed_cookie c = true ->
  startsWith (trim (cookie_piece pre c)) "access_token=" =
    String.eqb (fst c) "access_token".
Proof.
  intros Hpre Hwf. apply well_formed_cookie_parts in Hwf as (_ & Heq & Hws & _).
  unfold cookie_piece, trim, startsWith.
  assert (Hstart : trimStart (pre +:+ fst c +:+ String "=" (snd c)) =
                   fst c +:+ String "=" (snd c)).
  { destruct Hpre as [->| ->]; rewrite ?append_nil, ?append_String.
    - apply trimStart_free. exact Hws.
    - cbn [trimStart]. change (is_whitespace " ") with true. cbv iota.
      apply trimStart_free. exact Hws. }
  rewrite Hstart, prefix_trimEnd by reflexivity.
  change "access_token=" with ("access_token" +:+ "=").
  apply prefix_name; [reflexivity|exact Heq].
Qed.

Lemma cookie_piece_value pre c :
  pre = "" \/ pre = " " ->
  well_formed_cookie c = true ->
  split_on "=" (cookie_piece pre c) !! 1%nat = value_up_to_equals c.
Proof.
  intros Hpre Hwf. apply well_formed_cookie_parts in Hwf as (_ & Heq & _ & _).
  unfold cookie_piece, value_up_to_equals.
  rewrite <- append_assoc_s, split_on_app.
  rewrite (split_on_free "=" (pre +:+ fst c)).
  - reflexivity.
  - rewrite free_of_app, Heq. destruct Hpre as [->| ->]; reflexivity.
Qed.

Lemma cookie_header_cons c c2 rest :
  cookie_header (c :: c2 :: rest) =
    (fst c +:+ String "=" (snd c)) +:+ "; " +:+ cookie_header (c2 :: rest).
Proof. reflexivity. Qed.

Lemma split_on_cookie_header pre c rest :
  pre = "" \/ pre = " " ->
  Forall (fun c => well_formed_cookie c = true) (c :: rest) ->
  split_on ";" (pre +:+ cookie_header (c :: rest)) =
    cookie_piece pre c :: map (cookie_piece " ") rest.
Proof.
  revert pre c. induction rest as [|c2 rest IH]; intros pre c Hpre Hwf.
  - apply Forall_inv in Hwf. apply well_formed_cookie_parts in Hwf as (Hn & _ & _ & Hv).
    unfold cookie_header. cbn [map String.concat].
    change (fst c +:+ "=" +:+ snd c) with (fst c +:+ String "=" (snd c)).
    unfold cookie_piece. cbn [map].
    apply split_on_free. rewrite !free_of_app, Hn. cbn [free_of]. rewrite Hv.
    destruct Hpre as [->| ->]; reflexivity.
  - pose proof (Forall_inv Hwf) as Hc. apply Forall_inv_tail in Hwf.
    apply well_formed_cookie_parts in Hc as (Hn & _ & _ & Hv).
    rewrite cookie_header_cons.
    change ("; " +:+ cookie_header (c2 :: rest))
      with (String ";" (" " +:+ cookie_header (c2 :: rest))).
    rewrite <- append_assoc_s, split_on_app.
    rewrite (IH " " c2 (or_intror eq_refl) Hwf).
    rewrite split_on_free; [reflexivity|].
    rewrite !free_of_app, Hn. cbn [free_of]. rewrite Hv.
    destruct Hpre as [->| ->]; reflexivity.
Qed.

Lemma find_cookie_pieces rest :
  Forall (fun c => well_formed_cookie c = true) rest ->
  find (fun cookie => startsWith (trim cookie) "access_token=")
    (map (cookie_piece " ") rest) ≫= (fun piece => split_on "=" piece !! 1%nat) =
  find (fun c => String.eqb (fst c) "access_token") rest ≫= value_up_to_equals.
Proof.
  induction 1 as [|c rest Hc _ IH]; [reflexivity|].
  cbn [map find]. rewrite (cookie_piece_matches " " c (or_intror eq_refl) Hc).
  destruct (String.eqb (fst c) "access_token"); [|exact IH].
  cbn [mbind option_bind]. apply cookie_piece_value; [right; reflexivity|exact Hc].
Qed.

Lemma cookie_header_not_empty c rest : String.eqb (cookie_header (c :: rest)) "" = false.
Proof.
  unfold cookie_header. cbn [map String.concat].
  change (fst c +:+ "=" +:+ snd c) with (fst c +:+ String "=" (snd c)).
  destruct rest as [|c2 rest]; destruct (fst c); reflexivity.
Qed.

(** X23.  For a [Cookie] header made of well-formed cookies, whose
    names have no white space (the no-break space included), no [;] and no
    [=], [cookie_token] is the value of the first cookie named
    [access_token], cut at its first [=]; so a value without [=] is read
    back as it was written, whatever the other cookies are, and there is no
    token when no cookie has that name. *)
Theorem cookie_token_reads_cookie_header (cookies : list (string * string)) :
  Forall (fun c => well_formed_cookie c = true) cookies ->
  cookie_token (Some (cookie_header cookies)) =
    find (fun c => String.eqb (fst c) "access_token") cookies ≫= value_up_to_equals /\
  (forall name value,
     find (fun c => String.eqb (fst c) "access_token") cookies = Some (name, value) ->
     free_of (fun a => Ascii.eqb a "=") value = true ->
     cookie_token (Some (cookie_header cookies)) = Some value).
Proof.
  intros Hwf.
  assert (Hmain : cookie_token (Some (cookie_header cookies)) =
            find (fun c => String.eqb (fst c) "access_token") cookies
              ≫= value_up_to_equals).
  { destruct cookies as [|c rest]; [reflexivity|].
    unfold cookie_token, truthy. rewrite cookie_header_not_empty. cbn [negb].
    pose proof (split_on_cookie_header "" c rest (or_introl eq_refl) Hwf) as Hsplit.
    rewrite append_nil in Hsplit. cbv zeta. rewrite Hsplit.
    pose proof (Forall_inv Hwf) as Hc. apply Forall_inv_tail in Hwf.
    cbn [find]. rewrite (cookie_piece_matches "" c (or_introl eq_refl) Hc).
    destruct (String.eqb (fst c) "access_token").
    - cbn [mbind option_bind]. apply cookie_piece_value; [left; reflexivity|exact Hc].
    - rewrite <- (find_cookie_pieces rest Hwf).
      destruct (find _ (map (cookie_piece " ") rest)); reflexivity. }
  split; [exact Hmain|].
  intros name value Hfind Hfree. rewrite Hmain, Hfind. cbn [mbind option_bind].
  unfold value_up_to_equals. cbn [snd]. rewrite (split_on_free "=" value Hfree). reflexivity.
Qed.

Lemma cookie_token_reads_cookie_header_witness :
  cookie_token (Some (cookie_header [("theme", "dark"); ("access_token", "good")])) =
    find (fun c => String.eqb (fst c) "access_token")
      [("theme", "dark"); ("access_token", "good")] ≫= value_up_to_equals /\
  (forall name value,
     find (fun c => String.eqb (fst c) "access_token")
       [("theme", "dark"); ("access_token", "good")] = Some (name, value) ->
     free_of (fun a => Ascii.eqb a "=") value = true ->
     cookie_token (Some (cookie_header [("theme", "dark"); ("access_token", "good")])) =
       Some value).
Proof.
  apply (cookie_token_reads_cookie_header [("theme", "dark"); ("access_token", "good")]).
  repeat constructor.
Defined.

(** ** The token of the handshake *)

Lemma substring_all s : String.substring 0 (String.length s) s = s.
Proof.
  induction s as [|c s IH]; [reflexivity|]. cbn [String.length String.substring].
  rewrite IH. reflexivity.
Qed.

Lemma replace_first_eq pat rep s :
  replace_first pat rep s =
    if String.prefix pat s
    then rep +:+ String.substring (String.length pat)
                   (String.length s - String.length pat) s
    else
      match s with
      | EmptyString => EmptyString
      | String c rest => String c (replace_first pat rep rest)
      end.
Proof. destruct s; reflexivity. Qed.

Lemma prefix_append p t : String.prefix p (p +:+ t) = true.
Proof.
  induction p as [|c p IH]; rewrite ?append_nil, ?append_String; cbn [String.prefix].
  - destruct t; reflexivity.
  - destruct (ascii_dec c c); [exact IH|contradiction].
Qed.

Lemma substring_append p t :
  String.substring (String.length p) (String.length (p +:+ t) - String.length p)
    (p +:+ t) = t.
Proof.
  induction p as [|c p IH]; rewrite ?append_nil, ?append_String.
  - cbn [String.length]. rewrite Nat.sub_0_r. apply substring_all.
  - cbn [String.length String.substring Nat.sub]. exact IH.
Qed.

Lemma substring_0_0 s : String.substring 0 0 s = ""%string.
Proof. destruct s; reflexivity. Qed.

(** [replace] with a string pattern and an empty replacement removes the
    first occurrence of the pattern and nothing else. *)
Lemma replace_first_without_first pat s :
  replace_first pat "" s = without_first pat s.
Proof.
  unfold without_first. induction s as [|c s IH].
  - rewrite replace_first_eq. cbn [String.index].
    destruct pat as [|a pat]; reflexivity.
  - rewrite replace_first_eq. cbn [String.index].
    destruct (String.prefix pat (String c s)) eqn:Hp.
    + cbn [Nat.add]. rewrite substring_0_0, !append_nil. reflexivity.
    + rewrite IH. destruct (String.index 0 pat s) as [i|]; [|reflexivity].
      cbn [String.substring String.length Nat.add Nat.sub].
      rewrite append_String. reflexivity.
Qed.

Lemma index_prefix pat t : String.index 0 pat (pat +:+ t) = Some 0%nat.
Proof.
  pose proof (prefix_append pat t) as Hp.
  destruct (pat +:+ t) as [|c s] eqn:Heq; cbn [String.index].
  - destruct pat; [reflexivity|discriminate].
  - rewrite Hp. reflexivity.
Qed.

Lemma without_first_prefix pat t : without_first pat (pat +:+ t) = t.
Proof.
  unfold without_first. rewrite index_prefix. cbn [Nat.add].
  rewrite substring_0_0, append_nil. apply substring_append.
Qed.

(** X24.  The token of a handshake is the one of the cookie when
    that is not empty; otherwise the one of the [auth] object when that is
    not empty; otherwise the [Authorization] header without the first
    occurrence of [Bearer ], wherever in the header that is: a header that
    begins with it gives the rest, and a header in which it does not occur,
    such as one of another scheme, is taken whole. *)
Theorem token_sources_in_order (h : Handshake) :
  (truthy (cookie_token (hs_cookie h)) = true ->
   extract_token h = cookie_token (hs_cookie h)) /\
  (truthy (cookie_token (hs_cookie h)) = false ->
   (truthy (hs_auth_token h) = true -> extract_token h = hs_auth_token h) /\
   (truthy (hs_auth_token h) = false ->
    extract_token h = without_first "Bearer " <$> hs_authorization h /\
    (forall t, hs_authorization h = Some ("Bearer " +:+ t) -> extract_token h = Some t) /\
    (forall s, hs_authorization h = Some s -> String.index 0 "Bearer " s = None ->
               extract_token h = Some s))).
Proof.
  unfold extract_token, or_else. split.
  - intros ->. reflexivity.
  - intros ->. cbn [negb]. split.
    + intros ->. reflexivity.
    + intros ->.
      assert (Hmain : replace_first "Bearer " "" <$> hs_authorization h
                      = without_first "Bearer " <$> hs_authorization h).
      { destruct (hs_authorization h) as [s|]; [|reflexivity].
        cbn [fmap option_fmap option_map]. rewrite replace_first_without_first.
        reflexivity. }
      rewrite Hmain. split; [reflexivity|]. split.
      * intros t ->. cbn [fmap option_fmap option_map].
        rewrite without_first_prefix. reflexivity.
      * intros s -> Hnone. cbn [fmap option_fmap option_map].
        unfold without_first. rewrite Hnone. reflexivity.
Qed.

(** A header of another scheme is taken whole, and [Bearer ] is removed
    where it stands. *)
Lemma without_first_examples :
  without_first "Bearer " "Basic dXNlcjpwdw" = "Basic dXNlcjpwdw"%string /\
  without_first "Bearer " "Bearer abc" = "abc"%string /\
  without_first "Bearer " "Token Bearer abc" = "Token abc"%string.
Proof. repeat split. Qed.
